(** * The Lua/APR multi threading module (src/thread.c)

    A shallow embedding of [thread_runner], [lua_apr_thread], [thread_join],
    [thread_status], [thread_detach] and [thread_gc], and the properties of
    the thread handle's life cycle that follow from the code.

    The C functions work on a Lua state [L] (its stack), on the shared
    [lua_apr_thread_object] and on the operating system through APR.  They
    are written here in a small state monad over a [world] that holds these
    three and the list of the external calls made so far.  A computation can
    stop early: a Lua error leaves the C function by [longjmp], and a C call
    on a NULL string is undefined. *)

From Stdlib Require Import ZArith List String Ascii Bool Lia DecimalString.
Import ListNotations.

(** ** Lua values and C strings *)

#[local] Set Warnings "-register-all".

Inductive lua_value : Type :=
| LNil
| LBoolean (b : bool)
| LNumber (n : Z)
| LString (s : string)
| LTable (fields : list (string * lua_value))
| LFunction (f : nat)
| LCFunction (name : string)
| LUserdata (u : nat).

(** A C string ends at its first NUL byte: what [strdup], [apr_pstrdup] and
    [lua_pushstring] see of a buffer. *)
Fixpoint c_str (s : string) : string :=
  match s with
  | EmptyString => EmptyString
  | String c rest =>
      if Ascii.eqb c Ascii.zero then EmptyString else String c (c_str rest)
  end.

Definition lua_number2str (n : Z) : string :=
  NilZero.string_of_int (Z.to_int n).

(** [lua_isstring]: strings and numbers. *)
Definition value_isstring (v : lua_value) : bool :=
  match v with
  | LString _ | LNumber _ => true
  | _ => false
  end.

(** [lua_tolstring]: NULL ([None]) unless the value is a string or a number. *)
Definition value_tostring (v : lua_value) : option string :=
  match v with
  | LString s => Some s
  | LNumber n => Some (lua_number2str n)
  | _ => None
  end.

Definition value_istable (v : lua_value) : bool :=
  match v with LTable _ => true | _ => false end.

Definition value_isfunction (v : lua_value) : bool :=
  match v with LFunction _ | LCFunction _ => true | _ => false end.

(** [lua_pushstring]: a NULL pointer pushes nil, otherwise the C string. *)
Definition value_of_cstring (p : option string) : lua_value :=
  match p with
  | Some s => LString (c_str s)
  | None => LNil
  end.

Fixpoint table_get (fields : list (string * lua_value)) (k : string) : lua_value :=
  match fields with
  | [] => LNil
  | (k', v) :: rest => if String.eqb k k' then v else table_get rest k
  end.

Fixpoint table_set (fields : list (string * lua_value)) (k : string) (v : lua_value)
  : list (string * lua_value) :=
  match fields with
  | [] => [(k, v)]
  | (k', v') :: rest =>
      if String.eqb k k' then (k, v) :: rest else (k', v') :: table_set rest k v
  end.

(** ** The thread handle *)

Inductive thread_status_t : Type :=
| TS_INIT | TS_RUNNING | TS_DONE | TS_ERROR | TS_DETACH.

Definition thread_status_index (s : thread_status_t) : nat :=
  match s with
  | TS_INIT => 0 | TS_RUNNING => 1 | TS_DONE => 2 | TS_ERROR => 3 | TS_DETACH => 4
  end.

Definition thread_status_eqb (a b : thread_status_t) : bool :=
  Nat.eqb (thread_status_index a) (thread_status_index b).

Definition status_names : list string :=
  ["init"; "running"; "done"; "error"; "detach"]%string.

Definition apr_status_t : Type := Z.
Definition APR_SUCCESS : apr_status_t := 0%Z.

(** Pointers to APR objects are opaque; [None] is NULL. *)
Definition apr_pool_t : Type := nat.
Definition apr_thread_t : Type := nat.
Definition apr_threadattr_t : Type := nat.

(** The reference counted object wrapper of the binding (its [lua_apr_refobj]
    header and the three operations the thread module uses) is defined outside
    src/thread.c and is taken as a parameter. *)
Class RefObj : Type := {
  lua_apr_refobj : Type;
  object_incref : lua_apr_refobj -> lua_apr_refobj;
  object_collectable : lua_apr_refobj -> bool;
  release_object : lua_apr_refobj -> lua_apr_refobj
}.

Record lua_apr_thread_object `{RefObj} : Type := {
  header : lua_apr_refobj;
  pool : option apr_pool_t;
  handle : option apr_thread_t;
  attr : option apr_threadattr_t;
  input : option string;
  output : option string;
  path : option string;
  cpath : option string;
  config : option string;
  status : thread_status_t;
  joined : bool
}.

(** [thread_busy(T)]. *)
Definition thread_busy `{RefObj} (T : lua_apr_thread_object) : bool :=
  thread_status_eqb (status T) TS_INIT || thread_status_eqb (status T) TS_RUNNING.

(** ** The collaborators *)

(** The serialization service ([lua_apr_serialize], [lua_apr_unserialize]) is
    defined outside src/.  [None] stands for a Lua error raised by the
    service (the FIXME in [thread_runner] asks what happens then). *)
Class Serializer : Type := {
  serialize : list lua_value -> option string;
  unserialize : string -> option (list lua_value)
}.

(** The part of APR the module calls.  [OS] is the state of the operating
    system; every primitive answers with a status and a new state. *)
Class Apr : Type := {
  OS : Type;
  APR_ENOMEM : apr_status_t;
  apr_strerror : apr_status_t -> string;
  apr_pool_create : OS -> apr_status_t * option apr_pool_t * OS;
  apr_threadattr_create : option apr_pool_t -> OS -> apr_status_t * option apr_threadattr_t * OS;
  apr_thread_create : option apr_threadattr_t -> option apr_pool_t -> OS ->
                      apr_status_t * option apr_thread_t * OS;
  apr_thread_join : option apr_thread_t -> OS -> apr_status_t * OS;
  apr_thread_detach : option apr_thread_t -> OS -> apr_status_t * OS
}.

(** The Lua interpreter as the C code meets it: whether a state can be
    created, what compiling a chunk and calling a function value give
    (results, or the error value raised), and whether the binding can
    allocate a new userdata object. *)
Class Interp : Type := {
  luaL_newstate_ok : bool;
  new_object_ok : bool;
  compile_chunk : string -> string -> lua_value + lua_value;
  call_value : lua_value -> list lua_value -> list lua_value + lua_value
}.

(** ** Worlds, events and the monad *)

Inductive log_line : Type :=
| LogGcJoin
| LogDetachError (out : option string)
| LogJoinFailed (message : string)
| LogExitedWithError (out : option string).

(** The text [fprintf] is given for each line (the [%s] argument apart). *)
Definition log_format (l : log_line) : string :=
  match l with
  | LogGcJoin => "Lua/APR joining child thread from __gc() hook .."
  | LogDetachError _ => "Lua/APR thread detach error: %s"
  | LogJoinFailed _ => "Lua/APR failed to join thread: %s"
  | LogExitedWithError _ => "Lua/APR thread exited with error: %s"
  end%string.

Inductive event : Type :=
| EvIncref
| EvFree (p : option string)
| EvRelease
| EvNewState (ok : bool)
| EvOpenLibs
| EvSetField (field : string) (v : lua_value)
| EvPushHandler
| EvUnserialize
| EvLoadBuffer (ok : bool)
| EvSetStatus (s : thread_status_t)
| EvPcall (ok : bool)
| EvSerialize
| EvSetOutput (o : option string)
| EvClose
| EvThreadExit (h : apr_thread_t) (retval : apr_status_t)
| EvNewObject (ok : bool)
| EvPoolCreate (st : apr_status_t)
| EvAttrCreate (st : apr_status_t)
| EvThreadCreate (st : apr_status_t)
| EvJoin (h : option apr_thread_t) (st : apr_status_t)
| EvDetach (h : option apr_thread_t) (st : apr_status_t)
| EvYield
| EvStderr (l : log_line).

Inductive abort : Type :=
| LuaError      (* a Lua error was raised: control leaves the C function *)
| Undefined.    (* the C code did something with no defined behaviour *)

Inductive res (A : Type) : Type :=
| Ok (a : A)
| Abort (why : abort).
Arguments Ok {A} a.
Arguments Abort {A} why.

Record world `{RefObj} `{Apr} : Type := {
  stack : list lua_value;
  globals : string -> lua_value;
  thread : lua_apr_thread_object;
  os : OS;
  trace : list event
}.

Section Monad.
Context `{RefObj} `{Apr}.

Definition M (A : Type) : Type := world -> res A * world.

Definition ret {A} (a : A) : M A := fun w => (Ok a, w).

Definition bind {A B} (m : M A) (k : A -> M B) : M B :=
  fun w =>
    match m w with
    | (Ok a, w') => k a w'
    | (Abort why, w') => (Abort why, w')
    end.

Definition raise {A} (why : abort) : M A := fun w => (Abort why, w).

Definition get_world : M world := fun w => (Ok w, w).

Definition emit (e : event) : M unit :=
  fun w => (Ok tt, {| stack := stack w; globals := globals w; thread := thread w;
                      os := os w; trace := trace w ++ [e] |}).

Definition set_stack (s : list lua_value) : M unit :=
  fun w => (Ok tt, {| stack := s; globals := globals w; thread := thread w;
                      os := os w; trace := trace w |}).

Definition set_thread (t : lua_apr_thread_object) : M unit :=
  fun w => (Ok tt, {| stack := stack w; globals := globals w; thread := t;
                      os := os w; trace := trace w |}).

Definition set_os (o : OS) : M unit :=
  fun w => (Ok tt, {| stack := stack w; globals := globals w; thread := thread w;
                      os := o; trace := trace w |}).
End Monad.

Declare Scope thread_scope.
Delimit Scope thread_scope with thread.
Notation "x <- m ;; k" := (bind m (fun x => k))
  (at level 61, m at next level, right associativity) : thread_scope.
Notation "m ;; k" := (bind m (fun _ => k))
  (at level 61, right associativity) : thread_scope.
Local Open Scope thread_scope.

(** ** The Lua API on the stack of [L] *)

Section LuaApi.
Context `{RefObj} `{Apr} `{Interp} `{Serializer}.

(** The magnitude of a stack index as a natural number ([Pos.to_nat], in a
    form that computes on the literals the code uses). *)
Fixpoint depth (p : positive) : nat :=
  match p with
  | xH => 1
  | xO q => 2 * depth q
  | xI q => S (2 * depth q)
  end.

(** The slot (from 0) of a stack index: positive indices count from the
    bottom, negative ones from the top. *)
Definition slot (st : list lua_value) (idx : Z) : option nat :=
  match idx with
  | Zpos p =>
      if depth p <=? List.length st then Some (depth p - 1) else None
  | Zneg p =>
      if depth p <=? List.length st then Some (List.length st - depth p)
      else None
  | Z0 => None
  end.

(** The value at an index; an index outside the stack reads as nil, as
    [lua_type] gives LUA_TNONE there. *)
Definition stack_value (st : list lua_value) (idx : Z) : lua_value :=
  match idx with
  | Zpos p => nth (depth p - 1) st LNil
  | Zneg p => nth (depth p - 1) (rev st) LNil
  | Z0 => LNil
  end.

(** The stack without its [n] top values. *)
Definition drop_top (n : nat) (st : list lua_value) : list lua_value :=
  rev (skipn n (rev st)).

Fixpoint update_nth {A} (i : nat) (x : A) (l : list A) : list A :=
  match l, i with
  | [], _ => []
  | _ :: tl, O => x :: tl
  | hd :: tl, S j => hd :: update_nth j x tl
  end.

Definition lua_gettop : M Z :=
  w <- get_world ;; ret (Z.of_nat (List.length (stack w))).

Definition lua_settop (n : nat) : M unit :=
  w <- get_world ;;
  set_stack (firstn n (stack w) ++ repeat LNil (n - List.length (stack w))).

Definition lua_pop (n : nat) : M unit :=
  w <- get_world ;; set_stack (drop_top n (stack w)).

Definition lua_push (v : lua_value) : M unit :=
  w <- get_world ;; set_stack (stack w ++ [v]).

Definition lua_pushstring (p : option string) : M unit :=
  lua_push (value_of_cstring p).

Definition lua_pushboolean (b : Z) : M unit :=
  lua_push (LBoolean (negb (b =? 0)%Z)).

Definition lua_pushinteger (n : Z) : M unit := lua_push (LNumber n).

Definition lua_pushvalue (idx : Z) : M unit :=
  w <- get_world ;; lua_push (stack_value (stack w) idx).

Definition lua_isstring (idx : Z) : M bool :=
  w <- get_world ;; ret (value_isstring (stack_value (stack w) idx)).

Definition lua_istable (idx : Z) : M bool :=
  w <- get_world ;; ret (value_istable (stack_value (stack w) idx)).

Definition lua_isfunction (idx : Z) : M bool :=
  w <- get_world ;; ret (value_isfunction (stack_value (stack w) idx)).

(** [lua_tolstring]: NULL unless the value is a string or a number; a number
    is converted in place. *)
Definition lua_tolstring (idx : Z) : M (option string) :=
  w <- get_world ;;
  match slot (stack w) idx, stack_value (stack w) idx with
  | Some i, LNumber n =>
      set_stack (update_nth i (LString (lua_number2str n)) (stack w)) ;;
      ret (Some (lua_number2str n))
  | _, v => ret (value_tostring v)
  end.

(** [lua_tostring(L, i)] is [lua_tolstring(L, i, NULL)]. *)
Definition lua_tostring (idx : Z) : M (option string) := lua_tolstring idx.

Definition lua_getglobal (name : string) : M unit :=
  w <- get_world ;; lua_push (globals w name).

(** [lua_getfield]: indexing anything but a table raises. *)
Definition lua_getfield (idx : Z) (k : string) : M unit :=
  w <- get_world ;;
  match stack_value (stack w) idx with
  | LTable fields => lua_push (table_get fields k)
  | _ => raise LuaError
  end.

(** [lua_setfield]: stores the top value under [k] in the table at [idx]
    and pops it. *)
Definition lua_setfield (idx : Z) (k : string) : M unit :=
  w <- get_world ;;
  let v := stack_value (stack w) (-1) in
  match slot (stack w) idx, stack_value (stack w) idx with
  | Some i, LTable fields =>
      emit (EvSetField k v) ;;
      set_stack (update_nth i (LTable (table_set fields k v)) (stack w)) ;;
      lua_pop 1
  | _, _ => raise LuaError
  end.

(** [lua_replace]: moves the top value into [idx] and pops it. *)
Definition lua_replace (idx : Z) : M unit :=
  w <- get_world ;;
  match slot (stack w) idx with
  | Some i =>
      set_stack (update_nth i (stack_value (stack w) (-1)) (stack w)) ;; lua_pop 1
  | None => raise Undefined
  end.

(** [strdup(3)] of a C string; of NULL it is undefined. *)
Definition strdup (p : option string) : M (option string) :=
  match p with
  | Some s => ret (Some (c_str s))
  | None => raise Undefined
  end.

(** [apr_pstrdup]: NULL for NULL. *)
Definition apr_pstrdup (p : option string) : option string :=
  match p with
  | Some s => Some (c_str s)
  | None => None
  end.

Definition set_status (s : thread_status_t) : M unit :=
  w <- get_world ;;
  let t := thread w in
  emit (EvSetStatus s) ;;
  set_thread {| header := header t; pool := pool t; handle := handle t;
                attr := attr t; input := input t; output := output t;
                path := path t; cpath := cpath t; config := config t;
                status := s; joined := joined t |}.

Definition set_output (o : option string) : M unit :=
  w <- get_world ;;
  let t := thread w in
  emit (EvSetOutput o) ;;
  set_thread {| header := header t; pool := pool t; handle := handle t;
                attr := attr t; input := input t; output := o;
                path := path t; cpath := cpath t; config := config t;
                status := status t; joined := joined t |}.

Definition set_joined (j : bool) : M unit :=
  w <- get_world ;;
  let t := thread w in
  set_thread {| header := header t; pool := pool t; handle := handle t;
                attr := attr t; input := input t; output := output t;
                path := path t; cpath := cpath t; config := config t;
                status := status t; joined := j |}.

Definition set_header (h : lua_apr_refobj) : M unit :=
  w <- get_world ;;
  let t := thread w in
  set_thread {| header := h; pool := pool t; handle := handle t;
                attr := attr t; input := input t; output := output t;
                path := path t; cpath := cpath t; config := config t;
                status := status t; joined := joined t |}.

(** Modelled from the spec: [lua_apr_serialize(L, idx)] is defined outside
    src/; the serialization service turns the values from [idx] to the top
    into one buffer ([serialize(values...) -> buffer]), which replaces them
    on the stack, and fails loudly. *)
Definition lua_apr_serialize (idx : nat) : M unit :=
  w <- get_world ;;
  emit EvSerialize ;;
  match serialize (skipn (idx - 1) (stack w)) with
  | Some buffer => set_stack (firstn (idx - 1) (stack w) ++ [LString buffer])
  | None => raise LuaError
  end.

(** Modelled from the spec: [lua_apr_unserialize(L)] is defined outside
    src/; the service takes the buffer on top of the stack and leaves the
    values it holds in its place ([deserialize(buffer) -> values...]). *)
Definition lua_apr_unserialize : M unit :=
  w <- get_world ;;
  emit EvUnserialize ;;
  match stack_value (stack w) (-1) with
  | LString buffer =>
      match unserialize buffer with
      | Some values => set_stack (drop_top 1 (stack w) ++ values)
      | None => raise LuaError
      end
  | _ => raise LuaError
  end.

(** Modelled from the spec: [push_error_status(L, status)] is defined outside
    src/; a failed operation gives [(nil, error)]: nil followed by the
    message of the status code.  The number of values pushed is returned. *)
Definition push_error_status (st : apr_status_t) : M Z :=
  lua_push LNil ;;
  lua_push (LString (apr_strerror st)) ;;
  ret 2%Z.
End LuaApi.

(** ** Calls into the interpreter *)

Definition LUA_ERRRUN : Z := 2.
Definition LUA_ERRSYNTAX : Z := 3.
Definition LUA_ERRERR : Z := 5.

Section Calls.
Context `{RefObj} `{Apr} `{Interp} `{Serializer}.

(** [lua_call(L, nargs, 1)]: the function below its arguments is called and
    replaced, with them, by its first result; an error propagates. *)
Definition lua_call1 (nargs : nat) : M unit :=
  w <- get_world ;;
  let st := stack w in
  if List.length st <? nargs + 1 then raise Undefined
  else
    let base := List.length st - nargs - 1 in
    match call_value (nth base st LNil) (skipn (S base) st) with
    | inl results => set_stack (firstn base st ++ [hd LNil results])
    | inr _ => raise LuaError
    end.

(** [error_handler(L)], the message handler of the worker's protected call. *)
Definition error_handler : M Z :=
  isstr <- lua_isstring 1 ;;
  if negb isstr then ret 1%Z
  else
    lua_getglobal "debug" ;;
    istab <- lua_istable (-1) ;;
    if negb istab then lua_pop 1 ;; ret 1%Z
    else
      lua_getfield (-1) "traceback" ;;
      isfun <- lua_isfunction (-1) ;;
      if negb isfun then lua_pop 2 ;; ret 1%Z
      else
        lua_pushvalue 1 ;;
        lua_pushinteger 2 ;;
        lua_call1 2 ;;
        ret 1%Z.

(** The values a C function hands back when it returns [n]: the [n] values
    on top of the stack. *)
Definition returned (n : Z) (st : list lua_value) : list lua_value :=
  skipn (List.length st - Z.to_nat n) st.

(** A C function called by the interpreter runs on a stack frame of its own
    that holds its arguments, and hands back the values it returns; the
    caller's stack is as before. *)
Definition invoke (body : M Z) (args : list lua_value) (w : world)
  : res (list lua_value) * world :=
  let '(r, w') := body {| stack := args; globals := globals w; thread := thread w;
                          os := os w; trace := trace w |} in
  let back := {| stack := stack w; globals := globals w'; thread := thread w';
                 os := os w'; trace := trace w' |} in
  match r with
  | Ok n => (Ok (returned n (stack w')), back)
  | Abort why => (Abort why, back)
  end.

(** The same seen from a caller that goes on after an error of the callee. *)
Definition in_frame (body : M Z) (args : list lua_value) : M (res lua_value) :=
  fun w =>
    match invoke body args w with
    | (Ok results, back) => (Ok (Ok (hd LNil results)), back)
    | (Abort why, back) => (Ok (Abort why), back)
    end.

(** The message handler found at [errfunc]: [error_handler] when the C
    function of that name was pushed there, any other value is called
    through the interpreter. *)
Definition run_handler (h e : lua_value) : M (res lua_value) :=
  match h with
  | LCFunction name =>
      if String.eqb name "error_handler" then in_frame error_handler [e]
      else ret (Abort LuaError)
  | _ =>
      match call_value h [e] with
      | inl results => ret (Ok (hd LNil results))
      | inr _ => ret (Abort LuaError)
      end
  end.

(** [lua_pcall(L, nargs, LUA_MULTRET, errfunc)]. *)
Definition lua_pcall (nargs : Z) (errfunc : Z) : M Z :=
  w <- get_world ;;
  let st := stack w in
  if ((nargs <? 0) || (Z.of_nat (List.length st) <? nargs + 1))%Z then raise Undefined
  else
    let base := List.length st - Z.to_nat nargs - 1 in
    match call_value (nth base st LNil) (skipn (S base) st) with
    | inl results =>
        emit (EvPcall true) ;;
        set_stack (firstn base st ++ results) ;;
        ret 0%Z
    | inr e =>
        emit (EvPcall false) ;;
        handled <- run_handler (stack_value st errfunc) e ;;
        match handled with
        | Ok message => set_stack (firstn base st ++ [message]) ;; ret LUA_ERRRUN
        | Abort _ =>
            set_stack (firstn base st ++ [LString "error in error handling"]) ;;
            ret LUA_ERRERR
        end
    end.

(** [luaL_loadbuffer(L, buff, size, name)]: the chunk, or the compiler's
    message, is pushed. *)
Definition luaL_loadbuffer (buff : string) (name : string) : M Z :=
  match compile_chunk buff (c_str name) with
  | inl chunk => emit (EvLoadBuffer true) ;; lua_push chunk ;; ret 0%Z
  | inr message => emit (EvLoadBuffer false) ;; lua_push message ;; ret LUA_ERRSYNTAX
  end.

(** [luaL_newstate()]: [true] when a state was created; its stack is empty. *)
Definition luaL_newstate : M bool :=
  emit (EvNewState luaL_newstate_ok) ;;
  (if luaL_newstate_ok then set_stack [] else ret tt) ;;
  ret luaL_newstate_ok.

Definition luaL_openlibs : M unit := emit EvOpenLibs.

Definition lua_pushcfunction (name : string) : M unit :=
  emit EvPushHandler ;; lua_push (LCFunction name).

Definition lua_close : M unit := emit EvClose ;; set_stack [].

Definition apr_thread_exit (h : apr_thread_t) (retval : apr_status_t) : M unit :=
  emit (EvThreadExit h retval).

(** Modelled from the spec: [check_object], behind the macro
    [check_thread(L, idx)], is defined outside src/; a method takes a thread
    handle as its input, so anything but the userdata of a thread object is
    refused with a Lua error.  The object returned is [thread] of the
    world. *)
Definition check_thread (idx : Z) : M unit :=
  w <- get_world ;;
  match stack_value (stack w) idx with
  | LUserdata _ => ret tt
  | _ => raise LuaError
  end.

End Calls.

(** ** src/thread.c *)

Section Thread.
Context `{RefObj} `{Apr} `{Interp} `{Serializer}.

(** [thread_destroy(thread)]. *)
Definition thread_destroy : M unit :=
  w <- get_world ;;
  (if object_collectable (header (thread w))
   then emit (EvFree (output (thread w)))
   else ret tt) ;;
  emit EvRelease ;;
  set_header (release_object (header (thread w))).

(** [thread_runner(handle, thread)]: the body of the worker thread. *)
Definition thread_runner (handle : apr_thread_t) : M unit :=
  (* The child thread is now using the thread structure. *)
  w <- get_world ;;
  emit EvIncref ;;
  set_header (object_incref (header (thread w))) ;;
  (* Start by creating a new Lua state. *)
  created <- luaL_newstate ;;
  status <-
    (if negb created then
       o <- strdup (Some "Failed to create Lua state"%string) ;;
       set_output o ;;
       ret TS_ERROR
     else
       luaL_openlibs ;;
       lua_getglobal "package" ;;
       lua_pushstring (config (thread w)) ;; lua_setfield (-2) "config" ;;
       lua_pushstring (path (thread w)) ;; lua_setfield (-2) "path" ;;
       lua_pushstring (cpath (thread w)) ;; lua_setfield (-2) "cpath" ;;
       lua_settop 0 ;;
       lua_pushcfunction "error_handler" ;;
       lua_pushstring (input (thread w)) ;;
       lua_apr_unserialize ;;
       let status := TS_INIT in
       isstr <- lua_isstring 2 ;;
       status <-
         (if isstr then
            function <- lua_tolstring 2 ;;
            match function with
            | None => raise Undefined
            | Some function =>
                rc <- luaL_loadbuffer function function ;;
                if negb (rc =? 0)%Z then
                  s <- lua_tostring (-1) ;;
                  o <- strdup s ;;
                  set_output o ;;
                  ret TS_ERROR
                else
                  lua_replace 2 ;;
                  ret status
            end
          else ret status) ;;
       status <-
         (if negb (thread_status_eqb status TS_ERROR) then
            set_status TS_RUNNING ;;
            top <- lua_gettop ;;
            rc <- lua_pcall (top - 2) 1 ;;
            if negb (rc =? 0)%Z then
              s <- lua_tostring (-1) ;;
              o <- strdup s ;;
              set_output o ;;
              ret TS_ERROR
            else
              lua_apr_serialize 2 ;;
              s <- lua_tostring (-1) ;;
              o <- strdup s ;;
              set_output o ;;
              ret TS_DONE
          else ret status) ;;
       lua_close ;;
       ret status) ;;
  set_status status ;;
  thread_destroy ;;
  apr_thread_exit handle APR_SUCCESS.

(** Modelled from the spec: [new_object(L, type)] is defined outside src/;
    the wrapper's [alloc(type) -> object] leaves the new userdata on the
    stack of [L] and returns it, or NULL.  The memory it hands out is
    [thread] of the world. *)
Definition new_object : M bool :=
  emit (EvNewObject new_object_ok) ;;
  (if new_object_ok then lua_push (LUserdata 0) else ret tt) ;;
  ret new_object_ok.

Definition set_pool (p : option apr_pool_t) : M unit :=
  w <- get_world ;;
  let t := thread w in
  set_thread {| header := header t; pool := p; handle := handle t;
                attr := attr t; input := input t; output := output t;
                path := path t; cpath := cpath t; config := config t;
                status := status t; joined := joined t |}.

Definition set_attr (a : option apr_threadattr_t) : M unit :=
  w <- get_world ;;
  let t := thread w in
  set_thread {| header := header t; pool := pool t; handle := handle t;
                attr := a; input := input t; output := output t;
                path := path t; cpath := cpath t; config := config t;
                status := status t; joined := joined t |}.

Definition set_handle (h : option apr_thread_t) : M unit :=
  w <- get_world ;;
  let t := thread w in
  set_thread {| header := header t; pool := pool t; handle := h;
                attr := attr t; input := input t; output := output t;
                path := path t; cpath := cpath t; config := config t;
                status := status t; joined := joined t |}.

Definition set_input (i : option string) : M unit :=
  w <- get_world ;;
  let t := thread w in
  set_thread {| header := header t; pool := pool t; handle := handle t;
                attr := attr t; input := i; output := output t;
                path := path t; cpath := cpath t; config := config t;
                status := status t; joined := joined t |}.

Definition set_config (c : option string) : M unit :=
  w <- get_world ;;
  let t := thread w in
  set_thread {| header := header t; pool := pool t; handle := handle t;
                attr := attr t; input := input t; output := output t;
                path := path t; cpath := cpath t; config := c;
                status := status t; joined := joined t |}.

Definition set_path (c : option string) : M unit :=
  w <- get_world ;;
  let t := thread w in
  set_thread {| header := header t; pool := pool t; handle := handle t;
                attr := attr t; input := input t; output := output t;
                path := c; cpath := cpath t; config := config t;
                status := status t; joined := joined t |}.

Definition set_cpath (c : option string) : M unit :=
  w <- get_world ;;
  let t := thread w in
  set_thread {| header := header t; pool := pool t; handle := handle t;
                attr := attr t; input := input t; output := output t;
                path := path t; cpath := c; config := config t;
                status := status t; joined := joined t |}.

(** The macro [get_package_value(fieldname, fieldptr)] of [lua_apr_thread]. *)
Definition get_package_value (fieldname : string) (set_field : option string -> M unit)
  : M unit :=
  lua_getfield (-1) fieldname ;;
  isstr <- lua_isstring (-1) ;;
  (if isstr then s <- lua_tostring (-1) ;; set_field (apr_pstrdup s) else ret tt) ;;
  lua_pop 1.

(** The label [fail] of [lua_apr_thread]; [allocated] is [thread != NULL]. *)
Definition lua_apr_thread_fail (allocated : bool) (st : apr_status_t) : M Z :=
  (if allocated then thread_destroy else ret tt) ;;
  push_error_status st.

(** [lua_apr_thread(L)]: apr.thread(f [, ...]).  The thread that
    [apr_thread_create] starts runs [thread_runner] on the handle; its run is
    an operation of its own in this model. *)
Definition lua_apr_thread : M Z :=
  let status := APR_ENOMEM in
  (* Serialize the thread function and any arguments. *)
  lua_apr_serialize 1 ;;
  input_idx <- lua_gettop ;;
  (* Create the Lua/APR thread object. *)
  allocated <- new_object ;;
  if negb allocated then lua_apr_thread_fail false status
  else
    set_status TS_INIT ;;
    (* Create a memory pool for the thread. *)
    w <- get_world ;;
    let '(status, p, o) := apr_pool_create (os w) in
    emit (EvPoolCreate status) ;; set_os o ;; set_pool p ;;
    if negb (status =? APR_SUCCESS)%Z then lua_apr_thread_fail true status
    else
      (* Copy the serialized thread function to the thread's memory pool. *)
      s <- lua_tostring input_idx ;;
      set_input (apr_pstrdup s) ;;
      (* Copy package.{config,path,cpath}. *)
      lua_getglobal "package" ;;
      istab <- lua_istable (-1) ;;
      (if istab then
         get_package_value "config" set_config ;;
         get_package_value "path" set_path ;;
         get_package_value "cpath" set_cpath
       else ret tt) ;;
      lua_pop 1 ;;
      (* Start the operating system thread. *)
      w <- get_world ;;
      let '(status, a, o) := apr_threadattr_create (pool (thread w)) (os w) in
      emit (EvAttrCreate status) ;; set_os o ;; set_attr a ;;
      status <-
        (if (status =? APR_SUCCESS)%Z then
           w <- get_world ;;
           let '(status, h, o) :=
             apr_thread_create (attr (thread w)) (pool (thread w)) (os w) in
           emit (EvThreadCreate status) ;; set_os o ;; set_handle h ;;
           ret status
         else ret status) ;;
      if negb (status =? APR_SUCCESS)%Z then lua_apr_thread_fail true status
      else
        (* Return the thread object. *)
        ret 1%Z.

(** [lua_apr_thread_yield(L)]. *)
Definition lua_apr_thread_yield : M Z :=
  emit EvYield ;; ret 0%Z.

(** The tail of [thread_join]: push the status and any results. *)
Definition thread_join_results : M Z :=
  w <- get_world ;;
  (if thread_status_eqb (status (thread w)) TS_DONE then
     lua_pushboolean 1 ;;
     lua_pushstring (output (thread w)) ;;
     lua_apr_unserialize
   else
     lua_pushboolean 0 ;;
     lua_pushstring (output (thread w))) ;;
  top <- lua_gettop ;;
  ret (top - 1)%Z.

(** [thread_join(L)]: thread:join().  [thread] of the world is the handle as
    the calling thread finds it when [apr_thread_join] has returned. *)
Definition thread_join : M Z :=
  check_thread 1 ;;
  lua_settop 1 ;;
  w <- get_world ;;
  (* Don't join more than once. *)
  if negb (joined (thread w)) then
    let '(status, o) := apr_thread_join (handle (thread w)) (os w) in
    emit (EvJoin (handle (thread w)) status) ;; set_os o ;;
    if negb (status =? APR_SUCCESS)%Z then push_error_status status
    else
      set_joined true ;;
      thread_join_results
  else thread_join_results.

(** [thread_status(L)]: thread:status(). *)
Definition thread_status : M Z :=
  check_thread 1 ;;
  w <- get_world ;;
  lua_pushstring
    (Some (nth (thread_status_index (status (thread w))) status_names ""%string)) ;;
  ret 1%Z.

(** [thread_detach(L)]: thread:detach(). *)
Definition thread_detach : M Z :=
  check_thread 1 ;;
  w <- get_world ;;
  let '(status, o) := apr_thread_detach (handle (thread w)) (os w) in
  emit (EvDetach (handle (thread w)) status) ;; set_os o ;;
  if (status =? APR_SUCCESS)%Z then
    set_status TS_DETACH ;;
    lua_pushboolean 1 ;;
    ret 1%Z
  else push_error_status status.

(** [thread_gc(L)]: thread:__gc().  As in [thread_join], [thread] of the
    world is the handle as it is once the wait is over; the test for
    TS_DETACH, which the code makes before the wait, reads the same there,
    since the worker never stores TS_DETACH. *)
Definition thread_gc : M Z :=
  check_thread 1 ;;
  w <- get_world ;;
  (if negb (joined (thread w)) then
     emit (EvStderr LogGcJoin) ;;
     if thread_status_eqb (status (thread w)) TS_DETACH then
       emit (EvStderr (LogDetachError (output (thread w))))
     else
       let '(join_status, o) := apr_thread_join (handle (thread w)) (os w) in
       emit (EvJoin (handle (thread w)) join_status) ;; set_os o ;;
       if negb (join_status =? APR_SUCCESS)%Z then
         emit (EvStderr (LogJoinFailed (apr_strerror join_status)))
       else
         w' <- get_world ;;
         if thread_status_eqb (status (thread w')) TS_ERROR then
           emit (EvStderr (LogExitedWithError (output (thread w'))))
         else ret tt
   else ret tt) ;;
  thread_destroy ;;
  ret 0%Z.
End Thread.

(** ** Concrete collaborators

    Small executable stand-ins for the parameters, on which the functions
    above can be run. *)

Module Sample.

(** A reference counter. *)
Definition refobj : RefObj := {|
  lua_apr_refobj := nat;
  object_incref := S;
  object_collectable := fun n => Nat.eqb n 1;
  release_object := Nat.pred
|}.

(** A line based codec: one value per line, a tag and the payload. *)
Definition encode_value (v : lua_value) : option string :=
  match v with
  | LNil => Some "n"%string
  | LBoolean true => Some "t"%string
  | LBoolean false => Some "f"%string
  | LNumber n => Some (String "i" (lua_number2str n))
  | LString s => Some (String "s" s)
  | LFunction f => Some (String "F" (NilZero.string_of_uint (Nat.to_uint f)))
  | _ => None
  end.

Definition newline : ascii := ascii_of_nat 10.

Fixpoint encode (vs : list lua_value) : option string :=
  match vs with
  | [] => Some EmptyString
  | v :: rest =>
      match encode_value v, encode rest with
      | Some l, Some r => Some (l ++ String newline r)%string
      | _, _ => None
      end
  end.

Fixpoint lines (cur : string) (s : string) : list string :=
  match s with
  | EmptyString => []
  | String c rest =>
      if Ascii.eqb c newline then cur :: lines EmptyString rest
      else lines (cur ++ String c EmptyString)%string rest
  end.

Definition decode_value (l : string) : option lua_value :=
  match l with
  | String "n" EmptyString => Some LNil
  | String "t" EmptyString => Some (LBoolean true)
  | String "f" EmptyString => Some (LBoolean false)
  | String "i" d => option_map (fun n => LNumber (Z.of_int n)) (NilZero.int_of_string d)
  | String "s" s => Some (LString s)
  | String "F" d => option_map (fun n => LFunction (Nat.of_uint n)) (NilZero.uint_of_string d)
  | _ => None
  end.

Fixpoint decode_all (ls : list string) : option (list lua_value) :=
  match ls with
  | [] => Some []
  | l :: rest =>
      match decode_value l, decode_all rest with
      | Some v, Some vs => Some (v :: vs)
      | _, _ => None
      end
  end.

Definition serializer : Serializer := {|
  serialize := encode;
  unserialize := fun s => decode_all (lines EmptyString s)
|}.

(** An operating system that answers from a script: each primitive takes
    the next status of the list (and succeeds when the list is empty). *)
Definition next (script : list apr_status_t) : apr_status_t * list apr_status_t :=
  match script with
  | [] => (APR_SUCCESS, [])
  | st :: rest => (st, rest)
  end.

Definition pointer (st : apr_status_t) (p : nat) : option nat :=
  if (st =? APR_SUCCESS)%Z then Some p else None.

Definition apr : Apr := {|
  OS := list apr_status_t;
  APR_ENOMEM := 12%Z;
  apr_strerror := fun st => ("APR error " ++ lua_number2str st)%string;
  apr_pool_create := fun o => let '(st, o') := next o in (st, pointer st 1, o');
  apr_threadattr_create := fun _ o => let '(st, o') := next o in (st, pointer st 2, o');
  apr_thread_create := fun _ _ o => let '(st, o') := next o in (st, pointer st 3, o');
  apr_thread_join := fun _ o => next o;
  apr_thread_detach := fun _ o => next o
|}.

(** An interpreter that knows three chunks and [debug.traceback]. *)
Definition interp (newstate_ok object_ok : bool) : Interp := {|
  luaL_newstate_ok := newstate_ok;
  new_object_ok := object_ok;
  compile_chunk := fun buff _ =>
    if String.eqb buff "return 1, 'two', true" then inl (LFunction 1)
    else if String.eqb buff "error('boom')" then inl (LFunction 2)
    else if String.eqb buff "error({})" then inl (LFunction 3)
    else inr (LString "unexpected symbol");
  call_value := fun f args =>
    match f with
    | LFunction 1 => inl [LNumber 1; LString "two"; LBoolean true]
    | LFunction 2 => inr (LString "boom")
    | LFunction 3 => inr (LTable [])
    | LCFunction "traceback" =>
        match args with
        | LString m :: _ => inl [LString (m ++ " stack traceback:")%string]
        | _ => inl args
        end
    | _ => inr (LString "attempt to call a non-function value")
    end
|}.

(** The globals a fresh state has after [luaL_openlibs], as far as the
    module looks at them. *)
Definition fresh_globals (name : string) : lua_value :=
  if String.eqb name "package" then
    LTable [("config", LString "/"); ("path", LString "./?.lua");
            ("cpath", LString "./?.so")]%string
  else if String.eqb name "debug" then
    LTable [("traceback"%string, LCFunction "traceback")]
  else LNil.

#[local] Existing Instance refobj.
#[local] Existing Instance apr.
#[local] Existing Instance serializer.

(** A handle as [lua_apr_thread] leaves it for a function given as source
    text, with the reference of the creating thread. *)
Definition spawned (source : string) : lua_apr_thread_object := {|
  header := 1; pool := Some 1; handle := Some 3; attr := Some 2;
  input := encode [LString source]; output := None;
  path := Some "./?.lua"%string; cpath := Some "./?.so"%string;
  config := Some "/"%string;
  status := TS_INIT; joined := false
|}.

Definition world_of (st : list lua_value) (t : lua_apr_thread_object)
  (script : list apr_status_t) : world := {|
  stack := st; globals := fresh_globals; thread := t; os := script; trace := []
|}.

(** The interpreter when nothing fails. *)
Definition interp_ok : Interp := interp true true.

(** The world in which the worker of a spawned function has run. *)
Definition finished (source : string) : world :=
  snd (@thread_runner _ _ interp_ok _ 7 (world_of [] (spawned source) [])).

(** The same handle after a successful detach. *)
Definition detached (source : string) : lua_apr_thread_object := {|
  header := 1; pool := Some 1; handle := Some 3; attr := Some 2;
  input := encode [LString source]; output := None;
  path := Some "./?.lua"%string; cpath := Some "./?.so"%string;
  config := Some "/"%string;
  status := TS_DETACH; joined := false
|}.

(** The world of a call on a detached handle that was never joined; the wait
    primitive will answer with the first status of the script. *)
Definition detached_world (script : list apr_status_t) : world :=
  world_of [] (detached "return 1, 'two', true") script.

(** The world of a call of apr.thread whose steps answer from the script. *)
Definition spawning_world (script : list apr_status_t) : world :=
  world_of [] (spawned "") script.

(** The buffer the codec makes of the results (1, "two", true). *)
Definition results_buffer : string :=
  Eval vm_compute in
    match encode [LNumber 1; LString "two"; LBoolean true] with
    | Some s => s
    | None => EmptyString
    end.

(** The operating system once its script is used up. *)
Definition idle : @OS apr := @nil apr_status_t.
End Sample.
(** * Vocabulary of the statements *)

Section Vocabulary.
Context `{RefObj} `{Apr} `{Interp} `{Serializer}.

(** What [error_handler] makes of an error value, given the globals of the
    state: the value itself unless it is a string and [debug.traceback] is
    there to be called on it. *)
Definition handled_error (g : string -> lua_value) (e : lua_value) : res lua_value :=
  if negb (value_isstring e) then Ok e
  else
    match g "debug"%string with
    | LTable fields =>
        if value_isfunction (table_get fields "traceback") then
          match call_value (table_get fields "traceback") [e; LNumber 2] with
          | inl results => Ok (hd LNil results)
          | inr _ => Abort LuaError
          end
        else Ok e
    | _ => Ok e
    end.

(** The value a failed protected call leaves on the stack. *)
Definition pcall_message (g : string -> lua_value) (e : lua_value) : lua_value :=
  match handled_error g e with
  | Ok message => message
  | Abort _ => LString "error in error handling"
  end.

Definition pcall_status (g : string -> lua_value) (e : lua_value) : Z :=
  match handled_error g e with
  | Ok _ => LUA_ERRRUN
  | Abort _ => LUA_ERRERR
  end.

(** The calls by which the worker builds and configures its interpreter and
    decodes its input, in the order of the code. *)
Definition worker_setup (t : lua_apr_thread_object) : list event :=
  [EvIncref; EvNewState true; EvOpenLibs;
   EvSetField "config" (value_of_cstring (config t));
   EvSetField "path" (value_of_cstring (path t));
   EvSetField "cpath" (value_of_cstring (cpath t));
   EvPushHandler; EvUnserialize].

(** [thread_destroy] as seen from outside. *)
Definition destroy_events (hdr : lua_apr_refobj) (out : option string) : list event :=
  (if object_collectable hdr then [EvFree out] else []) ++ [EvRelease].

(** The last steps of the worker once [out] is stored: the interpreter (if
    one was created) is closed, the status is published and the handle is
    released; then the thread exits. *)
Definition worker_closing (created : bool) (t : lua_apr_thread_object)
  (out : option string) (st : thread_status_t) : list event :=
  EvSetOutput out :: (if created then [EvClose] else [])
    ++ EvSetStatus st :: destroy_events (object_incref (header t)) out.

Definition worker_finish (created : bool) (t : lua_apr_thread_object)
  (out : option string) (st : thread_status_t) (h : apr_thread_t) : list event :=
  worker_closing created t out st ++ [EvThreadExit h APR_SUCCESS].

(** The handle a finished worker leaves behind. *)
Definition worker_handle (t : lua_apr_thread_object) (out : option string)
  (st : thread_status_t) : lua_apr_thread_object :=
  {| header := release_object (object_incref (header t));
     pool := pool t; handle := handle t; attr := attr t; input := input t;
     output := out; path := path t; cpath := cpath t; config := config t;
     status := st; joined := joined t |}.

Definition worker_world (w : world) (out : option string) (st : thread_status_t)
  (evs : list event) : world :=
  {| stack := (if luaL_newstate_ok then [] else stack w); globals := globals w;
     thread := worker_handle (thread w) out st; os := os w;
     trace := trace w ++ evs |}.

(** The values the input buffer of the handle holds. *)
Definition decode_input (w : world) : option (list lua_value) :=
  match input (thread w) with
  | Some i => unserialize (c_str i)
  | None => None
  end.

(** The worker has an interpreter, with the [package] table of the standard
    libraries, and its input holds [f] and [args]. *)
Definition decoded (w : world) (f : lua_value) (args : list lua_value) : Prop :=
  luaL_newstate_ok = true /\
  value_istable (globals w "package"%string) = true /\
  decode_input w = Some (f :: args).

(** The function the worker calls for [f]: [f] itself, or the chunk compiled
    from it when it is source text; [inr] holds the compiler's message. *)
Definition load_callable (f : lua_value) : lua_value + lua_value :=
  match value_tostring f with
  | Some source => compile_chunk source (c_str source)
  | None => inl f
  end.

Definition load_events (f : lua_value) : list event :=
  match value_tostring f, load_callable f with
  | Some _, inl _ => [EvLoadBuffer true]
  | Some _, inr _ => [EvLoadBuffer false]
  | None, _ => []
  end.

Definition load_shape (load : list event) : Prop :=
  load = [] \/ load = [EvLoadBuffer true].

(** What a run of the worker on the handle [t] looks like from outside:
    how it ends, the calls it makes, and the status and output it leaves. *)
Inductive worker_run (t : lua_apr_thread_object) (h : apr_thread_t)
  : res unit -> list event -> thread_status_t -> option string -> Prop :=
| RunCreateFailure out :
    worker_run t h (Ok tt)
      ([EvIncref; EvNewState false] ++ worker_finish false t out TS_ERROR h)
      TS_ERROR out
| RunCompileFailure out :
    worker_run t h (Ok tt)
      (worker_setup t ++ [EvLoadBuffer false] ++ worker_finish true t out TS_ERROR h)
      TS_ERROR out
| RunRuntimeError load out :
    load_shape load ->
    worker_run t h (Ok tt)
      (worker_setup t ++ load ++ [EvSetStatus TS_RUNNING; EvPcall false]
       ++ worker_finish true t out TS_ERROR h)
      TS_ERROR out
| RunSuccess load out :
    load_shape load ->
    worker_run t h (Ok tt)
      (worker_setup t ++ load ++ [EvSetStatus TS_RUNNING; EvPcall true; EvSerialize]
       ++ worker_finish true t out TS_DONE h)
      TS_DONE out
| RunCrashEarly why evs :
    evs = [EvIncref; EvNewState true; EvOpenLibs] \/
    evs = worker_setup t \/
    evs = worker_setup t ++ [EvLoadBuffer false] ->
    worker_run t h (Abort why) evs (status t) (output t)
| RunCrashRunning why load tail :
    load_shape load ->
    tail = [] \/ tail = [EvPcall false] \/ tail = [EvPcall true; EvSerialize] ->
    worker_run t h (Abort why)
      (worker_setup t ++ load ++ EvSetStatus TS_RUNNING :: tail)
      TS_RUNNING (output t).

(** The statuses, outputs, exits and returns of the protected call that a
    list of events holds, in order. *)
Fixpoint status_writes (evs : list event) : list thread_status_t :=
  match evs with
  | [] => []
  | EvSetStatus s :: rest => s :: status_writes rest
  | _ :: rest => status_writes rest
  end.

Fixpoint output_writes (evs : list event) : list (option string) :=
  match evs with
  | [] => []
  | EvSetOutput o :: rest => o :: output_writes rest
  | _ :: rest => output_writes rest
  end.

Fixpoint thread_exits (evs : list event) : list (apr_thread_t * apr_status_t) :=
  match evs with
  | [] => []
  | EvThreadExit h retval :: rest => (h, retval) :: thread_exits rest
  | _ :: rest => thread_exits rest
  end.

Fixpoint pcall_returns (evs : list event) : list bool :=
  match evs with
  | [] => []
  | EvPcall ok :: rest => ok :: pcall_returns rest
  | _ :: rest => pcall_returns rest
  end.

(** The status another thread reads from a handle that held [s0] when the
    worker started and has seen the worker's events [evs] since. *)
Definition observed (s0 : thread_status_t) (evs : list event) : thread_status_t :=
  last (status_writes evs) s0.

(** The four ways in which the worker runs to its end, and the output each
    leaves in the handle. *)
Inductive run_kind : Type :=
| CreateFailure | CompileFailure | RuntimeError | Success.

Definition kind_status (k : run_kind) : thread_status_t :=
  match k with
  | Success => TS_DONE
  | _ => TS_ERROR
  end.

Inductive worker_case (w : world) : run_kind -> option string -> Prop :=
| CaseCreateFailure :
    luaL_newstate_ok = false ->
    worker_case w CreateFailure (Some "Failed to create Lua state"%string)
| CaseCompileFailure f args message m :
    decoded w f args ->
    load_callable f = inr message ->
    value_tostring message = Some m ->
    worker_case w CompileFailure (Some (c_str m))
| CaseRuntimeError f args callee e m :
    decoded w f args ->
    load_callable f = inl callee ->
    call_value callee args = inr e ->
    value_tostring (pcall_message (globals w) e) = Some m ->
    worker_case w RuntimeError (Some (c_str m))
| CaseSuccess f args callee results s :
    decoded w f args ->
    load_callable f = inl callee ->
    call_value callee args = inl results ->
    serialize results = Some s ->
    worker_case w Success (Some (c_str s)).

(** What the tail of [thread_join] hands back for a handle: [true] and the
    values decoded from the output buffer when the status is TS_DONE, else
    [false] and the buffer as a string (nil for a NULL buffer). *)
Definition join_results (t : lua_apr_thread_object) : res (list lua_value) :=
  if thread_status_eqb (status t) TS_DONE then
    match value_of_cstring (output t) with
    | LString buffer =>
        match unserialize buffer with
        | Some values => Ok (LBoolean true :: values)
        | None => Abort LuaError
        end
    | _ => Abort LuaError
    end
  else Ok [LBoolean false; value_of_cstring (output t)].

(** The call of the serialization service that decoding the output makes. *)
Definition decode_events (t : lua_apr_thread_object) : list event :=
  if thread_status_eqb (status t) TS_DONE then [EvUnserialize] else [].

(** The handle with its [joined] flag set, and with another status. *)
Definition mark_joined (t : lua_apr_thread_object) : lua_apr_thread_object :=
  {| header := header t; pool := pool t; handle := handle t; attr := attr t;
     input := input t; output := output t; path := path t; cpath := cpath t;
     config := config t; status := status t; joined := true |}.

Definition with_status (t : lua_apr_thread_object) (s : thread_status_t)
  : lua_apr_thread_object :=
  {| header := header t; pool := pool t; handle := handle t; attr := attr t;
     input := input t; output := output t; path := path t; cpath := cpath t;
     config := config t; status := s; joined := joined t |}.

Definition with_header (t : lua_apr_thread_object) (hdr : lua_apr_refobj)
  : lua_apr_thread_object :=
  {| header := hdr; pool := pool t; handle := handle t; attr := attr t;
     input := input t; output := output t; path := path t; cpath := cpath t;
     config := config t; status := status t; joined := joined t |}.

(** The world a method call leaves: the caller's stack is as before. *)
Definition after_call (w : world) (t : lua_apr_thread_object) (o : OS)
  (evs : list event) : world :=
  {| stack := stack w; globals := globals w; thread := t; os := o;
     trace := trace w ++ evs |}.

(** The waits on the native thread that a list of events holds. *)
Fixpoint join_calls (evs : list event) : list (option apr_thread_t * apr_status_t) :=
  match evs with
  | [] => []
  | EvJoin h st :: rest => (h, st) :: join_calls rest
  | _ :: rest => join_calls rest
  end.

(** What [get_package_value] leaves in a field of the handle that held [old],
    for the value [v] found in the [package] table. *)
Definition copy_field (v : lua_value) (old : option string) : option string :=
  if value_isstring v then apr_pstrdup (value_tostring v) else old.

(** What can happen to a handle: a call of one of its methods or of its
    finalizer with some arguments, or a run of its worker. *)
Inductive handle_op : Type :=
| OpJoin (args : list lua_value)
| OpStatus (args : list lua_value)
| OpDetach (args : list lua_value)
| OpGc (args : list lua_value)
| OpWorker (h : apr_thread_t).

Definition run_op (op : handle_op) (w : world) : world :=
  match op with
  | OpJoin args => snd (invoke thread_join args w)
  | OpStatus args => snd (invoke thread_status args w)
  | OpDetach args => snd (invoke thread_detach args w)
  | OpGc args => snd (invoke thread_gc args w)
  | OpWorker h => snd (thread_runner h w)
  end.

Definition run_ops (ops : list handle_op) (w : world) : world :=
  fold_left (fun w' op => run_op op w') ops w.

End Vocabulary.


(** * The rest of src/thread.c and what its life cycle is measured by *)

(** [lua_apr_objtype], as far as the thread module reads it: the names of
    the type (its size and its tables of methods are used by the object
    wrapper alone). *)
Record lua_apr_objtype : Type := {
  typename : string;
  friendlyname : string
}.

Definition lua_apr_thread_type : lua_apr_objtype :=
  {| typename := "lua_apr_thread_object*"; friendlyname := "thread" |}%string.

Section ThreadObject.
Context `{RefObj} `{Apr} `{Interp} `{Serializer}.

(** [lua_pushfstring(L, "%s (%s)", a, b)] on two C strings. *)
Definition lua_pushfstring_s_s (a b : string) : M unit :=
  lua_push (LString (c_str a ++ " (" ++ c_str b ++ ")")%string).

(** [thread_tostring(L)]: thread:__tostring(). *)
Definition thread_tostring : M Z :=
  check_thread 1 ;;
  w <- get_world ;;
  lua_pushfstring_s_s (friendlyname lua_apr_thread_type)
    (nth (thread_status_index (status (thread w))) status_names ""%string) ;;
  ret 1%Z.

(** The handle, the operating system and the calls made so far, seen from
    another Lua state: that of the thread that runs next. *)
Definition in_state (g : string -> lua_value) (st : list lua_value) (w : world)
  : world :=
  {| stack := st; globals := g; thread := thread w; os := os w; trace := trace w |}.

(** What [lua_apr_thread] stores in a field of the handle that held [old],
    for the global [package] of the calling state. *)
Definition package_field (package : lua_value) (k : string) (old : option string)
  : option string :=
  match package with
  | LTable fields => copy_field (table_get fields k) old
  | _ => old
  end.

(** The handle a successful call of [lua_apr_thread] leaves in the memory
    [t] of the new object. *)
Definition spawned_handle (t : lua_apr_thread_object) (buffer : string)
  (package : lua_value) (p : option apr_pool_t) (a : option apr_threadattr_t)
  (hd : option apr_thread_t) : lua_apr_thread_object :=
  {| header := header t; pool := p; handle := hd; attr := a;
     input := Some (c_str buffer); output := output t;
     path := package_field package "path" (path t);
     cpath := package_field package "cpath" (cpath t);
     config := package_field package "config" (config t);
     status := TS_INIT; joined := joined t |}.

(** The calls of a successful [lua_apr_thread]. *)
Definition spawn_events : list event :=
  [EvSerialize; EvNewObject true; EvSetStatus TS_INIT; EvPoolCreate APR_SUCCESS;
   EvAttrCreate APR_SUCCESS; EvThreadCreate APR_SUCCESS].
End ThreadObject.

(** The references taken and given back, the buffers freed and the lines
    written to stderr that a list of events holds. *)
Fixpoint increfs (evs : list event) : nat :=
  match evs with
  | [] => 0
  | EvIncref :: rest => S (increfs rest)
  | _ :: rest => increfs rest
  end.

Fixpoint releases (evs : list event) : nat :=
  match evs with
  | [] => 0
  | EvRelease :: rest => S (releases rest)
  | _ :: rest => releases rest
  end.

Fixpoint frees (evs : list event) : list (option string) :=
  match evs with
  | [] => []
  | EvFree p :: rest => p :: frees rest
  | _ :: rest => frees rest
  end.

Fixpoint stderr_lines (evs : list event) : list log_line :=
  match evs with
  | [] => []
  | EvStderr l :: rest => l :: stderr_lines rest
  | _ :: rest => stderr_lines rest
  end.

(** Concrete handles and worlds for the runs below. *)
Module Scenario.
#[local] Existing Instance Sample.refobj.
#[local] Existing Instance Sample.apr.
#[local] Existing Instance Sample.serializer.

(** The source text of a thread function, and the buffer the codec makes of
    it as the one argument of apr.thread. *)
Definition source : string := "return 1, 'two', true".

Definition source_buffer : string :=
  Eval vm_compute in
    match Sample.encode [LString source] with
    | Some s => s
    | None => EmptyString
    end.

(** A line that the codec does not read. *)
Definition garbled : string := String "?" (String Sample.newline EmptyString).

(** A handle whose input does not decode, and a handle that holds TS_DONE
    with an output that does not decode. *)
Definition garbled_input : lua_apr_thread_object := {|
  header := 1; pool := Some 1; handle := Some 3; attr := Some 2;
  input := Some garbled; output := None;
  path := Some "./?.lua"%string; cpath := Some "./?.so"%string;
  config := Some "/"%string;
  status := TS_INIT; joined := false
|}.

Definition garbled_output : lua_apr_thread_object := {|
  header := 1; pool := Some 1; handle := Some 3; attr := Some 2;
  input := Sample.encode [LString source]; output := Some garbled;
  path := Some "./?.lua"%string; cpath := Some "./?.so"%string;
  config := Some "/"%string;
  status := TS_DONE; joined := false
|}.

(** The world of the thread that calls apr.thread, with a [package] table of
    its own. *)
Definition parent_globals (name : string) : lua_value :=
  if String.eqb name "package" then
    LTable [("config", LString "/"); ("path", LString "/opt/?.lua");
            ("cpath", LString "/opt/?.so")]%string
  else LNil.

Definition parent_world : world := {|
  stack := []; globals := parent_globals; thread := Sample.spawned "";
  os := Sample.idle; trace := []
|}.
End Scenario.

(** * The LDAP module (src/ldap.c)

    A shallow embedding of the builder of modifications ([A_init] to
    [A_lastattr]) with the parts of [lua_apr_ldap_add] and
    [lua_apr_ldap_modify] that use it, of [op2code], of [set_attributes], of
    the part of [lua_apr_ldap_search] that gathers the names of the
    attributes, and of [lua_apr_ldap_url_parse] after the URL was parsed.

    The functions work on the Lua stack and on arrays of a fixed size.  They
    are written in an error monad over the stack and the [attrs_data] of the
    function that runs; a computation returns, leaves by a Lua error, or is
    undefined.  The LDAP library and the parser of URLs are outside src/:
    what they give is an argument of the function that reads it. *)

Module Ldap.
Local Open Scope Z_scope.

(** Lua values as the module meets them: a table is the sequence of its
    entries in the order in which [lua_next] visits them. *)
Inductive value : Type :=
| VNil
| VBoolean (b : bool)
| VNumber (n : Z)
| VString (s : string)
| VTable (entries : list (value * value))
| VOther (type_name : string).

(** What the interpreter decides for the module: whether a string converts
    to a number ([lua_isnumber] on a string), the length [lua_objlen] gives
    for a table (a border of it), and the slots of the frame of the C
    function that runs ([L->ci->top - L->base]).  Lua gives a C function
    room for its arguments and [LUA_MINSTACK] more values; src/ldap.c never
    calls [lua_checkstack], so the frame is the same for a whole call. *)
Class LuaCore : Type := {
  luaO_str2d : string -> bool;
  luaH_getn : list (value * value) -> nat;
  ci_top : Z
}.

Definition LUA_MINSTACK : Z := 20.

(** ** Operation codes *)

(** The constants of the LDAP C API (ldap.h). *)
Definition LDAP_MOD_ADD : Z := 0.
Definition LDAP_MOD_DELETE : Z := 1.
Definition LDAP_MOD_REPLACE : Z := 2.
Definition LDAP_MOD_BVALUES : Z := 128.

Definition LUA_APR_LDAP_MOD_ADD : Z := Z.lor LDAP_MOD_ADD LDAP_MOD_BVALUES.
Definition LUA_APR_LDAD_MOD_DEL : Z := Z.lor LDAP_MOD_DELETE LDAP_MOD_BVALUES.
Definition LUA_APR_LDAD_MOD_REP : Z := Z.lor LDAP_MOD_REPLACE LDAP_MOD_BVALUES.
Definition LUA_APR_LDAP_NOOP : Z := 0.

(** [op2code(s)]; [None] is the NULL pointer, and the empty string has the
    NUL byte as its first character. *)
Definition op2code (s : option string) : Z :=
  match s with
  | None => LUA_APR_LDAP_NOOP
  | Some EmptyString => LUA_APR_LDAP_NOOP
  | Some (String c _) =>
      if Ascii.eqb c "+"%char then LUA_APR_LDAP_MOD_ADD
      else if Ascii.eqb c "-"%char then LUA_APR_LDAD_MOD_DEL
      else if Ascii.eqb c "="%char then LUA_APR_LDAD_MOD_REP
      else LUA_APR_LDAP_NOOP
  end.

(** ** The attribute structure *)

Definition LUA_APR_LDAP_MAX_ATTRS : Z := 128.
Definition LUA_APR_LDAP_ARRAY_VALUES_SIZE : Z := 2 * LUA_APR_LDAP_MAX_ATTRS.
Definition LUA_APR_LDAP_MAX_VALUES : Z := LUA_APR_LDAP_ARRAY_VALUES_SIZE / 2.

Record BerValue : Type := {
  bv_len : Z;
  bv_val : option string
}.

(** A pointer into an array of the structure is the index of the element;
    [None] is NULL. *)
Record LDAPMod : Type := {
  mod_op : Z;
  mod_type : option string;
  mod_bvalues : option Z
}.

Record attrs_data : Type := {
  attrs : list (option Z);     (* LDAPMod *attrs[LUA_APR_LDAP_MAX_ATTRS + 1] *)
  mods : list LDAPMod;         (* LDAPMod mods[LUA_APR_LDAP_MAX_ATTRS] *)
  ai : Z;
  values : list (option Z);    (* BerValue *values[LUA_APR_LDAP_ARRAY_VALUES_SIZE] *)
  vi : Z;
  bvals : list BerValue;       (* BerValue bvals[LUA_APR_LDAP_MAX_VALUES] *)
  bi : Z
}.

(** The structure has the sizes its type gives it, whatever it holds. *)
Definition sized (a : attrs_data) : Prop :=
  Z.of_nat (List.length (attrs a)) = LUA_APR_LDAP_MAX_ATTRS + 1 /\
  Z.of_nat (List.length (mods a)) = LUA_APR_LDAP_MAX_ATTRS /\
  Z.of_nat (List.length (values a)) = LUA_APR_LDAP_ARRAY_VALUES_SIZE /\
  Z.of_nat (List.length (bvals a)) = LUA_APR_LDAP_MAX_VALUES.

(** ** The state and the monad *)

(** The structure of the function that runs and the Lua stack of its frame,
    bottom first. *)
Record state : Type := {
  data : attrs_data;
  stack : list value
}.

(** A function returns, or leaves by a Lua error with its message, or does
    something C or the Lua API does not define (a write outside an array, an
    index that is not on the stack, a push on a full frame). *)
Inductive outcome (A : Type) : Type :=
| Returns (a : A) (s : state)
| Raises (message : string)
| Undefined.
Arguments Returns {A} a s.
Arguments Raises {A} message.
Arguments Undefined {A}.

Definition L (A : Type) : Type := state -> outcome A.

Definition ret {A} (a : A) : L A := fun s => Returns a s.

Definition bind {A B} (m : L A) (k : A -> L B) : L B :=
  fun s =>
    match m s with
    | Returns a s' => k a s'
    | Raises message => Raises message
    | Undefined => Undefined
    end.

Definition undefined {A} : L A := fun _ => Undefined.

Definition get : L state := fun s => Returns s s.

Definition put_data (a : attrs_data) : L unit :=
  fun s => Returns tt {| data := a; stack := stack s |}.

Definition put_stack (st : list value) : L unit :=
  fun s => Returns tt {| data := data s; stack := st |}.

Declare Scope ldap_scope.
Delimit Scope ldap_scope with ldap.
Notation "x <- m ;; k" := (bind m (fun x => k))
  (at level 61, m at next level, right associativity) : ldap_scope.
Notation "m ;; k" := (bind m (fun _ => k))
  (at level 61, right associativity) : ldap_scope.
Local Open Scope ldap_scope.

(** ** Arrays *)

(** [arr[i] = x]: outside the array the write is undefined. *)
Definition store {A} (arr : list A) (i : Z) (x : A) : option (list A) :=
  if (0 <=? i) && (i <? Z.of_nat (List.length arr))
  then Some (update_nth (Z.to_nat i) x arr) else None.

Definition load {A} (arr : list A) (i : Z) : option A :=
  if (0 <=? i) && (i <? Z.of_nat (List.length arr))
  then nth_error arr (Z.to_nat i) else None.

Definition lift {A} (o : option A) : L A :=
  match o with
  | Some a => ret a
  | None => undefined
  end.

Definition set_ai (n : Z) : L unit :=
  s <- get ;; let a := data s in
  put_data {| attrs := attrs a; mods := mods a; ai := n; values := values a;
              vi := vi a; bvals := bvals a; bi := bi a |}.

Definition set_vi (n : Z) : L unit :=
  s <- get ;; let a := data s in
  put_data {| attrs := attrs a; mods := mods a; ai := ai a; values := values a;
              vi := n; bvals := bvals a; bi := bi a |}.

Definition set_bi (n : Z) : L unit :=
  s <- get ;; let a := data s in
  put_data {| attrs := attrs a; mods := mods a; ai := ai a; values := values a;
              vi := vi a; bvals := bvals a; bi := n |}.

(** [a->attrs[i] = p]. *)
Definition set_attr (i : Z) (p : option Z) : L unit :=
  s <- get ;; let a := data s in
  arr <- lift (store (attrs a) i p) ;;
  put_data {| attrs := arr; mods := mods a; ai := ai a; values := values a;
              vi := vi a; bvals := bvals a; bi := bi a |}.

(** [a->values[i] = p]. *)
Definition set_value (i : Z) (p : option Z) : L unit :=
  s <- get ;; let a := data s in
  arr <- lift (store (values a) i p) ;;
  put_data {| attrs := attrs a; mods := mods a; ai := ai a; values := arr;
              vi := vi a; bvals := bvals a; bi := bi a |}.

(** [a->mods[i] = f(a->mods[i])]: a write to one field of the element. *)
Definition set_mod (i : Z) (f : LDAPMod -> LDAPMod) : L unit :=
  s <- get ;; let a := data s in
  m <- lift (load (mods a) i) ;;
  arr <- lift (store (mods a) i (f m)) ;;
  put_data {| attrs := attrs a; mods := arr; ai := ai a; values := values a;
              vi := vi a; bvals := bvals a; bi := bi a |}.

Definition set_bval (i : Z) (f : BerValue -> BerValue) : L unit :=
  s <- get ;; let a := data s in
  b <- lift (load (bvals a) i) ;;
  arr <- lift (store (bvals a) i (f b)) ;;
  put_data {| attrs := attrs a; mods := mods a; ai := ai a; values := values a;
              vi := vi a; bvals := arr; bi := bi a |}.

(** ** The Lua API on the stack *)

(** The slot (from 0) of an index that is on the stack. *)
Definition slot (st : list value) (idx : Z) : option nat :=
  if (0 <? idx) && (idx <=? Z.of_nat (List.length st))
  then Some (Z.to_nat (idx - 1))
  else if (idx <? 0) && (- idx <=? Z.of_nat (List.length st))
  then Some (Z.to_nat (Z.of_nat (List.length st) + idx))
  else None.

Definition value_at (idx : Z) : L value :=
  s <- get ;;
  match slot (stack s) idx with
  | Some i => lift (nth_error (stack s) i)
  | None => undefined
  end.

Definition lua_gettop : L Z :=
  s <- get ;; ret (Z.of_nat (List.length (stack s))).

Section Interpreter.
Context `{LuaCore}.

(** A push ([api_incr_top]): the frame must have a free slot.  Lua tests
    [L->top < L->ci->top] only when it is built with its API checks; a push
    on a full frame writes past the slots the function was given, which the
    manual leaves undefined. *)
Definition lua_push (v : value) : L unit :=
  s <- get ;;
  if Z.of_nat (List.length (stack s)) <? ci_top
  then put_stack (stack s ++ [v])
  else undefined.

Definition lua_pushnil : L unit := lua_push VNil.

Definition lua_pop (n : Z) : L unit :=
  s <- get ;;
  if (0 <=? n) && (n <=? Z.of_nat (List.length (stack s)))
  then put_stack (firstn (List.length (stack s) - Z.to_nat n) (stack s))
  else undefined.

(** The value a type test sees at [idx]: an index above the top is
    acceptable and holds no value ([LUA_TNONE]). *)
Definition peek (idx : Z) : L (option value) :=
  s <- get ;;
  match slot (stack s) idx with
  | Some i => v <- lift (nth_error (stack s) i) ;; ret (Some v)
  | None => if 0 <? idx then ret None else undefined
  end.

Definition lua_isboolean (idx : Z) : L bool :=
  v <- peek idx ;; ret (match v with Some (VBoolean _) => true | _ => false end).

Definition lua_toboolean (idx : Z) : L Z :=
  v <- peek idx ;;
  ret (match v with None | Some VNil | Some (VBoolean false) => 0 | _ => 1 end).

Definition lua_isstring (idx : Z) : L bool :=
  v <- peek idx ;;
  ret (match v with Some (VString _) | Some (VNumber _) => true | _ => false end).

Definition lua_istable (idx : Z) : L bool :=
  v <- peek idx ;; ret (match v with Some (VTable _) => true | _ => false end).

Definition lua_newtable : L unit := lua_push (VTable []).

Definition lua_pushboolean (b : Z) : L unit := lua_push (VBoolean (negb (b =? 0))).

Definition lua_pushinteger (n : Z) : L unit := lua_push (VNumber n).

(** [lua_pushstring(L, s)]: nil for NULL. *)
Definition lua_pushstring (s : option string) : L unit :=
  lua_push (match s with Some str => VString (c_str str) | None => VNil end).

Definition lua_pushliteral (s : string) : L unit := lua_push (VString s).

(** [lua_pushlstring(L, s, len)]: the [len] bytes at [s]. *)
Definition lua_pushlstring (s : option string) (len : Z) : L unit :=
  match s with
  | Some str =>
      if (0 <=? len) && (len <=? Z.of_nat (String.length str))
      then lua_push (VString (substring 0 (Z.to_nat len) str))
      else undefined
  | None => undefined
  end.

(** Raw equality of keys. Tables and other objects are keys by identity,
    which a value of the model has not: they are the key of no entry. *)
Definition key_eqb (k1 k2 : value) : bool :=
  match k1, k2 with
  | VNumber a, VNumber b => a =? b
  | VString a, VString b => String.eqb a b
  | VBoolean a, VBoolean b => Bool.eqb a b
  | _, _ => false
  end.

(** The value a table holds for the key [k]. *)
Fixpoint table_get (entries : list (value * value)) (k : value) : value :=
  match entries with
  | [] => VNil
  | (k', v) :: rest => if key_eqb k' k then v else table_get rest k
  end.

(** [t[k] = v]: nil removes the entry of the key; a new key is entered last
    (where [lua_next] would meet a new key is not told by Lua, and nothing
    here depends on it). *)
Fixpoint table_set (entries : list (value * value)) (k v : value)
  : list (value * value) :=
  match entries with
  | [] => match v with VNil => [] | _ => [(k, v)] end
  | (k', v') :: rest =>
      if key_eqb k' k
      then match v with VNil => rest | _ => (k', v) :: rest end
      else (k', v') :: table_set rest k v
  end.

(** [t[k] = v] on the table at [idx]. *)
Definition table_put (idx : Z) (k v : value) : L unit :=
  s <- get ;;
  match slot (stack s) idx with
  | Some i =>
      match nth_error (stack s) i with
      | Some (VTable entries) =>
          put_stack (update_nth i (VTable (table_set entries k v)) (stack s))
      | _ => undefined
      end
  | None => undefined
  end.

(** [lua_setfield(L, idx, k)] and [lua_rawseti(L, idx, n)]: the value on
    top goes into the table and off the stack. *)
Definition lua_setfield (idx : Z) (k : string) : L unit :=
  v <- value_at (-1) ;; table_put idx (VString k) v ;; lua_pop 1.

Definition lua_rawseti (idx : Z) (n : Z) : L unit :=
  v <- value_at (-1) ;; table_put idx (VNumber n) v ;; lua_pop 1.

(** [lua_settable(L, idx)]: the key is below the value on top. *)
Definition lua_settable (idx : Z) : L unit :=
  k <- value_at (-2) ;;
  v <- value_at (-1) ;;
  match k with
  | VNil => fun _ => Raises "table index is nil"
  | _ => table_put idx k v ;; lua_pop 2
  end.

Definition lua_isnumber (idx : Z) : L bool :=
  v <- peek idx ;;
  ret (match v with
       | Some (VNumber _) => true
       | Some (VString s) => luaO_str2d s
       | _ => false
       end).

(** A number on the stack is converted to a string in place by
    [lua_tolstring] and by [lua_objlen]. *)
Definition tostring_in_place (idx : Z) : L unit :=
  s <- get ;;
  match slot (stack s) idx with
  | Some i =>
      match nth_error (stack s) i with
      | Some (VNumber n) =>
          put_stack (update_nth i (VString (lua_number2str n)) (stack s))
      | Some _ => ret tt
      | None => undefined
      end
  | None => undefined
  end.

(** [lua_strlen(L, idx)], that is [lua_objlen]. *)
Definition lua_strlen (idx : Z) : L Z :=
  tostring_in_place idx ;;
  v <- value_at idx ;;
  ret (match v with
       | VString s => Z.of_nat (String.length s)
       | VTable entries => Z.of_nat (luaH_getn entries)
       | _ => 0
       end).

(** [lua_tostring(L, idx)]: NULL unless the value is a string or a number. *)
Definition lua_tostring (idx : Z) : L (option string) :=
  tostring_in_place idx ;;
  v <- value_at idx ;;
  ret (match v with VString s => Some s | _ => None end).

(** The value a table holds for the integer key [n]. *)
Fixpoint table_geti (entries : list (value * value)) (n : Z) : value :=
  match entries with
  | [] => VNil
  | (VNumber k, v) :: rest => if k =? n then v else table_geti rest n
  | _ :: rest => table_geti rest n
  end.

(** [lua_rawgeti(L, idx, n)]. *)
Definition lua_rawgeti (idx : Z) (n : Z) : L unit :=
  t <- value_at idx ;;
  match t with
  | VTable entries => lua_push (table_geti entries n)
  | _ => undefined
  end.

Definition lua_typename (v : value) : string :=
  match v with
  | VNil => "nil"
  | VBoolean _ => "boolean"
  | VNumber _ => "number"
  | VString _ => "string"
  | VTable _ => "table"
  | VOther name => name
  end%string.

(** [luaL_error(L, message)]: leaves the function. *)
Definition luaL_error {A} (message : string) : L A := fun _ => Raises message.

(** ** The functions of src/ldap.c *)

(** [value_error(L, name)]. *)
Definition value_error {A} (name : option string) : L A :=
  v <- value_at (-1) ;;
  luaL_error ("invalid value of attribute `"
              ++ match name with Some n => c_str n | None => "(null)" end
              ++ "' (" ++ lua_typename v ++ ")")%string.

(** [A_init(attrs)]. *)
Definition A_init : L unit :=
  set_ai 0 ;;
  set_attr 0 None ;;
  set_vi 0 ;;
  set_value 0 None ;;
  set_bi 0.

(** [A_setbval(L, a, n)]: the address of the element of [bvals] is returned. *)
Definition A_setbval (n : option string) : L (option Z) :=
  s <- get ;;
  let ret_ := Some (bi (data s)) in
  if bi (data s) >=? LUA_APR_LDAP_MAX_VALUES then luaL_error "too many values"
  else
    isstr <- lua_isstring (-1) ;;
    if negb isstr then value_error n
    else
      len <- lua_strlen (-1) ;;
      set_bval (bi (data s))
        (fun b => {| bv_len := len; bv_val := bv_val b |}) ;;
      str <- lua_tostring (-1) ;;
      set_bval (bi (data s))
        (fun b => {| bv_len := bv_len b; bv_val := str |}) ;;
      set_bi (bi (data s) + 1) ;;
      ret ret_.

(** [A_setval(L, a, n)]. *)
Definition A_setval (n : option string) : L (option Z) :=
  s <- get ;;
  let ret_ := Some (vi (data s)) in
  if vi (data s) >=? LUA_APR_LDAP_ARRAY_VALUES_SIZE then luaL_error "too many values"
  else
    p <- A_setbval n ;;
    set_value (vi (data s)) p ;;
    set_vi (vi (data s) + 1) ;;
    ret ret_.

(** [A_nullval(L, a)]. *)
Definition A_nullval : L (option Z) :=
  s <- get ;;
  let ret_ := Some (vi (data s)) in
  if vi (data s) >=? LUA_APR_LDAP_ARRAY_VALUES_SIZE then luaL_error "too many values"
  else
    set_value (vi (data s)) None ;;
    set_vi (vi (data s) + 1) ;;
    ret ret_.

(** The loop of [A_tab2val] over the elements [i .. n] of the table at
    [tab]; [todo] is the number of rounds left. *)
Fixpoint A_tab2val_loop (todo : nat) (tab i : Z) (name : option string) : L unit :=
  match todo with
  | O => ret tt
  | S todo' =>
      lua_rawgeti tab i ;;
      A_setval name ;;
      A_tab2val_loop todo' tab (i + 1) name
  end.

(** [A_tab2val(L, a, name)]. *)
Definition A_tab2val (name : option string) : L (option Z) :=
  tab <- lua_gettop ;;
  s <- get ;;
  let ret_ := Some (vi (data s)) in
  isbool <- lua_isboolean tab ;;
  truth <- (if isbool then lua_toboolean tab else ret 0) ;;
  if isbool && (truth =? 1) then ret None
  else
    isstr <- lua_isstring tab ;;
    (if isstr then A_setval name ;; ret tt
     else
       istab <- lua_istable tab ;;
       if istab then
         n <- lua_strlen tab ;;
         A_tab2val_loop (Z.to_nat n) tab 1 name ;;
         lua_pop n
       else value_error name) ;;
    A_nullval ;;
    ret ret_.

(** [A_setmod(L, a, op, name)]. *)
Definition A_setmod (op : Z) (name : option string) : L unit :=
  s <- get ;;
  let i := ai (data s) in
  if i >=? LUA_APR_LDAP_MAX_ATTRS then luaL_error "too many attributes"
  else
    set_mod i (fun m => {| mod_op := op; mod_type := mod_type m;
                           mod_bvalues := mod_bvalues m |}) ;;
    set_mod i (fun m => {| mod_op := mod_op m; mod_type := name;
                           mod_bvalues := mod_bvalues m |}) ;;
    p <- A_tab2val name ;;
    set_mod i (fun m => {| mod_op := mod_op m; mod_type := mod_type m;
                           mod_bvalues := p |}) ;;
    set_attr i (Some i) ;;
    set_ai (i + 1).

(** The loop of [A_tab2mod]: [lua_next] replaces the key on top of the stack
    by the next entry of the table, or pops it and returns 0 when none is
    left. *)
Fixpoint A_tab2mod_loop (entries : list (value * value)) (op : Z) : L unit :=
  match entries with
  | [] => lua_pop 1
  | (k, v) :: rest =>
      lua_pop 1 ;; lua_push k ;; lua_push v ;;
      isnum <- lua_isnumber (-2) ;;
      isstr <- lua_isstring (-2) ;;
      (if negb isnum && isstr then
         name <- lua_tostring (-2) ;;
         A_setmod op name
       else ret tt) ;;
      lua_pop 1 ;;
      A_tab2mod_loop rest op
  end.

(** [A_tab2mod(L, a, tab, op)]. *)
Definition A_tab2mod (tab : Z) (op : Z) : L unit :=
  lua_pushnil ;;
  t <- value_at tab ;;
  match t with
  | VTable entries => A_tab2mod_loop entries op
  | _ => undefined
  end.

(** [A_lastattr(L, a)]. *)
Definition A_lastattr : L unit :=
  s <- get ;;
  if ai (data s) >=? LUA_APR_LDAP_MAX_ATTRS then luaL_error "too many attributes"
  else
    set_attr (ai (data s)) None ;;
    set_ai (ai (data s) + 1).

(** [lua_apr_ldap_add(L)] from [A_init] to [A_lastattr] (the connection and
    the name are read before, the request is sent after): the array it hands
    to [ldap_add_ext]. *)
Definition lua_apr_ldap_add : L unit :=
  A_init ;;
  istab <- lua_istable 3 ;;
  (if istab then A_tab2mod 3 LUA_APR_LDAP_MOD_ADD else ret tt) ;;
  A_lastattr.

(** The loop of [lua_apr_ldap_modify] from the argument [param] on. [fuel]
    bounds the rounds; the result tells whether the loop came to its end. *)
Fixpoint lua_apr_ldap_modify_loop (fuel : nat) (param : Z) : L bool :=
  match fuel with
  | O => ret false
  | S fuel' =>
      istab <- lua_istable param ;;
      if istab then
        lua_rawgeti param 1 ;;
        s <- lua_tostring (-1) ;;
        let op := op2code s in
        if op =? LUA_APR_LDAP_NOOP then
          luaL_error ("Forgotten operation on argument #"
                      ++ lua_number2str param ++ "!")%string
        else
          A_tab2mod param op ;;
          lua_apr_ldap_modify_loop fuel' (param + 1)
      else ret true
  end.

(** [lua_apr_ldap_modify(L)] from [A_init] to [A_lastattr]: the array it
    hands to [ldap_modify_ext]. *)
Definition lua_apr_ldap_modify (fuel : nat) : L bool :=
  A_init ;;
  finished <- lua_apr_ldap_modify_loop fuel 3 ;;
  if finished then A_lastattr ;; ret true else ret false.

(** ** Search results *)

(** The loop of [set_attributes] over the [n] values of an attribute. *)
Fixpoint set_attributes_values (todo : nat) (values : list BerValue) (i : Z) : L unit :=
  match todo with
  | O => ret tt
  | S todo' =>
      b <- lift (load values i) ;;
      lua_pushlstring (bv_val b) (bv_len b) ;;
      lua_rawseti (-2) (i + 1) ;;
      set_attributes_values todo' values (i + 1)
  end.

(** The value [set_attributes] pushes for an attribute; [values] is what
    [ldap_get_values_len] gave for it. *)
Definition set_attributes_value (values : list BerValue) : L unit :=
  let n := Z.of_nat (List.length values) in
  if n =? 0 then lua_pushboolean 1
  else if n =? 1 then
    b <- lift (load values 0) ;;
    lua_pushlstring (bv_val b) (bv_len b)
  else
    lua_newtable ;;
    set_attributes_values (Z.to_nat n) values 0.

(** [set_attributes(L, ld, entry, tab)]; [entry] is the sequence of the
    attributes of the entry with their values, as [ldap_first_attribute] and
    [ldap_next_attribute] give them. *)
Fixpoint set_attributes (entry : list (string * list BerValue)) (tab : Z) : L unit :=
  match entry with
  | [] => ret tt
  | (attr, values) :: rest =>
      set_attributes_value values ;;
      lua_setfield tab attr ;;
      set_attributes rest tab
  end.

(** ** Search requests *)

(** [lua_getfield(L, idx, k)] on a table that has no metatable. *)
Definition lua_getfield (idx : Z) (k : string) : L unit :=
  t <- value_at idx ;;
  match t with
  | VTable entries => lua_push (table_get entries (VString k))
  | _ => fun _ => Raises ("attempt to index a " ++ lua_typename t ++ " value")%string
  end.

(** [lua_newuserdata(L, size)]: the block is pushed; what it holds is the
    business of the caller. *)
Definition lua_newuserdata : L unit := lua_push (VOther "userdata").

(** The loop of [lua_apr_ldap_search] over the names of a table of
    attributes. *)
Fixpoint search_names (todo : nat) (i : Z) (attrs : list (option string))
  : L (list (option string)) :=
  match todo with
  | O => ret attrs
  | S todo' =>
      lua_rawgeti (-1) (i + 1) ;;
      s <- lua_tostring (-1) ;;
      attrs <- lift (store attrs i s) ;;
      lua_pop 1 ;;
      search_names todo' (i + 1) attrs
  end.

(** The part of [lua_apr_ldap_search] that gathers the names of the
    attributes to return, from [lua_getfield(L, 2, "attrs")] to the pop that
    follows the two branches: the array it hands to [ldap_search_ext].
    [block k] is the memory [lua_newuserdata] gives for [k] pointers. *)
Definition lua_apr_ldap_search_attrs (block : Z -> list (option string))
  : L (list (option string)) :=
  lua_getfield 2 "attrs" ;;
  istab <- lua_istable (-1) ;;
  n <- (if istab then lua_strlen (-1) else ret 1) ;;
  lua_newuserdata ;;
  let attrs := block (n + 1) in
  istab <- lua_istable (-1) ;;
  attrs <- (if negb istab then
              s <- lua_tostring (-1) ;;
              attrs <- lift (store attrs 0 s) ;;
              lift (store attrs 1 None)
            else
              attrs <- search_names (Z.to_nat n) 0 attrs ;;
              lift (store attrs n None)) ;;
  lua_pop 1 ;;
  ret attrs.

(** ** URLs *)

Definition LDAP_SCOPE_BASE : Z := 0.
Definition LDAP_SCOPE_ONELEVEL : Z := 1.

(** The description [apr_ldap_url_parse_ext] fills in; the arrays of
    attributes and extensions end with NULL. *)
Record apr_ldap_url_desc_t : Type := {
  lud_scheme : option string;
  lud_host : option string;
  lud_port : Z;
  lud_dn : option string;
  lud_attrs : option (list (option string));
  lud_scope : Z;
  lud_filter : option string;
  lud_exts : option (list (option string));
  lud_crit_exts : Z
}.

(** [while ((attr = list[i++]) != NULL) { ... }] of [lua_apr_ldap_url_parse];
    [cells] is the array from its element [i] on, and reading past its end is
    undefined. *)
Fixpoint url_strings (cells : list (option string)) (i : Z) : L unit :=
  match cells with
  | [] => undefined
  | None :: _ => ret tt
  | Some attr :: rest =>
      let i := i + 1 in
      lua_pushinteger (i + 1) ;;
      lua_pushstring (Some attr) ;;
      lua_settable (-3) ;;
      url_strings rest i
  end.

(** [lua_apr_ldap_url_parse(L)] once [apr_ldap_url_parse_ext] has filled in
    the description [ludpp] with success: the table it returns. *)
Definition lua_apr_ldap_url_parse (ludpp : apr_ldap_url_desc_t) : L Z :=
  lua_newtable ;;
  lua_pushstring (lud_scheme ludpp) ;;
  lua_setfield (-2) "scheme" ;;
  lua_pushstring (lud_host ludpp) ;;
  lua_setfield (-2) "host" ;;
  lua_pushinteger (lud_port ludpp) ;;
  lua_setfield (-2) "port" ;;
  (if lud_scope ludpp =? LDAP_SCOPE_BASE then lua_pushliteral "base"
   else if lud_scope ludpp =? LDAP_SCOPE_ONELEVEL then lua_pushliteral "one"
   else lua_pushliteral "sub") ;;
  lua_setfield (-2) "scope" ;;
  lua_pushstring (lud_filter ludpp) ;;
  lua_setfield (-2) "filter" ;;
  lua_pushstring (lud_dn ludpp) ;;
  lua_setfield (-2) "dn" ;;
  lua_pushinteger (lud_crit_exts ludpp) ;;
  lua_setfield (-2) "crit_exts" ;;
  (match lud_attrs ludpp with
   | Some cells =>
       lua_newtable ;;
       url_strings cells 0 ;;
       lua_setfield (-2) "attrs"
   | None => ret tt
   end) ;;
  (match lud_exts ludpp with
   | Some cells =>
       lua_newtable ;;
       url_strings cells 0 ;;
       lua_setfield (-2) "exts"
   | None => ret tt
   end) ;;
  ret 1.
End Interpreter.

(** ** The vocabulary of the statements about the module *)

(** The outcome [o] is a return that satisfies [Q], or a Lua error whose
    message satisfies [E]: it is not undefined. *)
Definition ensures {A} (o : outcome A) (Q : A -> state -> Prop) (E : string -> Prop)
  : Prop :=
  match o with
  | Returns a s => Q a s
  | Raises message => E message
  | Undefined => False
  end.

(** What [lua_tostring] gives for a value: a string, or a number written as
    a string. *)
Definition as_string (v : value) : option string :=
  match v with
  | VString s => Some s
  | VNumber n => Some (lua_number2str n)
  | _ => None
  end.

(** The value on the stack once [lua_tostring] or [lua_strlen] has read it:
    a number has become its string. *)
Definition converted (v : value) : value :=
  match v with
  | VNumber n => VString (lua_number2str n)
  | _ => v
  end.

(** The [BerValue] of a Lua string: its bytes and their number. *)
Definition ber (s : string) : BerValue :=
  {| bv_len := Z.of_nat (String.length s); bv_val := Some s |}.

(** The structure has its sizes and its three counters are within the
    arrays they count. *)
Definition bounded (a : attrs_data) : Prop :=
  sized a /\
  0 <= ai a <= LUA_APR_LDAP_MAX_ATTRS /\
  0 <= vi a <= LUA_APR_LDAP_ARRAY_VALUES_SIZE /\
  0 <= bi a <= LUA_APR_LDAP_MAX_VALUES.

(** The structure with the string [str] in the next element of [bvals]. *)
Definition push_bval (a : attrs_data) (str : string) : attrs_data :=
  {| attrs := attrs a; mods := mods a; ai := ai a; values := values a; vi := vi a;
     bvals := update_nth (Z.to_nat (bi a)) (ber str) (bvals a); bi := bi a + 1 |}.

(** The structure with the pointer [p] in the next cell of [values]. *)
Definition push_value (a : attrs_data) (p : option Z) : attrs_data :=
  {| attrs := attrs a; mods := mods a; ai := ai a;
     values := update_nth (Z.to_nat (vi a)) p (values a); vi := vi a + 1;
     bvals := bvals a; bi := bi a |}.

(** The structure with one more value: the string in [bvals] and the
    pointer to it in [values]. *)
Definition push_string (a : attrs_data) (str : string) : attrs_data :=
  push_value (push_bval a str) (Some (bi a)).

(** The message of [value_error] for the attribute [name] and the value [v]
    on top of the stack. *)
Definition value_error_message (name : option string) (v : value) : string :=
  ("invalid value of attribute `"
   ++ match name with Some n => c_str n | None => "(null)" end
   ++ "' (" ++ lua_typename v ++ ")")%string.

(** The elements [i], [i + 1], ... of a table, [todo] of them, as
    [lua_rawgeti] gives them. *)
Fixpoint elements (entries : list (value * value)) (i : Z) (todo : nat) : list value :=
  match todo with
  | O => []
  | S todo' => table_geti entries i :: elements entries (i + 1) todo'
  end.

(** The strings of a list of values, when all of them are strings or
    numbers. *)
Fixpoint all_strings (vs : list value) : option (list string) :=
  match vs with
  | [] => Some []
  | v :: rest =>
      match as_string v, all_strings rest with
      | Some s, Some l => Some (s :: l)
      | _, _ => None
      end
  end.

(** The structure with the strings [strs] as further values. *)
Fixpoint push_strings (a : attrs_data) (strs : list string) : attrs_data :=
  match strs with
  | [] => a
  | s :: rest => push_strings (push_string a s) rest
  end.

Section Wanted.
Context `{LuaCore}.

(** The values an attribute is given by the Lua value [v]: none for [true],
    one for a string or a number, the elements for a table of them. *)
Definition wanted_values (v : value) : option (option (list string)) :=
  match v with
  | VBoolean true => Some None
  | VString s => Some (Some [s])
  | VNumber n => Some (Some [lua_number2str n])
  | VTable entries =>
      option_map Some (all_strings (elements entries 1 (luaH_getn entries)))
  | _ => None
  end.

(** The values [A_tab2val] pushes on the stack for the value [v]: the
    elements of a list, all of them before it pops them. *)
Definition pushed_for (v : value) : Z :=
  match v with
  | VTable entries => Z.of_nat (luaH_getn entries)
  | _ => 0
  end.

(** The values stored for [vals], and the pointer to them. *)
Definition add_values (a : attrs_data) (vals : option (list string)) : attrs_data :=
  match vals with
  | None => a
  | Some strs => push_value (push_strings a strs) None
  end.

(** The pointer [A_tab2val] returns for them: NULL for no values, else the
    cell of [values] that was free. *)
Definition values_pointer (a : attrs_data) (vals : option (list string)) : option Z :=
  match vals with
  | None => None
  | Some _ => Some (vi a)
  end.
End Wanted.

(** The structure with the modification [m] as its next attribute. *)
Definition push_attr (a : attrs_data) (m : LDAPMod) : attrs_data :=
  {| attrs := update_nth (Z.to_nat (ai a)) (Some (ai a)) (attrs a);
     mods := update_nth (Z.to_nat (ai a)) m (mods a);
     ai := ai a + 1;
     values := values a; vi := vi a; bvals := bvals a; bi := bi a |}.

(** The structure with the array of attributes closed by NULL. *)
Definition push_last (a : attrs_data) : attrs_data :=
  {| attrs := update_nth (Z.to_nat (ai a)) None (attrs a);
     mods := mods a; ai := ai a + 1;
     values := values a; vi := vi a; bvals := bvals a; bi := bi a |}.

(** The structure after [A_init]: the counters are 0, the first cells of
    [attrs] and [values] NULL, all else is what it was. *)
Definition init (a : attrs_data) : attrs_data :=
  {| attrs := update_nth 0 None (attrs a); mods := mods a; ai := 0;
     values := update_nth 0 None (values a); vi := 0;
     bvals := bvals a; bi := 0 |}.

Section WantedMods.
Context `{LuaCore}.

(** The structure with one more attribute: its values, then its
    modification. *)
Definition add_mod (a : attrs_data) (op : Z) (name : option string)
  (vals : option (list string)) : attrs_data :=
  push_attr (add_values a vals)
    {| mod_op := op; mod_type := name; mod_bvalues := values_pointer a vals |}.

(** The name of the attribute an entry of the table stands for: its key,
    when that is a string that does not convert to a number. *)
Definition attribute_name (k : value) : option string :=
  match k with
  | VString s => if luaO_str2d s then None else Some s
  | _ => None
  end.

(** The attributes a table asks for, in the order of the table, each with
    its values; none when a value of an attribute is not one [A_tab2val]
    takes. *)
Fixpoint wanted_mods (entries : list (value * value))
  : option (list (string * option (list string))) :=
  match entries with
  | [] => Some []
  | (k, v) :: rest =>
      match attribute_name k with
      | Some name =>
          match wanted_values v, wanted_mods rest with
          | Some vals, Some ms => Some ((name, vals) :: ms)
          | _, _ => None
          end
      | None => wanted_mods rest
      end
  end.

(** The slots a table takes above the stack while [A_tab2mod] goes through
    it: the key and the value of an entry and, for an attribute, the
    elements of its list. *)
Fixpoint slots_for (entries : list (value * value)) : Z :=
  match entries with
  | [] => 1
  | (k, v) :: rest =>
      Z.max (2 + match attribute_name k with
                 | Some _ => pushed_for v
                 | None => 0
                 end)
            (slots_for rest)
  end.

(** The structure with the attributes [ms], one after the other, each with
    the operation [op]. *)
Fixpoint build (a : attrs_data) (op : Z) (ms : list (string * option (list string)))
  : attrs_data :=
  match ms with
  | [] => a
  | (name, vals) :: rest => build (add_mod a op (Some name) vals) op rest
  end.
End WantedMods.

(** The messages of the errors the builder raises. *)
Definition builder_error (m : string) : Prop :=
  m = "too many attributes"%string \/ m = "too many values"%string \/
  exists name v, m = value_error_message name v.

(** The structure with [ms] for its array [mods]. *)
Definition with_mods (a : attrs_data) (ms : list LDAPMod) : attrs_data :=
  {| attrs := attrs a; mods := ms; ai := ai a; values := values a; vi := vi a;
     bvals := bvals a; bi := bi a |}.

(** The elements of [bvals] and the cells of [values] the values of one
    attribute take (a NULL ends them). *)
Definition value_count (vals : option (list string)) : Z :=
  match vals with
  | Some strs => Z.of_nat (List.length strs)
  | None => 0
  end.

Definition cell_count (vals : option (list string)) : Z :=
  match vals with
  | Some strs => Z.of_nat (List.length strs) + 1
  | None => 0
  end.

(** The same for a list of attributes. *)
Fixpoint total_values {K} (ms : list (K * option (list string))) : Z :=
  match ms with
  | [] => 0
  | (_, vals) :: rest => value_count vals + total_values rest
  end.

Fixpoint total_cells {K} (ms : list (K * option (list string))) : Z :=
  match ms with
  | [] => 0
  | (_, vals) :: rest => cell_count vals + total_cells rest
  end.

(** The attributes [ms] and the terminators of their values have room in
    what is left of the arrays of [a]. *)
Definition fits {K} (a : attrs_data) (ms : list (K * option (list string))) : Prop :=
  ai a + Z.of_nat (List.length ms) <= LUA_APR_LDAP_MAX_ATTRS /\
  vi a + total_cells ms <= LUA_APR_LDAP_ARRAY_VALUES_SIZE /\
  bi a + total_values ms <= LUA_APR_LDAP_MAX_VALUES.

(** What the LDAP library reads from the structure: an array of pointers is
    read from an index on up to its first NULL. *)
Fixpoint read_from (cells : list (option Z)) (i : nat) (fuel : nat) : list Z :=
  match fuel with
  | O => []
  | S fuel' =>
      match nth_error cells i with
      | Some (Some p) => p :: read_from cells (S i) fuel'
      | _ => []
      end
  end.

(** The pointers of an array from its cell [i] up to the first NULL. *)
Definition read_cells (cells : list (option Z)) (i : Z) : list Z :=
  read_from cells (Z.to_nat i) (List.length cells).

(** The values the pointer [p] into [values] leads to. *)
Definition read_values (a : attrs_data) (p : Z) : list BerValue :=
  map (fun b => nth (Z.to_nat b) (bvals a) {| bv_len := 0; bv_val := None |})
    (read_cells (values a) p).

(** The modification [j] of [mods]: its operation, its name and its values
    (none when [mod_bvalues] is NULL). *)
Definition read_mod (a : attrs_data) (j : Z)
  : Z * option string * option (list BerValue) :=
  let m := nth (Z.to_nat j) (mods a)
             {| mod_op := 0; mod_type := None; mod_bvalues := None |} in
  (mod_op m, mod_type m, option_map (read_values a) (mod_bvalues m)).

(** The modifications of the request: those [attrs] points to, up to its
    first NULL. *)
Definition read_mods (a : attrs_data) : list (Z * option string * option (list BerValue)) :=
  map (read_mod a) (read_cells (attrs a) 0).

(** The entries [ms] of one table, each with the operation [op] of the
    table. *)
Definition tagged (op : Z) (ms : list (string * option (list string)))
  : list (Z * string * option (list string)) :=
  map (fun m => (op, fst m, snd m)) ms.

(** The modifications the items ask for. *)
Definition asked (items : list (Z * string * option (list string)))
  : list (Z * option string * option (list BerValue)) :=
  map (fun it => (fst (fst it), Some (snd (fst it)), option_map (map ber) (snd it))) items.

(** The strings [strs] are stored from the cell [p] of [vs] on, each cell
    pointing to a used element of [bs], with a NULL after the last. *)
Fixpoint stored (vs : list (option Z)) (bs : list BerValue) (n : Z) (p : Z)
  (strs : list string) : Prop :=
  match strs with
  | [] => nth_error vs (Z.to_nat p) = Some None
  | str :: rest =>
      (exists b, nth_error vs (Z.to_nat p) = Some (Some b) /\ 0 <= b < n /\
                 nth_error bs (Z.to_nat b) = Some (ber str)) /\
      stored vs bs n (p + 1) rest
  end.

(** The cells below the counters of [a] are the same in [a']. *)
Definition agree (a a' : attrs_data) : Prop :=
  (forall i, 0 <= i < vi a ->
     nth_error (values a') (Z.to_nat i) = nth_error (values a) (Z.to_nat i)) /\
  (forall i, 0 <= i < bi a ->
     nth_error (bvals a') (Z.to_nat i) = nth_error (bvals a) (Z.to_nat i)) /\
  vi a <= vi a' /\ bi a <= bi a'.

(** The first [ai] elements of [attrs] and [mods] hold the items, in order. *)
Definition holds (a : attrs_data) (items : list (Z * string * option (list string)))
  : Prop :=
  ai a = Z.of_nat (List.length items) /\
  forall j op name vals,
    nth_error items j = Some (op, name, vals) ->
    nth_error (attrs a) j = Some (Some (Z.of_nat j)) /\
    exists m, nth_error (mods a) j = Some m /\
      mod_op m = op /\ mod_type m = Some name /\
      match vals with
      | None => mod_bvalues m = None
      | Some strs =>
          exists p, mod_bvalues m = Some p /\ 0 <= p /\
                    p + Z.of_nat (List.length strs) < vi a /\
                    stored (values a) (bvals a) (bi a) p strs
      end.

Section AddEntries.
Context `{LuaCore}.

(** The attributes the third argument of [add] asks for: none unless it is
    a table. *)
Definition add_entries (st : list value) : option (list (string * option (list string))) :=
  match nth_error st 2 with
  | Some (VTable entries) => wanted_mods entries
  | _ => Some []
  end.

(** The frame has room for what [add] pushes: the slots the table that is
    its third argument takes above the arguments. *)
Definition add_room (st : list value) : Prop :=
  match nth_error st 2 with
  | Some (VTable entries) => Z.of_nat (List.length st) + slots_for entries <= ci_top
  | _ => True
  end.

End AddEntries.

(** The attributes [ms] are within what one request can hold. *)
Definition within_limits (ms : list (string * option (list string))) : Prop :=
  Z.of_nat (List.length ms) < LUA_APR_LDAP_MAX_ATTRS /\
  total_values ms <= LUA_APR_LDAP_MAX_VALUES.

(** The operation a table of modifications asks for, and what its first
    element is on the stack once it has been read as a string. *)
Definition table_op (entries : list (value * value)) : Z :=
  op2code (as_string (table_geti entries 1)).

Definition op_value (entries : list (value * value)) : value :=
  converted (table_geti entries 1).

(** The tables a list of arguments starts with. *)
Fixpoint leading_tables (st : list value) : list (list (value * value)) :=
  match st with
  | VTable entries :: rest => entries :: leading_tables rest
  | _ => []
  end.

(** The tables of modifications [modify] goes through from [param] on. *)
Definition modify_tables (st : list value) (param : Z) : list (list (value * value)) :=
  leading_tables (skipn (Z.to_nat (param - 1)) st).

(** The message for a table at the argument [param] that names no
    operation. *)
Definition forgotten (param : Z) : string :=
  ("Forgotten operation on argument #" ++ lua_number2str param ++ "!")%string.

Section ModifyItems.
Context `{LuaCore}.

(** The slots the tables of [modify] take above the stack: the first element
    of each table stays on it, and each table takes its own on top. *)
Fixpoint modify_slots (tables : list (list (value * value))) : Z :=
  match tables with
  | [] => 0
  | entries :: rest => Z.max (1 + slots_for entries) (1 + modify_slots rest)
  end.

(** The modifications the tables ask for, one table after the other. *)
Fixpoint modify_items (tables : list (list (value * value)))
  : option (list (Z * string * option (list string))) :=
  match tables with
  | [] => Some []
  | entries :: rest =>
      match wanted_mods entries, modify_items rest with
      | Some ms, Some items => Some (tagged (table_op entries) ms ++ items)
      | _, _ => None
      end
  end.
End ModifyItems.


Section Names.
Context `{LuaCore}.

(** The keys of a table that name an attribute, in the order of the table. *)
Fixpoint named_keys (entries : list (value * value)) : list string :=
  match entries with
  | [] => []
  | (k, _) :: rest =>
      match attribute_name k with
      | Some name => name :: named_keys rest
      | None => named_keys rest
      end
  end.
End Names.

(** The names of the attributes of a request. *)
Definition sent_names (a : attrs_data) : list (option string) :=
  map (fun m => snd (fst m)) (read_mods a).

(** The table with the strings [strs] under the keys [i], [i + 1], ... *)
Fixpoint numbered (i : Z) (strs : list string) : list (value * value) :=
  match strs with
  | [] => []
  | s :: rest => (VNumber i, VString s) :: numbered (i + 1) rest
  end.

(** The value a search gives an attribute with the values [strs]. *)
Definition search_value (strs : list string) : value :=
  match strs with
  | [] => VBoolean true
  | [s] => VString s
  | _ => VTable (numbered 1 strs)
  end.

(** The slots the value takes on the stack while [set_attributes] builds
    it: the list and, on top of it, the string on its way into it. *)
Definition value_slots (strs : list string) : Z :=
  match strs with
  | [] => 1
  | [_] => 1
  | _ => 2
  end.

(** The values a request gets from it. *)
Definition returned_values (strs : list string) : option (list string) :=
  match strs with
  | [] => None
  | _ => Some strs
  end.

(** The field [k] of the table [t]. *)
Definition field (t : list (value * value)) (k : string) : value :=
  table_get t (VString k).

(** The table [t] once a search has entered the attributes of [entry]. *)
Fixpoint fill (t : list (value * value)) (entry : list (string * list string))
  : list (value * value) :=
  match entry with
  | [] => t
  | (attr, strs) :: rest => fill (table_set t (VString attr) (search_value strs)) rest
  end.

(** The attributes and values as the library gives them. *)
Definition as_bervalues (entry : list (string * list string))
  : list (string * list BerValue) :=
  map (fun e => (fst e, map ber (snd e))) entry.

(** [n] is a border of the table: what Lua asks of the length it gives. *)
Definition border (entries : list (value * value)) (n : nat) : Prop :=
  table_geti entries (Z.of_nat n + 1) = VNil /\
  (n = 0%nat \/ table_geti entries (Z.of_nat n) <> VNil).

(** The strings of a NULL-terminated array; none when the NULL is missing. *)
Fixpoint strings_of (cells : list (option string)) : option (list string) :=
  match cells with
  | [] => None
  | None :: _ => Some []
  | Some s :: rest => option_map (cons s) (strings_of rest)
  end.

Definition terminated (cells : option (list (option string))) : Prop :=
  match cells with
  | Some l => strings_of l <> None
  | None => True
  end.

(** The table [t] holds the strings [names] under the keys 2, 3, ... and
    nothing under any other integer. *)
Definition from_two (t : value) (names : list string) : Prop :=
  exists entries, t = VTable entries /\
    forall j, table_geti entries j =
      if (2 <=? j) && (j <? 2 + Z.of_nat (List.length names))
      then VString (c_str (nth (Z.to_nat (j - 2)) names EmptyString))
      else VNil.

Section Counted.
Context `{LuaCore}.

(** The number of names [lua_apr_ldap_search] counts for the value of the
    option attrs: the length of a table, 1 for anything else. *)
Definition counted (v : value) : Z :=
  match v with
  | VTable entries => Z.of_nat (luaH_getn entries)
  | _ => 1
  end.
End Counted.

(** The option [k] of a search: the field of the table that is the second
    argument. *)
Definition search_option (st : list value) (k : string) : value :=
  match nth_error st 1 with
  | Some (VTable options) => table_get options (VString k)
  | _ => VNil
  end.



End Ldap.

(** * A sample interpreter and sample calls for the LDAP module *)
Module LdapSample.
Import Ldap.
Local Open Scope Z_scope.

Definition is_digit (c : ascii) : bool :=
  let n := nat_of_ascii c in (48 <=? n)%nat && (n <=? 57)%nat.

Fixpoint all_digits (s : string) : bool :=
  match s with
  | EmptyString => true
  | String c rest => is_digit c && all_digits rest
  end.

(** The length of the run of keys 1, 2, ... of the table. *)
Fixpoint run_from (entries : list (value * value)) (i : Z) (fuel : nat) : nat :=
  match fuel with
  | O => O
  | S fuel' =>
      match table_geti entries i with
      | VNil => O
      | _ => S (run_from entries (i + 1) fuel')
      end
  end.

(** Strings of digits convert to numbers; the length of a table is the end
    of the run of its keys from 1; the frame has the slots Lua gives a C
    function with its arguments. *)
Definition core : LuaCore := {|
  luaO_str2d := fun s => negb (String.eqb s EmptyString) && all_digits s;
  luaH_getn := fun entries => run_from entries 1 (List.length entries);
  ci_top := LUA_MINSTACK
|}.

(** A structure as the C stack may hold it before [A_init]. *)
Definition stale : attrs_data := {|
  attrs := repeat (Some 5) 129;
  mods := repeat {| mod_op := 7; mod_type := Some "old"%string; mod_bvalues := Some 3 |} 128;
  ai := 77;
  values := repeat (Some 9) 256;
  vi := 200;
  bvals := repeat {| bv_len := 4; bv_val := Some "junk"%string |} 128;
  bi := -1
|}.

(** The same, once initialised with nothing stored. *)
Definition fresh : attrs_data := {|
  attrs := repeat None 129;
  mods := repeat {| mod_op := 0; mod_type := None; mod_bvalues := None |} 128;
  ai := 0;
  values := repeat None 256;
  vi := 0;
  bvals := repeat {| bv_len := 0; bv_val := None |} 128;
  bi := 0
|}.

Definition person : list (value * value) :=
  [ (VString "cn", VString "Ada");
    (VNumber 1, VString "ignored");
    (VString "mail", VTable [(VNumber 1, VString "ada@example.org");
                             (VNumber 2, VString "ada@example.com")]);
    (VString "objectClass", VBoolean true);
    (VString "10", VString "ignored too") ]%string.

(** [conn:add("cn=Ada,dc=example", person)]. *)
Definition add_call : list value :=
  [VOther "userdata"; VString "cn=Ada,dc=example"; VTable person]%string.

(** [conn:add("cn=Ada,dc=example")]. *)
Definition bare_call : list value :=
  [VOther "userdata"; VString "cn=Ada,dc=example"]%string.

Definition more_mail : list (value * value) :=
  [ (VNumber 1, VString "+"); (VString "mail", VString "ada@example.net") ]%string.

Definition no_phone : list (value * value) :=
  [ (VNumber 1, VString "-"); (VString "phone", VBoolean true) ]%string.

Definition no_operation : list (value * value) :=
  [ (VString "cn", VString "Ada L.") ]%string.


(** [conn:modify(dn, more_mail, no_operation, no_phone)]. *)
Definition forgetful_call : list value :=
  [VOther "userdata"; VString "cn=Ada,dc=example"; VTable more_mail;
   VTable no_operation; VTable no_phone]%string.

(** [ldap://example.org/dc=example?cn,mail?sub]. *)
Definition url : apr_ldap_url_desc_t := {|
  lud_scheme := Some "ldap"%string;
  lud_host := Some "example.org"%string;
  lud_port := 389;
  lud_dn := Some "dc=example"%string;
  lud_attrs := Some [Some "cn"; Some "mail"; None]%string;
  lud_scope := 2;
  lud_filter := None;
  lud_exts := None;
  lud_crit_exts := 0
|}.

(** [conn:search { base = "dc=example", attrs = { "cn", "mail" } }] when the
    names are gathered: the connection, the options and the block of the
    timeout are on the stack. *)
Definition search_call : list value :=
  [VOther "userdata";
   VTable [(VString "base", VString "dc=example");
           (VString "attrs", VTable [(VNumber 1, VString "cn");
                                     (VNumber 2, VString "mail")])];
   VOther "userdata"]%string.

(** [conn:search { base = "dc=example", attrs = {} }]. *)
Definition search_all_call : list value :=
  [VOther "userdata";
   VTable [(VString "base", VString "dc=example"); (VString "attrs", VTable [])];
   VOther "userdata"]%string.

(** Sixteen addresses, and [conn:add("cn=Ada,dc=example", { mail = addresses })]. *)
Definition addresses : list (value * value) :=
  numbered 1 (repeat "ada@example.org"%string 16).

Definition mailing_call : list value :=
  [VOther "userdata"; VString "cn=Ada,dc=example";
   VTable [(VString "mail", VTable addresses)]]%string.

(** Memory that is not cleared. *)
Definition dirty (k : Z) : list (option string) :=
  repeat (Some "left over"%string) (Z.to_nat k).
End LdapSample.
(** * Properties *)

(** Symbolic execution: the definitions of the model are unfolded, the
    protected call apart (it is rewritten with its lemmas), and the list and
    string functions are computed. *)
Ltac unfold_model :=
  cbv beta iota zeta delta
    [bind ret raise get_world emit set_stack set_thread set_os
     lua_gettop lua_settop lua_pop lua_push lua_pushstring lua_pushboolean
     lua_pushinteger lua_pushvalue lua_isstring lua_istable lua_isfunction
     lua_tostring lua_getglobal lua_getfield lua_setfield lua_replace
     strdup set_status set_output set_joined set_header
     set_pool set_attr set_handle set_input set_config set_path set_cpath
     lua_apr_serialize lua_apr_unserialize push_error_status
     lua_tolstring lua_call1 error_handler invoke in_frame run_handler
     luaL_loadbuffer luaL_newstate luaL_openlibs lua_pushcfunction lua_close
     apr_thread_exit check_thread new_object
     thread_destroy lua_apr_thread_fail].

Ltac run_model :=
  unfold_model; cbn -[Z.of_nat Z.sub Z.to_nat c_str lua_pcall returned].

(** ** Stack arithmetic and the protected call *)

Section Frames.
Context `{RefObj} `{Apr} `{Interp} `{Serializer}.

Lemma returned_top (x : lua_value) (rest : list lua_value) :
  returned (Z.of_nat (S (List.length rest)) - 1) (x :: rest) = rest.
Proof.
  unfold returned.
  replace (Z.to_nat (Z.of_nat (S (List.length rest)) - 1)) with (List.length rest) by lia.
  cbn [List.length].
  replace (S (List.length rest) - List.length rest) with 1 by lia.
  reflexivity.
Qed.

Lemma returned_two (a b : lua_value) (st : list lua_value) :
  returned 2 (st ++ [a; b]) = [a; b].
Proof.
  unfold returned. rewrite length_app. cbn [List.length].
  replace (List.length st + 2 - Z.to_nat 2) with (List.length st + 0) by lia.
  rewrite skipn_app, Nat.add_0_r, skipn_all.
  replace (List.length st - List.length st) with 0 by lia.
  reflexivity.
Qed.

Lemma returned_one (a : lua_value) (st : list lua_value) :
  returned 1 (st ++ [a]) = [a].
Proof.
  unfold returned. rewrite length_app. cbn [List.length].
  replace (List.length st + 1 - Z.to_nat 1) with (List.length st + 0) by lia.
  rewrite skipn_app, Nat.add_0_r, skipn_all.
  replace (List.length st - List.length st) with 0 by lia.
  reflexivity.
Qed.

Lemma returned_none (st : list lua_value) : returned 0 st = [].
Proof.
  unfold returned. change (Z.to_nat 0) with 0. rewrite Nat.sub_0_r.
  apply skipn_all.
Qed.

Lemma pcall_status_nonzero g e : (pcall_status g e =? 0)%Z = false.
Proof. unfold pcall_status. destruct (handled_error g e); reflexivity. Qed.

Lemma run_error_handler e st g t o tr :
  run_handler (LCFunction "error_handler") e
    {| stack := st; globals := g; thread := t; os := o; trace := tr |} =
  (Ok (handled_error g e),
   {| stack := st; globals := g; thread := t; os := o; trace := tr |}).
Proof.
  unfold handled_error. run_model.
  destruct e; cbn; try reflexivity;
    (destruct (g "debug"%string) as [| | | |fields| | |]; cbn; try reflexivity;
     destruct (table_get fields "traceback") eqn:Etb; cbn; try reflexivity;
     match goal with
     | |- context [call_value ?f ?a] => destruct (call_value f a); reflexivity
     end).
Qed.

Lemma lua_pcall_ok h f args results g t o tr :
  call_value f args = inl results ->
  lua_pcall (Z.of_nat (S (S (List.length args))) - 2) 1
    {| stack := h :: f :: args; globals := g; thread := t; os := o; trace := tr |} =
  (Ok 0%Z, {| stack := h :: results; globals := g; thread := t; os := o;
              trace := tr ++ [EvPcall true] |}).
Proof.
  intros Hc. unfold lua_pcall, bind, get_world. cbn [stack List.length].
  replace ((Z.of_nat (S (S (List.length args))) - 2 <? 0)%Z) with false
    by (symmetry; apply Z.ltb_ge; lia).
  replace ((Z.of_nat (S (S (List.length args)))
            <? Z.of_nat (S (S (List.length args))) - 2 + 1)%Z) with false
    by (symmetry; apply Z.ltb_ge; lia).
  cbn [orb].
  replace (S (S (List.length args))
           - Z.to_nat (Z.of_nat (S (S (List.length args))) - 2) - 1) with 1 by lia.
  cbn [nth skipn firstn app]. rewrite Hc. reflexivity.
Qed.

Lemma lua_pcall_error f args e g t o tr :
  call_value f args = inr e ->
  lua_pcall (Z.of_nat (S (S (List.length args))) - 2) 1
    {| stack := LCFunction "error_handler" :: f :: args; globals := g; thread := t;
       os := o; trace := tr |} =
  (Ok (pcall_status g e),
   {| stack := [LCFunction "error_handler"; pcall_message g e]; globals := g;
      thread := t; os := o; trace := tr ++ [EvPcall false] |}).
Proof.
  intros Hc. unfold lua_pcall, bind, get_world. cbn [stack List.length].
  replace ((Z.of_nat (S (S (List.length args))) - 2 <? 0)%Z) with false
    by (symmetry; apply Z.ltb_ge; lia).
  replace ((Z.of_nat (S (S (List.length args)))
            <? Z.of_nat (S (S (List.length args))) - 2 + 1)%Z) with false
    by (symmetry; apply Z.ltb_ge; lia).
  cbn [orb].
  replace (S (S (List.length args))
           - Z.to_nat (Z.of_nat (S (S (List.length args))) - 2) - 1) with 1 by lia.
  cbn [nth skipn firstn app]. rewrite Hc.
  cbn [emit bind stack globals thread os trace stack_value depth Nat.sub Nat.mul
       Nat.add nth app].
  rewrite run_error_handler.
  unfold pcall_status, pcall_message.
  destruct (handled_error g e); reflexivity.
Qed.

(** With nothing but the handler on the stack the call has no function to
    call: [lua_gettop(L) - 2] is negative. *)
Lemma lua_pcall_underflow h g t o tr :
  lua_pcall (Z.of_nat 1 - 2) 1
    {| stack := [h]; globals := g; thread := t; os := o; trace := tr |} =
  (Abort Undefined,
   {| stack := [h]; globals := g; thread := t; os := o; trace := tr |}).
Proof. reflexivity. Qed.
Lemma world_eta (w : world) :
  {| stack := stack w; globals := globals w; thread := thread w; os := os w;
     trace := trace w |} = w.
Proof. destruct w; reflexivity. Qed.

Lemma thread_eta (t : lua_apr_thread_object) :
  {| header := header t; pool := pool t; handle := handle t; attr := attr t;
     input := input t; output := output t; path := path t; cpath := cpath t;
     config := config t; status := status t; joined := joined t |} = t.
Proof. destruct t; reflexivity. Qed.

End Frames.

(** ** The worker's runs *)

Section Worker.
Context `{RefObj} `{Apr} `{Interp} `{Serializer}.

Lemma decoded_inv w f args :
  decoded w f args ->
  luaL_newstate_ok = true /\
  (exists fields, globals w "package"%string = LTable fields) /\
  exists i, input (thread w) = Some i /\ unserialize (c_str i) = Some (f :: args).
Proof.
  unfold decoded, decode_input. intros (Hn & Hp & Hu). split; [exact Hn|]. split.
  - destruct (globals w "package"%string); try discriminate. eauto.
  - destruct (input (thread w)); try discriminate. eauto.
Qed.

Ltac run_stack :=
  run_model;
  repeat (rewrite ?rev_unit, ?rev_app_distr, ?rev_involutive;
          cbn -[Z.of_nat Z.sub Z.to_nat c_str lua_pcall returned]).

Ltac finish_run :=
  unfold worker_world, worker_handle, worker_finish, worker_closing, worker_setup,
    destroy_events;
  match goal with
  | |- context [object_collectable ?x] => destruct (object_collectable x)
  end;
  run_model;
  repeat match goal with Hn : luaL_newstate_ok = _ |- _ => rewrite Hn end;
  repeat match goal with Hi : input _ = Some _ |- _ => rewrite <- Hi end;
  rewrite <- ?app_assoc; reflexivity.

Lemma runner_create_failure h w :
  luaL_newstate_ok = false ->
  thread_runner h w =
  (Ok tt, worker_world w (Some "Failed to create Lua state"%string) TS_ERROR
            ([EvIncref; EvNewState false]
             ++ worker_finish false (thread w)
                  (Some "Failed to create Lua state"%string) TS_ERROR h)).
Proof.
  intros Hn. unfold thread_runner. run_model. rewrite Hn. run_model.
  finish_run.
Qed.

Lemma runner_compile_failure h w f args message m :
  decoded w f args ->
  load_callable f = inr message ->
  value_tostring message = Some m ->
  thread_runner h w =
  (Ok tt, worker_world w (Some (c_str m)) TS_ERROR
            (worker_setup (thread w) ++ load_events f
             ++ worker_finish true (thread w) (Some (c_str m)) TS_ERROR h)).
Proof.
  intros Hd; destruct (decoded_inv _ _ _ Hd) as (Hn & (fields & Hp) & i & Hi & Hu);
    clear Hd; intros Hl Hm.
  destruct message; cbn in Hm; try discriminate; injection Hm as <-.
  all: unfold load_events; rewrite Hl; unfold load_callable in Hl.
  all: unfold thread_runner; run_model; rewrite Hn; run_model.
  all: rewrite Hp; run_model; rewrite Hi; run_model; rewrite Hu; run_model.
  all: destruct f; cbn in Hl; try discriminate; run_model;
    rewrite Hl; run_stack; finish_run.
Qed.

Lemma runner_runtime_error h w f args callee e m :
  decoded w f args ->
  load_callable f = inl callee ->
  call_value callee args = inr e ->
  value_tostring (pcall_message (globals w) e) = Some m ->
  thread_runner h w =
  (Ok tt, worker_world w (Some (c_str m)) TS_ERROR
            (worker_setup (thread w) ++ load_events f
             ++ [EvSetStatus TS_RUNNING; EvPcall false]
             ++ worker_finish true (thread w) (Some (c_str m)) TS_ERROR h)).
Proof.
  intros Hd; destruct (decoded_inv _ _ _ Hd) as (Hn & (fields & Hp) & i & Hi & Hu);
    clear Hd; intros Hl Hc Hm.
  remember (pcall_message (globals w) e) as message eqn:Emessage.
  pose proof (pcall_status_nonzero (globals w) e) as Hrc.
  remember (pcall_status (globals w) e) as rc eqn:Erc.
  destruct message; cbn in Hm; try discriminate; injection Hm as <-.
  all: unfold load_events; rewrite Hl; unfold load_callable in Hl.
  all: unfold thread_runner; run_model; rewrite Hn; run_model.
  all: rewrite Hp; run_model; rewrite Hi; run_model; rewrite Hu; run_model.
  all: destruct f; cbn in Hl; try (injection Hl as <-); run_model;
    try (rewrite Hl; run_stack);
    rewrite (lua_pcall_error _ _ _ _ _ _ _ Hc);
    rewrite <- Emessage, <- Erc; cbn -[Z.of_nat Z.sub Z.to_nat c_str];
    rewrite Hrc; run_stack; finish_run.
Qed.

Lemma runner_success h w f args callee results s :
  decoded w f args ->
  load_callable f = inl callee ->
  call_value callee args = inl results ->
  serialize results = Some s ->
  thread_runner h w =
  (Ok tt, worker_world w (Some (c_str s)) TS_DONE
            (worker_setup (thread w) ++ load_events f
             ++ [EvSetStatus TS_RUNNING; EvPcall true; EvSerialize]
             ++ worker_finish true (thread w) (Some (c_str s)) TS_DONE h)).
Proof.
  intros Hd; destruct (decoded_inv _ _ _ Hd) as (Hn & (fields & Hp) & i & Hi & Hu);
    clear Hd; intros Hl Hc Hs.
  unfold load_events. rewrite Hl. unfold load_callable in Hl.
  unfold thread_runner. run_model. rewrite Hn. run_model.
  rewrite Hp. run_model. rewrite Hi. run_model. rewrite Hu. run_model.
  destruct f; cbn in Hl; try (injection Hl as <-); run_model;
    try (rewrite Hl; run_stack);
    rewrite (lua_pcall_ok _ _ _ _ _ _ _ _ Hc); run_model;
    rewrite Hs; run_stack; finish_run.
Qed.

(** *** Runs that never reach [apr_thread_exit]

    The worker's interpreter has no protected call around the decoding of
    the input and the encoding of the results, and [strdup] is handed
    whatever [lua_tostring] returns. *)

Ltac crashed :=
  run_model; eexists; split; [reflexivity|];
  cbn; rewrite <- ?app_assoc; repeat split; reflexivity.

Lemma runner_crash_no_package h w :
  luaL_newstate_ok = true ->
  value_istable (globals w "package"%string) = false ->
  exists w', thread_runner h w = (Abort LuaError, w') /\
    trace w' = trace w ++ [EvIncref; EvNewState true; EvOpenLibs] /\
    status (thread w') = status (thread w) /\
    output (thread w') = output (thread w) /\
    joined (thread w') = joined (thread w).
Proof.
  intros Hn Hp. unfold thread_runner. run_model. rewrite Hn. run_model.
  destruct (globals w "package"%string); try discriminate; crashed.
Qed.

Lemma runner_crash_undecoded h w :
  luaL_newstate_ok = true ->
  value_istable (globals w "package"%string) = true ->
  decode_input w = None ->
  exists w', thread_runner h w = (Abort LuaError, w') /\
    trace w' = trace w ++ worker_setup (thread w) /\
    status (thread w') = status (thread w) /\
    output (thread w') = output (thread w) /\
    joined (thread w') = joined (thread w).
Proof.
  intros Hn Hp Hu. unfold decode_input in Hu.
  unfold thread_runner. run_model. rewrite Hn. run_model.
  destruct (globals w "package"%string); try discriminate. run_model.
  destruct (input (thread w)) as [i|]; run_model; [rewrite Hu|]; crashed.
Qed.

Lemma runner_crash_no_function h w :
  luaL_newstate_ok = true ->
  value_istable (globals w "package"%string) = true ->
  decode_input w = Some [] ->
  exists w', thread_runner h w = (Abort Undefined, w') /\
    trace w' = trace w ++ worker_setup (thread w) ++ [EvSetStatus TS_RUNNING] /\
    status (thread w') = TS_RUNNING /\
    output (thread w') = output (thread w) /\
    joined (thread w') = joined (thread w).
Proof.
  intros Hn Hp Hu. unfold decode_input in Hu.
  unfold thread_runner. run_model. rewrite Hn. run_model.
  destruct (globals w "package"%string); try discriminate. run_model.
  destruct (input (thread w)) as [i|]; try discriminate. run_model.
  rewrite Hu. run_model. rewrite lua_pcall_underflow. crashed.
Qed.

Lemma runner_crash_compile_message h w f args message :
  decoded w f args ->
  load_callable f = inr message ->
  value_tostring message = None ->
  exists w', thread_runner h w = (Abort Undefined, w') /\
    trace w' = trace w ++ worker_setup (thread w) ++ load_events f /\
    status (thread w') = status (thread w) /\
    output (thread w') = output (thread w) /\
    joined (thread w') = joined (thread w).
Proof.
  intros Hd; destruct (decoded_inv _ _ _ Hd) as (Hn & (fields & Hp) & i & Hi & Hu);
    clear Hd; intros Hl Hm.
  destruct message; cbn in Hm; try discriminate.
  all: unfold load_events; rewrite Hl; unfold load_callable in Hl.
  all: unfold thread_runner; run_model; rewrite Hn; run_model.
  all: rewrite Hp; run_model; rewrite Hi; run_model; rewrite Hu; run_model.
  all: destruct f; cbn in Hl; try discriminate; run_model;
    rewrite Hl; run_stack; crashed.
Qed.

Lemma runner_crash_error_value h w f args callee e :
  decoded w f args ->
  load_callable f = inl callee ->
  call_value callee args = inr e ->
  value_tostring (pcall_message (globals w) e) = None ->
  exists w', thread_runner h w = (Abort Undefined, w') /\
    trace w' = trace w ++ worker_setup (thread w) ++ load_events f
               ++ [EvSetStatus TS_RUNNING; EvPcall false] /\
    status (thread w') = TS_RUNNING /\
    output (thread w') = output (thread w) /\
    joined (thread w') = joined (thread w).
Proof.
  intros Hd; destruct (decoded_inv _ _ _ Hd) as (Hn & (fields & Hp) & i & Hi & Hu);
    clear Hd; intros Hl Hc Hm.
  remember (pcall_message (globals w) e) as message eqn:Emessage.
  pose proof (pcall_status_nonzero (globals w) e) as Hrc.
  remember (pcall_status (globals w) e) as rc eqn:Erc.
  destruct message; cbn in Hm; try discriminate.
  all: unfold load_events; rewrite Hl; unfold load_callable in Hl.
  all: unfold thread_runner; run_model; rewrite Hn; run_model.
  all: rewrite Hp; run_model; rewrite Hi; run_model; rewrite Hu; run_model.
  all: destruct f; cbn in Hl; try (injection Hl as <-); run_model;
    try (rewrite Hl; run_stack);
    rewrite (lua_pcall_error _ _ _ _ _ _ _ Hc);
    rewrite <- Emessage, <- Erc; cbn -[Z.of_nat Z.sub Z.to_nat c_str];
    rewrite Hrc; run_stack; crashed.
Qed.

Lemma runner_crash_serialize h w f args callee results :
  decoded w f args ->
  load_callable f = inl callee ->
  call_value callee args = inl results ->
  serialize results = None ->
  exists w', thread_runner h w = (Abort LuaError, w') /\
    trace w' = trace w ++ worker_setup (thread w) ++ load_events f
               ++ [EvSetStatus TS_RUNNING; EvPcall true; EvSerialize] /\
    status (thread w') = TS_RUNNING /\
    output (thread w') = output (thread w) /\
    joined (thread w') = joined (thread w).
Proof.
  intros Hd; destruct (decoded_inv _ _ _ Hd) as (Hn & (fields & Hp) & i & Hi & Hu);
    clear Hd; intros Hl Hc Hs.
  unfold load_events. rewrite Hl. unfold load_callable in Hl.
  unfold thread_runner. run_model. rewrite Hn. run_model.
  rewrite Hp. run_model. rewrite Hi. run_model. rewrite Hu. run_model.
  destruct f; cbn in Hl; try (injection Hl as <-); run_model;
    try (rewrite Hl; run_stack);
    rewrite (lua_pcall_ok _ _ _ _ _ _ _ _ Hc); run_model;
    rewrite Hs; run_stack; crashed.
Qed.

(** *** Every run of the worker *)

Lemma load_events_shape f callee :
  load_callable f = inl callee -> load_shape (load_events f).
Proof.
  unfold load_events, load_shape. intros ->.
  destruct (value_tostring f); auto.
Qed.

Lemma load_events_failed f message :
  load_callable f = inr message -> load_events f = [EvLoadBuffer false].
Proof.
  unfold load_events, load_callable.
  destruct (value_tostring f); [intros ->; reflexivity | discriminate].
Qed.

Ltac completed :=
  eexists _, _, _; split; [eassumption|]; split; [reflexivity|];
  split; [|reflexivity];
  cbn [worker_world thread worker_handle status output]; econstructor; eauto.

Ltac crash_run Hcrash :=
  destruct Hcrash as (w' & E & Ht & Hs & Ho & Hj);
  eexists _, w', _; split; [exact E|]; split; [exact Ht|];
  split; [|exact Hj];
  rewrite Hs, Ho.

Lemma thread_runner_run h w :
  exists r w' evs,
    thread_runner h w = (r, w') /\
    trace w' = trace w ++ evs /\
    worker_run (thread w) h r evs (status (thread w')) (output (thread w')) /\
    joined (thread w') = joined (thread w).
Proof.
  destruct luaL_newstate_ok eqn:Hn.
  2: { pose proof (runner_create_failure h w Hn) as E. completed. }
  destruct (value_istable (globals w "package"%string)) eqn:Hp.
  2: { crash_run (runner_crash_no_package h w Hn Hp).
       apply RunCrashEarly. auto. }
  destruct (decode_input w) as [[|f args]|] eqn:Hu.
  3: { crash_run (runner_crash_undecoded h w Hn Hp Hu).
       apply RunCrashEarly. auto. }
  1: { crash_run (runner_crash_no_function h w Hn Hp Hu).
       apply (RunCrashRunning _ _ _ [] []); [left; reflexivity | auto]. }
  assert (Hd : decoded w f args) by (repeat split; assumption).
  destruct (load_callable f) as [callee|message] eqn:Hl.
  2: { destruct (value_tostring message) as [m|] eqn:Hm.
       - pose proof (runner_compile_failure h w f args message m Hd Hl Hm) as E.
         rewrite (load_events_failed _ _ Hl) in E. completed.
       - crash_run (runner_crash_compile_message h w f args message Hd Hl Hm).
         rewrite (load_events_failed _ _ Hl).
         apply RunCrashEarly. auto. }
  pose proof (load_events_shape _ _ Hl) as Hshape.
  destruct (call_value callee args) as [results|e] eqn:Hc.
  - destruct (serialize results) as [buffer|] eqn:Hs'.
    + pose proof (runner_success h w f args callee results buffer Hd Hl Hc Hs') as E.
      completed.
    + crash_run (runner_crash_serialize h w f args callee results Hd Hl Hc Hs').
      apply (RunCrashRunning _ _ _ _ [EvPcall true; EvSerialize]); auto.
  - destruct (value_tostring (pcall_message (globals w) e)) as [m|] eqn:Hm.
    + pose proof (runner_runtime_error h w f args callee e m Hd Hl Hc Hm) as E.
      completed.
    + crash_run (runner_crash_error_value h w f args callee e Hd Hl Hc Hm).
      apply (RunCrashRunning _ _ _ _ [EvPcall false]); auto.
Qed.
End Worker.


(** ** The worker: status, output and their order *)

Ltac explicit_run :=
  unfold worker_finish, worker_closing, worker_setup, destroy_events, load_shape in *;
  repeat match goal with
         | Hl : _ \/ _ |- _ => destruct Hl
         end;
  subst;
  repeat match goal with
         | |- context [object_collectable ?x] => destruct (object_collectable x)
         end;
  cbn [app].

Section WorkerProperties.
Context `{RefObj} `{Apr} `{Interp} `{Serializer}.

Lemma status_writes_app a b :
  status_writes (a ++ b) = status_writes a ++ status_writes b.
Proof.
  induction a as [|e a IH]; [reflexivity|].
  destruct e; cbn; rewrite ?IH; reflexivity.
Qed.

Lemma pcall_returns_app a b :
  pcall_returns (a ++ b) = pcall_returns a ++ pcall_returns b.
Proof.
  induction a as [|e a IH]; [reflexivity|].
  destruct e; cbn; rewrite ?IH; reflexivity.
Qed.

(** A list is cut in one way only at an element that occurs once. *)
Lemma split_unique {A} (x : A) a c before after :
  before ++ x :: after = a ++ x :: c ->
  ~ In x a -> ~ In x c ->
  before = a.
Proof.
  revert a. induction before as [|b before IH]; intros [|y a] E Ha Hc.
  - reflexivity.
  - injection E as <- _. exfalso. apply Ha. left. reflexivity.
  - injection E as -> E. exfalso. apply Hc. rewrite <- E.
    apply in_or_app. right. left. reflexivity.
  - injection E as <- E. f_equal. apply (IH a E).
    + intros Hin. apply Ha. right. exact Hin.
    + exact Hc.
Qed.

(** A prefix in which the protected call has not returned ends before the
    first return of the call. *)
Lemma prefix_before_pcall p rest pre ok post :
  p ++ rest = pre ++ EvPcall ok :: post ->
  pcall_returns p = [] ->
  exists more, pre = p ++ more.
Proof.
  revert pre. induction p as [|e p IH]; intros pre E Hp.
  - exists pre. reflexivity.
  - destruct pre as [|e' pre].
    + injection E as -> _. discriminate Hp.
    + injection E as <- E.
      destruct (IH pre E) as (more & ->).
      * destruct e; cbn in Hp; (discriminate || exact Hp).
      * exists more. reflexivity.
Qed.

(** X30: every run of the worker that gets to its end, whether the interpreter
    could not be created, the function did not compile, the call raised or
    it returned, has stored exactly one of TS_DONE and TS_ERROR in the handle
    (after TS_RUNNING at most) before its one call of [apr_thread_exit], and
    that call always passes APR_SUCCESS; the four kinds of run do get to
    their end, with TS_DONE for a success and TS_ERROR otherwise.  A run that
    stops before (an error raised outside the protected call, or a NULL
    string) publishes neither status and never exits the thread. *)
Theorem thread_runner_terminal_status (h : apr_thread_t) (w : world) :
  (forall k out, worker_case w k out ->
     exists w', thread_runner h w = (Ok tt, w') /\
                status (thread w') = kind_status k) /\
  (forall r w', thread_runner h w = (r, w') ->
     exists evs, trace w' = trace w ++ evs /\
       match r with
       | Ok _ =>
           exists before,
             evs = before ++ [EvThreadExit h APR_SUCCESS] /\
             thread_exits before = [] /\
             (status (thread w') = TS_DONE \/ status (thread w') = TS_ERROR) /\
             (status_writes before = [status (thread w')] \/
              status_writes before = [TS_RUNNING; status (thread w')])
       | Abort _ =>
           thread_exits evs = [] /\
           ~ In TS_DONE (status_writes evs) /\ ~ In TS_ERROR (status_writes evs)
       end).
Proof.
  split.
  - intros k out Hk. destruct Hk as [Hn|f args message m Hd Hl Hm
                                    |f args callee e m Hd Hl Hc Hm
                                    |f args callee results s Hd Hl Hc Hs].
    + eexists. split; [apply (runner_create_failure h w Hn)|reflexivity].
    + eexists. split; [apply (runner_compile_failure h w _ _ _ _ Hd Hl Hm)|reflexivity].
    + eexists. split; [apply (runner_runtime_error h w _ _ _ _ _ Hd Hl Hc Hm)|reflexivity].
    + eexists. split; [apply (runner_success h w _ _ _ _ _ Hd Hl Hc Hs)|reflexivity].
  - intros r w' E.
    destruct (thread_runner_run h w) as (r0 & w0 & evs & E0 & Ht & Hrun & _).
    rewrite E in E0. injection E0 as <- <-.
    exists evs. split; [exact Ht|].
    destruct Hrun; explicit_run;
      try match goal with
          | |- exists before, ?l = before ++ _ /\ _ => exists (removelast l)
          end;
      cbn; repeat split; auto; intuition discriminate.
Qed.

(** C7 (as amended): when the worker runs to its end the output buffer of the
    handle is written exactly once, before the thread exits.  After a
    success it holds, as a C string, the serialization of the results alone
    (the success flag is not part of it); after a failure it holds the text
    of the error message as it is, not serialized. *)
Theorem worker_output_buffer (h : apr_thread_t) (w : world)
  (k : run_kind) (out : option string) :
  worker_case w k out ->
  exists w' evs,
    thread_runner h w = (Ok tt, w') /\
    trace w' = trace w ++ evs ++ [EvThreadExit h APR_SUCCESS] /\
    status (thread w') = kind_status k /\
    output (thread w') = out /\
    output_writes evs = [out].
Proof.
  intros Hk.
  destruct Hk as [Hn|f args message m Hd Hl Hm
                 |f args callee e m Hd Hl Hc Hm
                 |f args callee results s Hd Hl Hc Hs].
  - exists (worker_world w (Some "Failed to create Lua state"%string) TS_ERROR
              ([EvIncref; EvNewState false]
               ++ worker_finish false (thread w)
                    (Some "Failed to create Lua state"%string) TS_ERROR h)),
           ([EvIncref; EvNewState false]
            ++ worker_closing false (thread w)
                 (Some "Failed to create Lua state"%string) TS_ERROR).
    split; [apply (runner_create_failure h w Hn)|].
    cbn [worker_world trace thread worker_handle status output].
    explicit_run; cbn; repeat split; reflexivity.
  - exists (worker_world w (Some (c_str m)) TS_ERROR
              (worker_setup (thread w) ++ load_events f
               ++ worker_finish true (thread w) (Some (c_str m)) TS_ERROR h)),
           (worker_setup (thread w) ++ load_events f
            ++ worker_closing true (thread w) (Some (c_str m)) TS_ERROR).
    split; [apply (runner_compile_failure h w _ _ _ _ Hd Hl Hm)|].
    rewrite (load_events_failed _ _ Hl).
    cbn [worker_world trace thread worker_handle status output].
    explicit_run; cbn; repeat split; reflexivity.
  - exists (worker_world w (Some (c_str m)) TS_ERROR
              (worker_setup (thread w) ++ load_events f
               ++ [EvSetStatus TS_RUNNING; EvPcall false]
               ++ worker_finish true (thread w) (Some (c_str m)) TS_ERROR h)),
           (worker_setup (thread w) ++ load_events f
            ++ [EvSetStatus TS_RUNNING; EvPcall false]
            ++ worker_closing true (thread w) (Some (c_str m)) TS_ERROR).
    split; [apply (runner_runtime_error h w _ _ _ _ _ Hd Hl Hc Hm)|].
    pose proof (load_events_shape _ _ Hl) as Hshape.
    cbn [worker_world trace thread worker_handle status output].
    destruct Hshape as [-> | ->]; explicit_run; cbn; repeat split; reflexivity.
  - exists (worker_world w (Some (c_str s)) TS_DONE
              (worker_setup (thread w) ++ load_events f
               ++ [EvSetStatus TS_RUNNING; EvPcall true; EvSerialize]
               ++ worker_finish true (thread w) (Some (c_str s)) TS_DONE h)),
           (worker_setup (thread w) ++ load_events f
            ++ [EvSetStatus TS_RUNNING; EvPcall true; EvSerialize]
            ++ worker_closing true (thread w) (Some (c_str s)) TS_DONE).
    split; [apply (runner_success h w _ _ _ _ _ Hd Hl Hc Hs)|].
    pose proof (load_events_shape _ _ Hl) as Hshape.
    cbn [worker_world trace thread worker_handle status output].
    destruct Hshape as [-> | ->]; explicit_run; cbn; repeat split; reflexivity.
Qed.

Lemma thread_status_name (u : nat) (rest : list lua_value) (wo : world) :
  invoke thread_status (LUserdata u :: rest) wo =
  (Ok [LString (nth (thread_status_index (status (thread wo))) status_names ""%string)],
   wo).
Proof.
  unfold thread_status, invoke. run_model.
  change (LUserdata u :: rest ++ ?x) with ((LUserdata u :: rest) ++ x).
  rewrite returned_one, world_eta.
  destruct (status (thread wo)); reflexivity.
Qed.

End WorkerProperties.

(** ** thread:join() *)

Ltac run_api :=
  unfold_model;
  cbn -[Z.of_nat Z.sub Z.to_nat c_str returned Z.eqb APR_SUCCESS thread_join_results];
  change (1 =? 0)%Z with false; change (0 =? 0)%Z with true;
  cbn [negb].

Section Join.
Context `{RefObj} `{Apr} `{Interp} `{Serializer}.

(** The tail of [thread_join] on a stack that holds the handle alone. *)
Lemma thread_join_results_eq u g t o tr :
  thread_join_results
    {| stack := [LUserdata u]; globals := g; thread := t; os := o; trace := tr |} =
  match join_results t with
  | Ok values =>
      (Ok (Z.of_nat (S (List.length values)) - 1)%Z,
       {| stack := LUserdata u :: values; globals := g; thread := t; os := o;
          trace := tr ++ decode_events t |})
  | Abort why =>
      (Abort why,
       {| stack := [LUserdata u; LBoolean true; value_of_cstring (output t)];
          globals := g; thread := t; os := o; trace := tr ++ [EvUnserialize] |})
  end.
Proof.
  unfold join_results, decode_events, thread_join_results. run_api.
  destruct (thread_status_eqb (status t) TS_DONE); run_api.
  - destruct (output t) as [buffer|]; run_api; [|reflexivity].
    destruct (unserialize (c_str buffer)); reflexivity.
  - rewrite app_nil_r. reflexivity.
Qed.

(** [thread_join] as a function of the handle and of the answer of the wait
    primitive. *)
Lemma thread_join_eq u rest w :
  invoke thread_join (LUserdata u :: rest) w =
  if joined (thread w) then
    (join_results (thread w),
     after_call w (thread w) (os w)
       (match join_results (thread w) with
        | Ok _ => decode_events (thread w)
        | Abort _ => [EvUnserialize]
        end))
  else
    let '(st, o) := apr_thread_join (handle (thread w)) (os w) in
    if (st =? APR_SUCCESS)%Z then
      (join_results (mark_joined (thread w)),
       after_call w (mark_joined (thread w)) o
         (EvJoin (handle (thread w)) st
          :: match join_results (thread w) with
             | Ok _ => decode_events (thread w)
             | Abort _ => [EvUnserialize]
             end))
    else
      (Ok [LNil; LString (apr_strerror st)],
       after_call w (thread w) o [EvJoin (handle (thread w)) st]).
Proof.
  unfold invoke, thread_join, after_call. run_api.
  destruct (joined (thread w)) eqn:Hj; run_api.
  - rewrite thread_join_results_eq.
    destruct (join_results (thread w)) as [values|why]; cbn [stack globals thread os trace];
      [rewrite returned_top|]; reflexivity.
  - destruct (apr_thread_join (handle (thread w)) (os w)) as [st o]. run_api.
    destruct (st =? APR_SUCCESS)%Z; run_api.
    + rewrite thread_join_results_eq.
      change (join_results _) with (join_results (mark_joined (thread w))).
      change (join_results (mark_joined (thread w))) with (join_results (thread w)).
      change (decode_events _) with (decode_events (thread w)).
      destruct (join_results (thread w)) as [values|why];
        cbn [stack globals thread os trace];
        [rewrite returned_top|]; rewrite <- app_assoc; reflexivity.
    + reflexivity.
Qed.

(** [thread_detach] as a function of the answer of [apr_thread_detach]. *)
Lemma thread_detach_eq u rest w :
  invoke thread_detach (LUserdata u :: rest) w =
  let '(st, o) := apr_thread_detach (handle (thread w)) (os w) in
  if (st =? APR_SUCCESS)%Z then
    (Ok [LBoolean true],
     after_call w (with_status (thread w) TS_DETACH) o
       [EvDetach (handle (thread w)) st; EvSetStatus TS_DETACH])
  else
    (Ok [LNil; LString (apr_strerror st)],
     after_call w (thread w) o [EvDetach (handle (thread w)) st]).
Proof.
  unfold invoke, thread_detach, after_call, with_status. run_api.
  destruct (apr_thread_detach (handle (thread w)) (os w)) as [st o]. run_api.
  destruct (st =? APR_SUCCESS)%Z; run_api.
  - change (LUserdata u :: rest ++ [LBoolean true])
      with ((LUserdata u :: rest) ++ [LBoolean true]).
    rewrite returned_one, <- app_assoc. reflexivity.
  - rewrite <- app_assoc.
    change (LUserdata u :: rest ++ [LNil] ++ [LString (apr_strerror st)])
      with ((LUserdata u :: rest) ++ [LNil; LString (apr_strerror st)]).
    rewrite returned_two. reflexivity.
Qed.

(** What the finalizer writes and calls before it releases the handle, as a
    function of the answer of the wait primitive. *)
Lemma thread_gc_eq u rest w :
  invoke thread_gc (LUserdata u :: rest) w =
  if joined (thread w) then
    (Ok [], after_call w (with_header (thread w) (release_object (header (thread w))))
              (os w) (destroy_events (header (thread w)) (output (thread w))))
  else if thread_status_eqb (status (thread w)) TS_DETACH then
    (Ok [], after_call w (with_header (thread w) (release_object (header (thread w))))
              (os w)
              ([EvStderr LogGcJoin; EvStderr (LogDetachError (output (thread w)))]
               ++ destroy_events (header (thread w)) (output (thread w))))
  else
    let '(st, o) := apr_thread_join (handle (thread w)) (os w) in
    (Ok [], after_call w (with_header (thread w) (release_object (header (thread w)))) o
              ([EvStderr LogGcJoin; EvJoin (handle (thread w)) st]
               ++ (if (st =? APR_SUCCESS)%Z then
                     if thread_status_eqb (status (thread w)) TS_ERROR
                     then [EvStderr (LogExitedWithError (output (thread w)))]
                     else []
                   else [EvStderr (LogJoinFailed (apr_strerror st))])
               ++ destroy_events (header (thread w)) (output (thread w)))).
Proof.
  unfold invoke, thread_gc, after_call, with_header, destroy_events. run_api.
  destruct (joined (thread w)) eqn:Hj; run_api.
  - destruct (object_collectable (header (thread w))); run_api;
      rewrite returned_none, <- ?app_assoc, ?Hj; reflexivity.
  - destruct (thread_status_eqb (status (thread w)) TS_DETACH); run_api.
    + destruct (object_collectable (header (thread w))); run_api;
        rewrite returned_none, <- ?app_assoc, ?Hj; reflexivity.
    + destruct (apr_thread_join (handle (thread w)) (os w)) as [st o]. run_api.
      destruct (st =? APR_SUCCESS)%Z; run_api;
        [destruct (thread_status_eqb (status (thread w)) TS_ERROR); run_api|];
        (destruct (object_collectable (header (thread w))); run_api;
         rewrite returned_none, <- ?app_assoc, ?Hj; reflexivity).
Qed.
End Join.

(** ** apr.thread() *)

Ltac run_spawn :=
  unfold_model;
  cbn -[Z.sub Z.to_nat c_str returned Z.eqb APR_SUCCESS get_package_value];
  change (1 =? 0)%Z with false; change (0 =? 0)%Z with true;
  cbn [negb].

Section Spawn.
Context `{RefObj} `{Apr} `{Interp} `{Serializer}.

Lemma get_package_config a b fields g t o tr :
  get_package_value "config" set_config
    {| stack := [a; b; LTable fields]; globals := g; thread := t; os := o; trace := tr |} =
  (Ok tt,
   {| stack := [a; b; LTable fields]; globals := g;
      thread :=
        {| header := header t; pool := pool t; handle := handle t; attr := attr t;
           input := input t; output := output t;
           path := path t;
           cpath := cpath t;
           config := copy_field (table_get fields "config") (config t);
           status := status t; joined := joined t |};
      os := o; trace := tr |}).
Proof.
  unfold get_package_value, copy_field. run_api.
  destruct (table_get fields "config"); run_api; rewrite ?thread_eta; reflexivity.
Qed.

Lemma get_package_path a b fields g t o tr :
  get_package_value "path" set_path
    {| stack := [a; b; LTable fields]; globals := g; thread := t; os := o; trace := tr |} =
  (Ok tt,
   {| stack := [a; b; LTable fields]; globals := g;
      thread :=
        {| header := header t; pool := pool t; handle := handle t; attr := attr t;
           input := input t; output := output t;
           path := copy_field (table_get fields "path") (path t);
           cpath := cpath t;
           config := config t;
           status := status t; joined := joined t |};
      os := o; trace := tr |}).
Proof.
  unfold get_package_value, copy_field. run_api.
  destruct (table_get fields "path"); run_api; rewrite ?thread_eta; reflexivity.
Qed.

Lemma get_package_cpath a b fields g t o tr :
  get_package_value "cpath" set_cpath
    {| stack := [a; b; LTable fields]; globals := g; thread := t; os := o; trace := tr |} =
  (Ok tt,
   {| stack := [a; b; LTable fields]; globals := g;
      thread :=
        {| header := header t; pool := pool t; handle := handle t; attr := attr t;
           input := input t; output := output t;
           path := path t;
           cpath := copy_field (table_get fields "cpath") (cpath t);
           config := config t;
           status := status t; joined := joined t |};
      os := o; trace := tr |}).
Proof.
  unfold get_package_value, copy_field. run_api.
  destruct (table_get fields "cpath"); run_api; rewrite ?thread_eta; reflexivity.
Qed.


Ltac spawn_package w :=
  destruct (globals w "package"%string) as [| | | |fields| | |]; run_spawn;
  rewrite ?get_package_config; run_spawn;
  rewrite ?get_package_path; run_spawn;
  rewrite ?get_package_cpath; run_spawn.

Ltac spawn_done :=
  eexists _, _, _; split; [reflexivity|];
  split; [cbn [trace]; rewrite <- ?app_assoc; cbn [app]; reflexivity|].

Ltac spawn_failed :=
  right; right; eexists; eexists; split; [eassumption|];
  split; [reflexivity|];
  first [ split; [left; reflexivity | split; reflexivity]
        | split; [right; left; reflexivity | split; reflexivity]
        | split; [right; right; reflexivity | split; reflexivity] ].

(** The steps of apr.thread once the function and its arguments are
    serialized: every step succeeds and the handle is returned, or the
    allocation fails, or a later step fails and the handle is released. *)
Lemma lua_apr_thread_steps (args : list lua_value) (w : world) (buffer : string) :
  serialize args = Some buffer ->
  exists r w' evs,
    invoke lua_apr_thread args w = (Ok r, w') /\
    trace w' = trace w ++ evs /\
    ((r = [LUserdata 0] /\
      evs = [EvSerialize; EvNewObject true; EvSetStatus TS_INIT;
             EvPoolCreate APR_SUCCESS; EvAttrCreate APR_SUCCESS;
             EvThreadCreate APR_SUCCESS] /\
      status (thread w') = TS_INIT /\
      header (thread w') = header (thread w))
     \/
     (r = [LNil; LString (apr_strerror APR_ENOMEM)] /\
      evs = [EvSerialize; EvNewObject false] /\
      thread w' = thread w)
     \/
     (exists st steps,
        st <> APR_SUCCESS /\
        r = [LNil; LString (apr_strerror st)] /\
        (steps = [EvPoolCreate st] \/
         steps = [EvPoolCreate APR_SUCCESS; EvAttrCreate st] \/
         steps = [EvPoolCreate APR_SUCCESS; EvAttrCreate APR_SUCCESS;
                  EvThreadCreate st]) /\
        evs = [EvSerialize; EvNewObject true; EvSetStatus TS_INIT] ++ steps
              ++ destroy_events (header (thread w)) (output (thread w)) /\
        header (thread w') = release_object (header (thread w)))).
Proof.
  intros Hs. unfold invoke, lua_apr_thread, destroy_events. run_spawn.
  rewrite Hs. run_spawn.
  destruct new_object_ok; run_spawn.
  2: { spawn_done. right. left. auto. }
  destruct (apr_pool_create (os w)) as [[st1 p] o1]. run_spawn.
  destruct (Z.eqb_spec st1 APR_SUCCESS) as [->|Hst1]; run_spawn.
  2: { destruct (object_collectable (header (thread w))); run_spawn;
       spawn_done; spawn_failed. }
  spawn_package w.
  all: destruct (apr_threadattr_create p o1) as [[st2 a] o2]; run_spawn.
  all: destruct (Z.eqb_spec st2 APR_SUCCESS) as [->|Hst2]; run_spawn.
  all: try (rewrite ?(proj2 (Z.eqb_neq _ _) Hst2); run_spawn;
            destruct (object_collectable (header (thread w))); run_spawn;
            spawn_done; spawn_failed).
  all: destruct (apr_thread_create a p o2) as [[st3 hd] o3]; run_spawn.
  all: destruct (Z.eqb_spec st3 APR_SUCCESS) as [->|Hst3]; run_spawn.
  all: try (rewrite ?(proj2 (Z.eqb_neq _ _) Hst3); run_spawn;
            destruct (object_collectable (header (thread w))); run_spawn;
            spawn_done; spawn_failed).
  all: rewrite ?Z.eqb_refl; run_spawn; spawn_done; left; repeat split; reflexivity.
Qed.

(** C5 (as amended): once the function and its arguments are serialized, a
    call of apr.thread either starts the thread and returns the handle, with
    every step successful, or fails at one step: the allocation of the
    handle, the creation of the memory pool, of the thread attribute or of
    the native thread.  A failed call returns nil and the message of the
    status of the failed step (APR_ENOMEM for the allocation) and no handle,
    and when the handle was allocated [thread_destroy] releases it right
    after the failed step. *)
Theorem lua_apr_thread_failure (args : list lua_value) (w : world) (buffer : string) :
  serialize args = Some buffer ->
  exists r w' evs,
    invoke lua_apr_thread args w = (Ok r, w') /\
    trace w' = trace w ++ evs /\
    ((r = [LUserdata 0] /\
      evs = [EvSerialize; EvNewObject true; EvSetStatus TS_INIT;
             EvPoolCreate APR_SUCCESS; EvAttrCreate APR_SUCCESS;
             EvThreadCreate APR_SUCCESS])
     \/
     (exists st,
        r = [LNil; LString (apr_strerror st)] /\
        (forall u, ~ In (LUserdata u) r) /\
        ((st = APR_ENOMEM /\
          evs = [EvSerialize; EvNewObject false] /\
          thread w' = thread w)
         \/
         (exists steps,
            st <> APR_SUCCESS /\
            (steps = [EvPoolCreate st] \/
             steps = [EvPoolCreate APR_SUCCESS; EvAttrCreate st] \/
             steps = [EvPoolCreate APR_SUCCESS; EvAttrCreate APR_SUCCESS;
                      EvThreadCreate st]) /\
            evs = [EvSerialize; EvNewObject true; EvSetStatus TS_INIT] ++ steps
                  ++ destroy_events (header (thread w)) (output (thread w)) /\
            header (thread w') = release_object (header (thread w)))))).
Proof.
  intros Hs.
  destruct (lua_apr_thread_steps args w buffer Hs)
    as (r & w' & evs & E & Ht
        & [(Hr & Hevs & _)|[(Hr & Hevs & Hth)|(st & steps & Hst & Hr & Hsteps & Hevs & Hh)]]).
  - exists r, w', evs. split; [exact E|]. split; [exact Ht|]. left. auto.
  - exists r, w', evs. split; [exact E|]. split; [exact Ht|]. right.
    exists APR_ENOMEM. split; [exact Hr|]. split.
    + intros u Hin. rewrite Hr in Hin. cbn in Hin. intuition discriminate.
    + left. auto.
  - exists r, w', evs. split; [exact E|]. split; [exact Ht|]. right.
    exists st. split; [exact Hr|]. split.
    + intros u Hin. rewrite Hr in Hin. cbn in Hin. intuition discriminate.
    + right. exists steps. auto.
Qed.
End Spawn.

(** ** The order of the worker's status writes *)

Section Order.
Context `{RefObj} `{Apr} `{Interp} `{Serializer}.

Lemma lua_apr_thread_raises (args : list lua_value) (w : world) :
  serialize args = None ->
  invoke lua_apr_thread args w =
  (Abort LuaError, after_call w (thread w) (os w) [EvSerialize]).
Proof.
  intros Hs. unfold invoke, lua_apr_thread, after_call. run_spawn.
  rewrite Hs. reflexivity.
Qed.

Lemma lua_apr_thread_init (args : list lua_value) (w w' : world) (u : nat) :
  invoke lua_apr_thread args w = (Ok [LUserdata u], w') ->
  status (thread w') = TS_INIT.
Proof.
  intros E. destruct (serialize args) as [buffer|] eqn:Hs.
  - destruct (lua_apr_thread_steps args w buffer Hs)
      as (r & w0 & evs & E0 & _ & [(_ & _ & Hst & _)|[(Hr & _)|(st & steps & _ & Hr & _)]]);
      rewrite E in E0; injection E0 as <- <-; (exact Hst || discriminate Hr).
  - rewrite (lua_apr_thread_raises args w Hs) in E. discriminate E.
Qed.

Lemma quiet_prefix (p more : list event) :
  status_writes p ++ status_writes more = [TS_RUNNING] ->
  status_writes p = [] \/ status_writes p = [TS_RUNNING].
Proof.
  destruct (status_writes p) as [|s l]; [auto|].
  cbn. intros E. injection E as -> E.
  apply app_eq_nil in E. destruct E as [-> _]. auto.
Qed.

(** While the protected call has not returned, the worker has stored at most
    TS_RUNNING, in every run in which the call is made. *)
Lemma worker_quiet_until_return t h r evs st out p rest :
  worker_run t h r evs st out ->
  evs = p ++ rest ->
  pcall_returns p = [] ->
  ~ In TS_DONE (status_writes p) /\
  (pcall_returns evs <> [] -> status_writes p = [] \/ status_writes p = [TS_RUNNING]).
Proof.
  intros Hrun Heq Hp.
  assert (Hall : status_writes evs = status_writes p ++ status_writes rest)
    by (rewrite Heq; apply status_writes_app).
  assert (Hcut : forall pre ok post,
             evs = pre ++ EvPcall ok :: post ->
             status_writes pre = [TS_RUNNING] ->
             status_writes p = [] \/ status_writes p = [TS_RUNNING]).
  { intros pre ok post Hevs Hpre.
    destruct (prefix_before_pcall p rest pre ok post) as (more & ->);
      [rewrite <- Heq; exact Hevs | exact Hp |].
    rewrite status_writes_app in Hpre. exact (quiet_prefix _ _ Hpre). }
  destruct Hrun as [out|out|load out Hl|load out Hl|why evs Hevs|why load tail Hl Htail].
  - revert Hall. explicit_run; cbn; intros Hall;
      (split; [intros Hin; assert (Hin' : In TS_DONE [TS_ERROR])
                 by (rewrite Hall; apply in_or_app; left; exact Hin);
               cbn in Hin'; intuition discriminate
              | intros Hc; exfalso; apply Hc; reflexivity]).
  - revert Hall. explicit_run; cbn; intros Hall;
      (split; [intros Hin; assert (Hin' : In TS_DONE [TS_ERROR])
                 by (rewrite Hall; apply in_or_app; left; exact Hin);
               cbn in Hin'; intuition discriminate
              | intros Hc; exfalso; apply Hc; reflexivity]).
  - assert (Hq : status_writes p = [] \/ status_writes p = [TS_RUNNING]).
    { apply (Hcut (worker_setup t ++ load ++ [EvSetStatus TS_RUNNING]) false
                  (worker_finish true t out TS_ERROR h)).
      - rewrite <- !app_assoc. reflexivity.
      - destruct Hl as [-> | ->]; reflexivity. }
    split; [|intros _; exact Hq].
    destruct Hq as [-> | ->]; cbn; intuition discriminate.
  - assert (Hq : status_writes p = [] \/ status_writes p = [TS_RUNNING]).
    { apply (Hcut (worker_setup t ++ load ++ [EvSetStatus TS_RUNNING]) true
                  (EvSerialize :: worker_finish true t out TS_DONE h)).
      - rewrite <- !app_assoc. reflexivity.
      - destruct Hl as [-> | ->]; reflexivity. }
    split; [|intros _; exact Hq].
    destruct Hq as [-> | ->]; cbn; intuition discriminate.
  - revert Hall.
    destruct Hevs as [-> | [-> | ->]]; cbn; intros Hall;
      (split; [intros Hin; assert (Hin' : In TS_DONE [])
                 by (rewrite Hall; apply in_or_app; left; exact Hin);
               exact Hin'
              | intros Hc; exfalso; apply Hc; reflexivity]).
  - destruct Htail as [-> | [-> | ->]].
    + revert Hall. destruct Hl as [-> | ->]; cbn; intros Hall;
        (split; [intros Hin; assert (Hin' : In TS_DONE [TS_RUNNING])
                   by (rewrite Hall; apply in_or_app; left; exact Hin);
                 cbn in Hin'; intuition discriminate
                | intros Hc; exfalso; apply Hc; reflexivity]).
    + assert (Hq : status_writes p = [] \/ status_writes p = [TS_RUNNING]).
      { apply (Hcut (worker_setup t ++ load ++ [EvSetStatus TS_RUNNING]) false []).
        - rewrite <- !app_assoc. reflexivity.
        - destruct Hl as [-> | ->]; reflexivity. }
      split; [|intros _; exact Hq].
      destruct Hq as [-> | ->]; cbn; intuition discriminate.
    + assert (Hq : status_writes p = [] \/ status_writes p = [TS_RUNNING]).
      { apply (Hcut (worker_setup t ++ load ++ [EvSetStatus TS_RUNNING]) true
                    [EvSerialize]).
        - rewrite <- !app_assoc. reflexivity.
        - destruct Hl as [-> | ->]; reflexivity. }
      split; [|intros _; exact Hq].
      destruct Hq as [-> | ->]; cbn; intuition discriminate.
Qed.

(** TS_RUNNING is stored right after the set-up of the interpreter and the
    loading of the function, in every run that stores it. *)
Lemma worker_running_after_setup t h r evs st out before after :
  worker_run t h r evs st out ->
  evs = before ++ EvSetStatus TS_RUNNING :: after ->
  exists load, before = worker_setup t ++ load /\ load_shape load.
Proof.
  intros Hrun Heq.
  assert (Hin : In (EvSetStatus TS_RUNNING) evs)
    by (rewrite Heq; apply in_elt).
  assert (Hcut : forall load c,
             load_shape load ->
             evs = (worker_setup t ++ load) ++ EvSetStatus TS_RUNNING :: c ->
             ~ In (EvSetStatus TS_RUNNING) c ->
             exists load', before = worker_setup t ++ load' /\ load_shape load').
  { intros load c Hl Hevs Hc. exists load. split; [|exact Hl].
    apply (split_unique (EvSetStatus TS_RUNNING) _ c before after).
    - rewrite <- Heq. exact Hevs.
    - destruct Hl as [-> | ->]; cbn; intuition discriminate.
    - exact Hc. }
  destruct Hrun as [out|out|load out Hl|load out Hl|why evs Hevs|why load tail Hl Htail].
  - exfalso. revert Hin. explicit_run; cbn; intuition discriminate.
  - exfalso. revert Hin. explicit_run; cbn; intuition discriminate.
  - apply (Hcut load (EvPcall false :: worker_finish true t out TS_ERROR h) Hl).
    + rewrite <- !app_assoc. reflexivity.
    + explicit_run; cbn; intuition discriminate.
  - apply (Hcut load (EvPcall true :: EvSerialize
                      :: worker_finish true t out TS_DONE h) Hl).
    + rewrite <- !app_assoc. reflexivity.
    + explicit_run; cbn; intuition discriminate.
  - exfalso. revert Hin.
    destruct Hevs as [-> | [-> | ->]]; cbn; intuition discriminate.
  - apply (Hcut load tail Hl).
    + rewrite <- !app_assoc. reflexivity.
    + destruct Htail as [-> | [-> | ->]]; cbn; intuition discriminate.
Qed.

(** C8: in every run of the worker, TS_RUNNING is stored in the handle only
    once the interpreter is created, its libraries are loaded, its package
    table is configured, the error handler is in place and the input is
    decoded (and the function loaded, when it came as source text).  A
    handle leaves apr.thread with TS_INIT; while the call of the function has
    not returned, the worker never stores TS_DONE, and in a run that calls
    the function thread:status() reads init or running. *)
Theorem running_after_setup (h : apr_thread_t) (w : world) :
  exists r w' evs,
    thread_runner h w = (r, w') /\
    trace w' = trace w ++ evs /\
    (forall before after,
       evs = before ++ EvSetStatus TS_RUNNING :: after ->
       exists load, before = worker_setup (thread w) ++ load /\ load_shape load) /\
    (forall p rest,
       evs = p ++ rest ->
       pcall_returns p = [] ->
       ~ In TS_DONE (status_writes p) /\
       (pcall_returns evs <> [] ->
        forall u wo,
          status (thread wo) = observed TS_INIT p ->
          fst (invoke thread_status [LUserdata u] wo) = Ok [LString "init"] \/
          fst (invoke thread_status [LUserdata u] wo) = Ok [LString "running"])) /\
    (forall args w0 u w1,
       invoke lua_apr_thread args w0 = (Ok [LUserdata u], w1) ->
       status (thread w1) = TS_INIT).
Proof.
  destruct (thread_runner_run h w) as (r & w' & evs & E & Ht & Hrun & _).
  exists r, w', evs. split; [exact E|]. split; [exact Ht|]. split; [|split].
  - intros before after Heq.
    exact (worker_running_after_setup _ _ _ _ _ _ _ _ Hrun Heq).
  - intros p rest Heq Hp.
    destruct (worker_quiet_until_return _ _ _ _ _ _ _ _ Hrun Heq Hp) as [Hdone Hq].
    split; [exact Hdone|].
    intros Hcalled u wo Hobs.
    rewrite thread_status_name, Hobs. unfold observed.
    destruct (Hq Hcalled) as [-> | ->]; cbn; auto.
  - intros args w0 u w1. apply lua_apr_thread_init.
Qed.
End Order.

(** ** join, detach and the finalizer *)

Section Supervisor.
Context `{RefObj} `{Apr} `{Interp} `{Serializer}.

Lemma status_not_done (s : thread_status_t) :
  s <> TS_DONE -> thread_status_eqb s TS_DONE = false.
Proof. destruct s; intros Hs; (reflexivity || contradiction). Qed.


(** The result of a join whose wait has succeeded, now or in an earlier
    call. *)
Lemma thread_join_waited (u : nat) (rest : list lua_value) (w : world) :
  joined (thread w) = true \/
  fst (apr_thread_join (handle (thread w)) (os w)) = APR_SUCCESS ->
  fst (invoke thread_join (LUserdata u :: rest) w) = join_results (thread w) /\
  joined (thread (snd (invoke thread_join (LUserdata u :: rest) w))) = true.
Proof.
  intros Hwait. rewrite thread_join_eq.
  destruct (joined (thread w)) eqn:Hj.
  - split; [reflexivity | exact Hj].
  - destruct Hwait as [Hw|Hw]; [discriminate Hw|].
    destruct (apr_thread_join (handle (thread w)) (os w)) as [st o].
    cbn in Hw. subst st. rewrite Z.eqb_refl. split; reflexivity.
Qed.

(** C1: when the wait on the native thread has succeeded, in this call of
    join or in an earlier one, join returns true followed by the values
    decoded from the output buffer if the status of the handle is TS_DONE and
    the buffer decodes, and otherwise, for any other status, false followed
    by the output buffer as a string (nil when the worker left none). *)
Theorem thread_join_outcome (u : nat) (rest : list lua_value) (w : world) :
  joined (thread w) = true \/
  fst (apr_thread_join (handle (thread w)) (os w)) = APR_SUCCESS ->
  (status (thread w) = TS_DONE ->
   forall buffer values,
     output (thread w) = Some buffer ->
     unserialize (c_str buffer) = Some values ->
     fst (invoke thread_join (LUserdata u :: rest) w) = Ok (LBoolean true :: values)) /\
  (status (thread w) <> TS_DONE ->
   fst (invoke thread_join (LUserdata u :: rest) w) =
   Ok [LBoolean false; value_of_cstring (output (thread w))]).
Proof.
  intros Hwait. destruct (thread_join_waited u rest w Hwait) as [-> _].
  unfold join_results. split.
  - intros Hs buffer values Ho Hv. rewrite Hs, Ho. cbn. rewrite Hv. reflexivity.
  - intros Hs. rewrite (status_not_done _ Hs). reflexivity.
Qed.

Lemma c_str_idempotent (s : string) : c_str (c_str s) = c_str s.
Proof.
  induction s as [|c s IH]; [reflexivity|].
  cbn. destruct (Ascii.eqb c Ascii.zero) eqn:Ec; [reflexivity|].
  cbn. rewrite Ec, IH. reflexivity.
Qed.

(** A worker that succeeds and a join that waits for it: join adds the
    success flag to the values that the buffer of the worker decodes to. *)
Lemma join_after_success (u : nat) (rest : list lua_value) (h : apr_thread_t)
  (w : world) f args callee results s values :
  decoded w f args ->
  load_callable f = inl callee ->
  call_value callee args = inl results ->
  serialize results = Some s ->
  unserialize (c_str s) = Some values ->
  joined (thread w) = false ->
  fst (apr_thread_join (handle (thread w)) (os w)) = APR_SUCCESS ->
  fst (invoke thread_join (LUserdata u :: rest) (snd (thread_runner h w))) =
  Ok (LBoolean true :: values).
Proof.
  intros Hd Hl Hc Hs Hv Hj Hw.
  rewrite (runner_success h w _ _ _ _ _ Hd Hl Hc Hs). cbn [snd].
  destruct (thread_join_waited u rest
              (worker_world w (Some (c_str s)) TS_DONE
                 (worker_setup (thread w) ++ load_events f
                  ++ [EvSetStatus TS_RUNNING; EvPcall true; EvSerialize]
                  ++ worker_finish true (thread w) (Some (c_str s)) TS_DONE h)))
    as [-> _].
  - right. exact Hw.
  - unfold join_results. cbn. rewrite c_str_idempotent, Hv. reflexivity.
Qed.

(** [thread_join] does not look at the status before it waits: on a handle
    that is detached and was never joined it calls the wait primitive. *)
Lemma thread_join_ignores_detach (u : nat) (rest : list lua_value) (w : world) :
  status (thread w) = TS_DETACH ->
  joined (thread w) = false ->
  exists evs,
    trace (snd (invoke thread_join (LUserdata u :: rest) w)) = trace w ++ evs /\
    join_calls evs =
    [(handle (thread w), fst (apr_thread_join (handle (thread w)) (os w)))].
Proof.
  intros Hs Hj. rewrite thread_join_eq, Hj. unfold join_results, decode_events.
  rewrite Hs. cbn [thread_status_eqb thread_status_index Nat.eqb].
  destruct (apr_thread_join (handle (thread w)) (os w)) as [st o].
  destruct (st =? APR_SUCCESS)%Z; eexists; split; reflexivity.
Qed.

(** The [joined] flag under each operation on a handle. *)
Lemma thread_join_joined (args : list lua_value) (w : world) :
  joined (thread (snd (invoke thread_join args w))) = joined (thread w) \/
  (joined (thread w) = false /\
   joined (thread (snd (invoke thread_join args w))) = true /\
   fst (apr_thread_join (handle (thread w)) (os w)) = APR_SUCCESS).
Proof.
  destruct args as [|v rest]; [left; reflexivity|].
  destruct v; try (left; reflexivity).
  rewrite thread_join_eq.
  destruct (joined (thread w)) eqn:Hj; [left; exact Hj|].
  destruct (apr_thread_join (handle (thread w)) (os w)) as [st o].
  destruct (Z.eqb_spec st APR_SUCCESS) as [->|Hst].
  - right. repeat split; reflexivity.
  - left. exact Hj.
Qed.

Lemma thread_status_joined (args : list lua_value) (w : world) :
  joined (thread (snd (invoke thread_status args w))) = joined (thread w).
Proof.
  destruct args as [|v rest]; [reflexivity|].
  destruct v; reflexivity.
Qed.

Lemma thread_detach_joined (args : list lua_value) (w : world) :
  joined (thread (snd (invoke thread_detach args w))) = joined (thread w).
Proof.
  destruct args as [|v rest]; [reflexivity|].
  destruct v; try reflexivity.
  rewrite thread_detach_eq.
  destruct (apr_thread_detach (handle (thread w)) (os w)) as [st o].
  destruct (st =? APR_SUCCESS)%Z; reflexivity.
Qed.

Lemma thread_gc_joined (args : list lua_value) (w : world) :
  joined (thread (snd (invoke thread_gc args w))) = joined (thread w).
Proof.
  destruct args as [|v rest]; [reflexivity|].
  destruct v; try reflexivity.
  rewrite thread_gc_eq.
  destruct (joined (thread w)) eqn:Hj; [exact Hj|].
  destruct (thread_status_eqb (status (thread w)) TS_DETACH); [exact Hj|].
  destruct (apr_thread_join (handle (thread w)) (os w)) as [st o]. exact Hj.
Qed.

Lemma thread_runner_joined (h : apr_thread_t) (w : world) :
  joined (thread (snd (thread_runner h w))) = joined (thread w).
Proof.
  destruct (thread_runner_run h w) as (r & w' & evs & E & _ & _ & Hj).
  rewrite E. exact Hj.
Qed.

Lemma run_op_joined (op : handle_op) (w : world) :
  joined (thread (run_op op w)) = joined (thread w) \/
  ((exists args, op = OpJoin args) /\
   joined (thread w) = false /\
   joined (thread (run_op op w)) = true /\
   fst (apr_thread_join (handle (thread w)) (os w)) = APR_SUCCESS).
Proof.
  destruct op as [args|args|args|args|h]; cbn [run_op].
  - destruct (thread_join_joined args w) as [E|E]; [left; exact E|].
    right. split; [exists args; reflexivity | exact E].
  - left. apply thread_status_joined.
  - left. apply thread_detach_joined.
  - left. apply thread_gc_joined.
  - left. apply thread_runner_joined.
Qed.

Lemma run_ops_joined (ops : list handle_op) (w : world) :
  joined (thread w) = true -> joined (thread (run_ops ops w)) = true.
Proof.
  revert w. induction ops as [|op ops IH]; intros w Hj; [exact Hj|].
  cbn [run_ops fold_left]. apply IH.
  destruct (run_op_joined op w) as [E|(_ & E & _)].
  - rewrite E. exact Hj.
  - rewrite Hj in E. discriminate E.
Qed.

(** C2: the [joined] flag of a handle only ever goes from false to true, and
    only in a call of join whose wait succeeds, so it does so once; a call
    of join on a handle whose flag is set returns what the call that set it
    returned, leaves the handle as it is and does not call the wait
    primitive.  And the flag does go to true: a call of join on a handle
    whose flag is not set, when the wait succeeds, calls the wait primitive
    once, returns the outcome read from the status and the output, and
    leaves the flag set, so that the next call returns the same outcome and
    does not wait. *)
Theorem thread_join_twice (u u' : nat) (rest rest' : list lua_value) (w : world) :
  (forall ops, joined (thread w) = true -> joined (thread (run_ops ops w)) = true) /\
  (forall op,
     joined (thread (run_op op w)) <> joined (thread w) ->
     (exists args, op = OpJoin args) /\
     joined (thread w) = false /\
     joined (thread (run_op op w)) = true /\
     fst (apr_thread_join (handle (thread w)) (os w)) = APR_SUCCESS) /\
  (forall r1 w1,
     invoke thread_join (LUserdata u :: rest) w = (r1, w1) ->
     joined (thread w1) = true ->
     exists evs,
       invoke thread_join (LUserdata u' :: rest') w1 =
       (r1, after_call w1 (thread w1) (os w1) evs) /\
       join_calls evs = []) /\
  (forall o,
     joined (thread w) = false ->
     apr_thread_join (handle (thread w)) (os w) = (APR_SUCCESS, o) ->
     exists evs1 evs2 w1,
       w1 = after_call w (mark_joined (thread w)) o evs1 /\
       invoke thread_join (LUserdata u :: rest) w = (join_results (thread w), w1) /\
       join_calls evs1 = [(handle (thread w), APR_SUCCESS)] /\
       joined (thread w1) = true /\
       invoke thread_join (LUserdata u' :: rest') w1 =
       (join_results (thread w), after_call w1 (thread w1) (os w1) evs2) /\
       join_calls evs2 = []).
Proof.
  split; [|split; [|split]].
  - intros ops. apply run_ops_joined.
  - intros op Hne. destruct (run_op_joined op w) as [E|E]; [contradiction|exact E].
  - intros r1 w1 E1 Hj1.
    assert (Hr1 : r1 = join_results (thread w1)).
    { rewrite thread_join_eq in E1.
      destruct (joined (thread w)) eqn:Hj.
      - injection E1 as <- <-. reflexivity.
      - destruct (apr_thread_join (handle (thread w)) (os w)) as [st o].
        destruct (st =? APR_SUCCESS)%Z; injection E1 as <- <-.
        + reflexivity.
        + cbn in Hj1. rewrite Hj in Hj1. discriminate Hj1. }
    rewrite thread_join_eq, Hj1, <- Hr1.
    eexists. split; [reflexivity|].
    destruct r1; unfold decode_events;
      [destruct (thread_status_eqb (status (thread w1)) TS_DONE)|]; reflexivity.
  - intros o Hj Hw.
    assert (Hquiet : join_calls
                       (match join_results (thread w) with
                        | Ok _ => decode_events (thread w)
                        | Abort _ => [EvUnserialize]
                        end) = []).
    { destruct (join_results (thread w)); unfold decode_events;
        [destruct (thread_status_eqb (status (thread w)) TS_DONE)|]; reflexivity. }
    eexists. eexists. eexists. split; [reflexivity|].
    split; [rewrite thread_join_eq, Hj, Hw, Z.eqb_refl; reflexivity|].
    split; [cbn [join_calls]; rewrite Hquiet; reflexivity|].
    split; [reflexivity|].
    rewrite thread_join_eq. cbn [after_call thread os mark_joined joined].
    change (join_results _) with (join_results (thread w)).
    split; [reflexivity|].
    change (decode_events _) with (decode_events (thread w)). exact Hquiet.
Qed.

(** C10: when the wait primitive reports an error, join returns nil and the
    message of the status, the [joined] flag stays false and the handle is
    as it was; the next call of join calls the wait primitive again and goes
    by its new answer. *)
Theorem thread_join_failure (u u' : nat) (rest rest' : list lua_value) (w : world)
  (st : apr_status_t) (o : OS) :
  joined (thread w) = false ->
  apr_thread_join (handle (thread w)) (os w) = (st, o) ->
  st <> APR_SUCCESS ->
  invoke thread_join (LUserdata u :: rest) w =
  (Ok [LNil; LString (apr_strerror st)],
   after_call w (thread w) o [EvJoin (handle (thread w)) st]) /\
  joined (thread (after_call w (thread w) o [EvJoin (handle (thread w)) st])) = false /\
  forall st' o',
    apr_thread_join (handle (thread w)) o = (st', o') ->
    exists r2 w2 evs,
      invoke thread_join (LUserdata u' :: rest')
        (after_call w (thread w) o [EvJoin (handle (thread w)) st]) = (r2, w2) /\
      os w2 = o' /\
      trace w2 = trace w ++ [EvJoin (handle (thread w)) st]
                 ++ EvJoin (handle (thread w)) st' :: evs /\
      join_calls evs = [] /\
      (st' = APR_SUCCESS -> r2 = join_results (thread w) /\ joined (thread w2) = true).
Proof.
  intros Hj Hwait Hst.
  assert (E1 : invoke thread_join (LUserdata u :: rest) w =
               (Ok [LNil; LString (apr_strerror st)],
                after_call w (thread w) o [EvJoin (handle (thread w)) st])).
  { rewrite thread_join_eq, Hj, Hwait.
    rewrite (proj2 (Z.eqb_neq _ _) Hst). reflexivity. }
  split; [exact E1|]. split; [exact Hj|].
  intros st' o' Hwait'.
  rewrite thread_join_eq. cbn [after_call thread os]. rewrite Hj, Hwait'.
  destruct (Z.eqb_spec st' APR_SUCCESS) as [->|Hst'].
  - eexists _, _, _. split; [reflexivity|].
    cbn [after_call os trace thread mark_joined joined].
    split; [reflexivity|]. split; [rewrite <- app_assoc; reflexivity|].
    split; [|intros _; split; reflexivity].
    destruct (join_results (thread w)); unfold decode_events;
      [destruct (thread_status_eqb (status (thread w)) TS_DONE)|]; reflexivity.
  - eexists _, _, []. split; [reflexivity|].
    cbn [after_call os trace thread].
    split; [reflexivity|]. split; [rewrite <- app_assoc; reflexivity|].
    split; [reflexivity | intros E; contradiction].
Qed.

(** C9: detach sets the status of the handle to TS_DETACH and returns true
    when [apr_thread_detach] succeeds; when it fails, detach returns nil and
    the message of the status and leaves the handle, its status and its
    [joined] flag as they were. *)
Theorem thread_detach_outcome (u : nat) (rest : list lua_value) (w : world)
  (st : apr_status_t) (o : OS) :
  apr_thread_detach (handle (thread w)) (os w) = (st, o) ->
  (st = APR_SUCCESS ->
   invoke thread_detach (LUserdata u :: rest) w =
   (Ok [LBoolean true],
    after_call w (with_status (thread w) TS_DETACH) o
      [EvDetach (handle (thread w)) st; EvSetStatus TS_DETACH])) /\
  (st <> APR_SUCCESS ->
   invoke thread_detach (LUserdata u :: rest) w =
   (Ok [LNil; LString (apr_strerror st)],
    after_call w (thread w) o [EvDetach (handle (thread w)) st])).
Proof.
  intros Hd. rewrite thread_detach_eq, Hd. split.
  - intros ->. rewrite Z.eqb_refl. reflexivity.
  - intros Hst. rewrite (proj2 (Z.eqb_neq _ _) Hst). reflexivity.
Qed.

End Supervisor.


(** ** Concrete runs *)

Section Examples.
#[local] Existing Instance Sample.refobj.
#[local] Existing Instance Sample.apr.
#[local] Existing Instance Sample.serializer.
#[local] Existing Instance Sample.interp_ok.

(** Spawning a function that returns (1, "two", true) and joining it gives
    (true, 1, "two", true). *)
Example join_returns_results :
  fst (invoke thread_join [LUserdata 0] (Sample.finished "return 1, 'two', true")) =
  Ok [LBoolean true; LNumber 1; LString "two"; LBoolean true].
Proof. vm_compute. reflexivity. Qed.

(** A function that raises "boom" gives false and a message with "boom". *)
Example join_returns_error :
  fst (invoke thread_join [LUserdata 0] (Sample.finished "error('boom')")) =
  Ok [LBoolean false; LString "boom stack traceback:"].
Proof. vm_compute. reflexivity. Qed.

(** C3 on the code: a thread function that raises an error value that is no
    string, as error({}) does, stops the worker in [strdup] on the NULL that
    [lua_tostring] gives: the only status the run stores is TS_RUNNING,
    neither TS_DONE nor TS_ERROR, and [apr_thread_exit] is never reached. *)
Example worker_stops_on_error_table :
  fst (thread_runner 7 (Sample.world_of [] (Sample.spawned "error({})") [])) =
  Abort Undefined /\
  status (thread (Sample.finished "error({})")) = TS_RUNNING /\
  status_writes (trace (Sample.finished "error({})")) = [TS_RUNNING] /\
  thread_exits (trace (Sample.finished "error({})")) = [].
Proof. vm_compute. repeat split; reflexivity. Qed.

Lemma thread_join_twice_witness :
  exists evs1 evs2 w1,
    w1 = after_call (Sample.finished "return 1, 'two', true")
           (mark_joined (thread (Sample.finished "return 1, 'two', true")))
           Sample.idle evs1 /\
    invoke thread_join [LUserdata 0] (Sample.finished "return 1, 'two', true") =
    (join_results (thread (Sample.finished "return 1, 'two', true")), w1) /\
    join_calls evs1 =
    [(handle (thread (Sample.finished "return 1, 'two', true")), APR_SUCCESS)] /\
    joined (thread w1) = true /\
    invoke thread_join [LUserdata 0] w1 =
    (join_results (thread (Sample.finished "return 1, 'two', true")),
     after_call w1 (thread w1) (os w1) evs2) /\
    join_calls evs2 = [].
Proof.
  apply (proj2 (proj2 (proj2 (thread_join_twice 0 0 [] []
                                (Sample.finished "return 1, 'two', true"))))
           Sample.idle).
  - vm_compute. reflexivity.
  - vm_compute. reflexivity.
Defined.

Lemma thread_join_outcome_witness :
  fst (invoke thread_join [LUserdata 0] (Sample.finished "return 1, 'two', true")) =
  Ok [LBoolean true; LNumber 1; LString "two"; LBoolean true].
Proof.
  assert (Hwait : joined (thread (Sample.finished "return 1, 'two', true")) = true \/
                  fst (apr_thread_join
                         (handle (thread (Sample.finished "return 1, 'two', true")))
                         (os (Sample.finished "return 1, 'two', true"))) = APR_SUCCESS)
    by (right; vm_compute; reflexivity).
  apply (proj1 (thread_join_outcome 0 [] _ Hwait)) with (buffer := Sample.results_buffer).
  all: vm_compute; reflexivity.
Defined.

Lemma thread_runner_terminal_status_witness :
  exists w',
    thread_runner 7 (Sample.world_of [] (Sample.spawned "return 1, 'two', true") []) =
    (Ok tt, w') /\
    status (thread w') = TS_DONE.
Proof.
  apply (proj1 (thread_runner_terminal_status 7
                  (Sample.world_of [] (Sample.spawned "return 1, 'two', true") []))
           Success (Some (c_str Sample.results_buffer))).
  apply (CaseSuccess _ (LString "return 1, 'two', true") [] (LFunction 1)
           [LNumber 1; LString "two"; LBoolean true] Sample.results_buffer).
  - repeat split; vm_compute; reflexivity.
  - vm_compute; reflexivity.
  - vm_compute; reflexivity.
  - vm_compute; reflexivity.
Defined.

(** C4 on the code: join on a detached handle that was never joined calls the
    wait primitive on the detached thread, and when the primitive answers
    with success the handle counts as joined; the finalizer, on the same
    handle, does not wait. *)
Theorem thread_join_waits_on_detached :
  status (thread (Sample.detached_world [])) = TS_DETACH /\
  join_calls (trace (snd (invoke thread_join [LUserdata 0] (Sample.detached_world []))))
  = [(Some 3, APR_SUCCESS)] /\
  fst (invoke thread_join [LUserdata 0] (Sample.detached_world [])) =
  Ok [LBoolean false; LNil] /\
  joined (thread (snd (invoke thread_join [LUserdata 0] (Sample.detached_world []))))
  = true /\
  join_calls (trace (snd (invoke thread_join [LUserdata 0] (Sample.detached_world [22%Z]))))
  = [(Some 3, 22%Z)] /\
  join_calls (trace (snd (invoke thread_gc [LUserdata 0] (Sample.detached_world []))))
  = [].
Proof. vm_compute. repeat split; reflexivity. Qed.

(** C5 as stated fails for the first step: a function or argument that the
    serialization service refuses makes the service raise a Lua error, which
    leaves apr.thread before any handle exists; nothing is returned. *)
Lemma lua_apr_thread_serialization_raises :
  invoke lua_apr_thread [LUserdata 9] (Sample.spawning_world []) =
  (Abort LuaError,
   after_call (Sample.spawning_world []) (thread (Sample.spawning_world []))
     Sample.idle [EvSerialize]).
Proof. vm_compute. reflexivity. Qed.

Lemma lua_apr_thread_failure_witness :
  exists r w' evs,
    invoke lua_apr_thread [LString "return 1, 'two', true"] (Sample.spawning_world [5%Z])
    = (Ok r, w') /\
    trace w' = trace (Sample.spawning_world [5%Z]) ++ evs /\
    ((r = [LUserdata 0] /\
      evs = [EvSerialize; EvNewObject true; EvSetStatus TS_INIT;
             EvPoolCreate APR_SUCCESS; EvAttrCreate APR_SUCCESS;
             EvThreadCreate APR_SUCCESS])
     \/
     (exists st,
        r = [LNil; LString (apr_strerror st)] /\
        (forall u, ~ In (LUserdata u) r) /\
        ((st = APR_ENOMEM /\
          evs = [EvSerialize; EvNewObject false] /\
          thread w' = thread (Sample.spawning_world [5%Z]))
         \/
         (exists steps,
            st <> APR_SUCCESS /\
            (steps = [EvPoolCreate st] \/
             steps = [EvPoolCreate APR_SUCCESS; EvAttrCreate st] \/
             steps = [EvPoolCreate APR_SUCCESS; EvAttrCreate APR_SUCCESS;
                      EvThreadCreate st]) /\
            evs = [EvSerialize; EvNewObject true; EvSetStatus TS_INIT] ++ steps
                  ++ destroy_events (header (thread (Sample.spawning_world [5%Z])))
                       (output (thread (Sample.spawning_world [5%Z]))) /\
            header (thread w') =
            release_object (header (thread (Sample.spawning_world [5%Z]))))))).
Proof.
  apply (lua_apr_thread_failure [LString "return 1, 'two', true"]
           (Sample.spawning_world [5%Z])
           (String "s" (String.append "return 1, 'two', true"
                          (String Sample.newline EmptyString)))).
  vm_compute; reflexivity.
Defined.

(** A failed creation of the memory pool, as it is returned. *)
Example spawn_pool_failure :
  fst (invoke lua_apr_thread [LString "return 1, 'two', true"]
         (Sample.spawning_world [5%Z])) =
  Ok [LNil; LString "APR error 5"].
Proof. vm_compute. reflexivity. Qed.



(** C7 as stated fails: after a success the buffer is the serialization of
    the results, and not that of true followed by the results. *)
Lemma worker_output_has_no_success_flag :
  status (thread (Sample.finished "return 1, 'two', true")) = TS_DONE /\
  output (thread (Sample.finished "return 1, 'two', true")) =
  serialize [LNumber 1; LString "two"; LBoolean true] /\
  output (thread (Sample.finished "return 1, 'two', true")) <>
  serialize [LBoolean true; LNumber 1; LString "two"; LBoolean true].
Proof.
  split; [vm_compute; reflexivity|]. split; [vm_compute; reflexivity|].
  intros E. vm_compute in E. discriminate E.
Qed.

Lemma worker_output_buffer_witness :
  exists w' evs,
    thread_runner 7 (Sample.world_of [] (Sample.spawned "return 1, 'two', true") []) =
    (Ok tt, w') /\
    trace w' =
    trace (Sample.world_of [] (Sample.spawned "return 1, 'two', true") [])
    ++ evs ++ [EvThreadExit 7 APR_SUCCESS] /\
    status (thread w') = kind_status Success /\
    output (thread w') = Some (c_str Sample.results_buffer) /\
    output_writes evs = [Some (c_str Sample.results_buffer)].
Proof.
  apply (worker_output_buffer 7
           (Sample.world_of [] (Sample.spawned "return 1, 'two', true") [])
           Success).
  apply (CaseSuccess _ (LString "return 1, 'two', true") [] (LFunction 1)
           [LNumber 1; LString "two"; LBoolean true] Sample.results_buffer).
  - repeat split; vm_compute; reflexivity.
  - vm_compute; reflexivity.
  - vm_compute; reflexivity.
  - vm_compute; reflexivity.
Defined.

Lemma thread_detach_outcome_witness :
  invoke thread_detach [LUserdata 0]
    (Sample.world_of [] (Sample.spawned "return 1, 'two', true") [22%Z]) =
  (Ok [LNil; LString (apr_strerror 22%Z)],
   after_call (Sample.world_of [] (Sample.spawned "return 1, 'two', true") [22%Z])
     (Sample.spawned "return 1, 'two', true") Sample.idle [EvDetach (Some 3) 22%Z]).
Proof.
  assert (Hd : apr_thread_detach
                 (handle (thread (Sample.world_of []
                                    (Sample.spawned "return 1, 'two', true") [22%Z])))
                 (os (Sample.world_of [] (Sample.spawned "return 1, 'two', true") [22%Z]))
               = (22%Z, Sample.idle))
    by (vm_compute; reflexivity).
  apply (proj2 (thread_detach_outcome 0 [] _ 22%Z Sample.idle Hd)).
  discriminate.
Defined.

Lemma thread_join_failure_witness :
  invoke thread_join [LUserdata 0]
    (Sample.world_of [] (Sample.spawned "return 1, 'two', true") [22%Z]) =
  (Ok [LNil; LString (apr_strerror 22%Z)],
   after_call (Sample.world_of [] (Sample.spawned "return 1, 'two', true") [22%Z])
     (Sample.spawned "return 1, 'two', true") Sample.idle [EvJoin (Some 3) 22%Z]).
Proof.
  assert (Hj : joined (thread (Sample.world_of []
                                 (Sample.spawned "return 1, 'two', true") [22%Z]))
               = false)
    by (vm_compute; reflexivity).
  assert (Hw : apr_thread_join
                 (handle (thread (Sample.world_of []
                                    (Sample.spawned "return 1, 'two', true") [22%Z])))
                 (os (Sample.world_of [] (Sample.spawned "return 1, 'two', true") [22%Z]))
               = (22%Z, Sample.idle))
    by (vm_compute; reflexivity).
  assert (Hst : 22%Z <> APR_SUCCESS) by discriminate.
  apply (proj1 (thread_join_failure 0 0 [] [] _ 22%Z Sample.idle Hj Hw Hst)).
Defined.
End Examples.

(** * More of src/thread.c: the observers, the error handler, the
      references and the whole life of a thread *)

(** Symbolic execution of [lua_apr_thread] with the setters of the package
    fields kept folded, for the lemmas on [get_package_value]. *)
Ltac run_thread :=
  cbv beta iota zeta delta
    [bind ret raise get_world emit set_stack set_thread set_os
     lua_gettop lua_settop lua_pop lua_push lua_pushstring lua_pushboolean
     lua_pushinteger lua_pushvalue lua_isstring lua_istable lua_isfunction
     lua_tostring lua_getglobal lua_getfield lua_setfield lua_replace
     strdup set_status set_output set_joined set_header
     set_pool set_attr set_handle set_input
     lua_apr_serialize lua_apr_unserialize push_error_status
     lua_tolstring invoke new_object thread_destroy lua_apr_thread_fail];
  cbn -[Z.sub Z.to_nat c_str returned Z.eqb APR_SUCCESS get_package_value
        set_config set_path set_cpath];
  change (1 =? 0)%Z with false; change (0 =? 0)%Z with true;
  cbn [negb].

Ltac copy_package w :=
  destruct (globals w "package"%string) as [| | | |fields| | |]; run_thread;
  rewrite ?get_package_config; run_thread;
  rewrite ?get_package_path; run_thread;
  rewrite ?get_package_cpath; run_thread.

(** ** thread:status() and tostring(thread) *)

Section Observers.
Context `{RefObj} `{Apr} `{Interp} `{Serializer}.

(** X1: thread:status() only reads the handle: it returns one of the five
    names of [status_names] and leaves the handle, the operating system and
    the calls made as they are; and the names tell the statuses apart: two
    calls return the same string exactly when the two handles hold the same
    status. *)
Theorem thread_status_reads_status (u u' : nat) (rest rest' : list lua_value)
  (w w' : world) :
  (exists name, In name status_names /\
     invoke thread_status (LUserdata u :: rest) w = (Ok [LString name], w)) /\
  (fst (invoke thread_status (LUserdata u :: rest) w) =
   fst (invoke thread_status (LUserdata u' :: rest') w') <->
   status (thread w) = status (thread w')).
Proof.
  rewrite !thread_status_name. cbn [fst]. split.
  - eexists. split; [|reflexivity].
    destruct (status (thread w)); cbn; auto 10.
  - split.
    + destruct (status (thread w)), (status (thread w')); cbn; intros E;
        (reflexivity || discriminate E).
    + intros ->. reflexivity.
Qed.

(** X2: tostring(thread) is the friendly name of the type followed by what
    thread:status() returns, in brackets: "thread (running)"; it changes
    nothing either. *)
Theorem thread_tostring_status (u : nat) (rest : list lua_value) (w : world) :
  exists name,
    invoke thread_status (LUserdata u :: rest) w = (Ok [LString name], w) /\
    invoke thread_tostring (LUserdata u :: rest) w =
    (Ok [LString ("thread (" ++ name ++ ")")%string], w).
Proof.
  eexists. split; [apply thread_status_name|].
  unfold thread_tostring, lua_pushfstring_s_s, invoke. run_model.
  change (LUserdata u :: rest ++ ?x) with ((LUserdata u :: rest) ++ x).
  rewrite returned_one, world_eta.
  destruct (status (thread w)); reflexivity.
Qed.
End Observers.

(** ** The error handler *)

Section Handler.
Context `{RefObj} `{Apr} `{Interp} `{Serializer}.

(** X3: the error handler hands the error value back as it is, and calls
    nothing, when the value is neither a string nor a number, when the
    global [debug] is not a table, or when [debug.traceback] is not a
    function. *)
Theorem error_handler_keeps_message (e : lua_value) (w : world) :
  value_isstring e = false \/
  value_istable (globals w "debug"%string) = false \/
  (exists fields, globals w "debug"%string = LTable fields /\
     value_isfunction (table_get fields "traceback") = false) ->
  invoke error_handler [e] w = (Ok [e], w).
Proof.
  intros Hcase. unfold invoke. run_model.
  destruct (value_isstring e) eqn:He; cbn.
  2: { rewrite world_eta. reflexivity. }
  destruct Hcase as [Hs|[Hd|(fields & Hd & Hf)]]; [discriminate Hs| |].
  - destruct (globals w "debug"%string); try discriminate Hd; cbn;
      rewrite world_eta; reflexivity.
  - rewrite Hd. cbn. rewrite Hf. cbn. rewrite world_eta. reflexivity.
Qed.

(** X4: for a message that is a string or a number, with [debug.traceback]
    a function, the error handler calls [debug.traceback(message, 2)] and
    returns its first result alone (nil when it has none); an error of
    [debug.traceback] leaves the handler as a Lua error. *)
Theorem error_handler_traceback (e : lua_value) (w : world)
  (fields : list (string * lua_value)) :
  value_isstring e = true ->
  globals w "debug"%string = LTable fields ->
  value_isfunction (table_get fields "traceback") = true ->
  invoke error_handler [e] w =
  (match call_value (table_get fields "traceback") [e; LNumber 2] with
   | inl results => Ok [hd LNil results]
   | inr _ => Abort LuaError
   end, w).
Proof.
  intros He Hd Hf. unfold invoke. run_model.
  rewrite He. cbn. rewrite Hd. cbn. rewrite Hf. cbn.
  destruct (call_value (table_get fields "traceback") [e; LNumber 2]);
    cbn; rewrite world_eta; reflexivity.
Qed.
End Handler.

(** ** Runs of the worker that stop early *)

Section Crashes.
Context `{RefObj} `{Apr} `{Interp} `{Serializer}.

Lemma handled_error_not_string g e :
  value_isstring e = false -> pcall_message g e = e /\ value_tostring e = None.
Proof.
  intros He. unfold pcall_message, handled_error. rewrite He. cbn.
  split; [reflexivity|]. destruct e; (reflexivity || discriminate He).
Qed.

(** X5: when the thread function raises an error value that is neither a
    string nor a number (a table, nil, a boolean), [lua_tostring] gives NULL
    for it and the worker hands NULL to [strdup]: the run stops there, after
    the protected call, with TS_RUNNING in the handle and the output not
    written, and without closing the interpreter, releasing the handle or
    leaving the thread. *)
Theorem worker_error_value_not_string (h : apr_thread_t) (w : world)
  (f : lua_value) (args : list lua_value) (callee e : lua_value) :
  decoded w f args ->
  load_callable f = inl callee ->
  call_value callee args = inr e ->
  value_isstring e = false ->
  exists w', thread_runner h w = (Abort Undefined, w') /\
    trace w' = trace w ++ worker_setup (thread w) ++ load_events f
               ++ [EvSetStatus TS_RUNNING; EvPcall false] /\
    status (thread w') = TS_RUNNING /\
    output (thread w') = output (thread w).
Proof.
  intros Hd Hl Hc He.
  destruct (handled_error_not_string (globals w) e He) as [Hm Hn].
  rewrite <- Hm in Hn.
  destruct (runner_crash_error_value h w f args callee e Hd Hl Hc Hn)
    as (w' & E & Ht & Hs & Ho & _).
  exists w'. auto.
Qed.

(** X6: when the input of the handle does not decode, [lua_apr_unserialize]
    raises its error in the worker outside any protected call (the FIXME of
    the code): the run stops after the set-up of the interpreter, and the
    status and the output of the handle are never written. *)
Theorem worker_undecodable_input (h : apr_thread_t) (w : world) :
  luaL_newstate_ok = true ->
  value_istable (globals w "package"%string) = true ->
  decode_input w = None ->
  exists w', thread_runner h w = (Abort LuaError, w') /\
    trace w' = trace w ++ worker_setup (thread w) /\
    status (thread w') = status (thread w) /\
    output (thread w') = output (thread w).
Proof.
  intros Hn Hp Hu.
  destruct (runner_crash_undecoded h w Hn Hp Hu) as (w' & E & Ht & Hs & Ho & _).
  exists w'. auto.
Qed.
End Crashes.

(** ** References and buffers *)

Section References.
Context `{RefObj} `{Apr} `{Interp} `{Serializer}.

Lemma frees_app a b : frees (a ++ b) = frees a ++ frees b.
Proof.
  induction a as [|e a IH]; [reflexivity|].
  destruct e; cbn; rewrite ?IH; reflexivity.
Qed.

Lemma releases_app a b : releases (a ++ b) = releases a + releases b.
Proof.
  induction a as [|e a IH]; [reflexivity|].
  destruct e; cbn; rewrite ?IH; reflexivity.
Qed.

Lemma increfs_app a b : increfs (a ++ b) = increfs a + increfs b.
Proof.
  induction a as [|e a IH]; [reflexivity|].
  destruct e; cbn; rewrite ?IH; reflexivity.
Qed.

(** The references a run of the worker takes and gives back. *)
Lemma thread_runner_references (h : apr_thread_t) (w : world) :
  exists evs,
    trace (snd (thread_runner h w)) = trace w ++ evs /\
    hd_error evs = Some EvIncref /\
    increfs evs = 1 /\
    match fst (thread_runner h w) with
    | Ok _ =>
        releases evs = 1 /\
        frees evs =
        (if object_collectable (object_incref (header (thread w)))
         then [output (thread (snd (thread_runner h w)))] else [])
    | Abort _ => releases evs = 0 /\ frees evs = []
    end.
Proof.
  destruct (thread_runner_run h w) as (r & w' & evs & E & Ht & Hrun & _).
  rewrite E. cbn [fst snd]. exists evs. split; [exact Ht|].
  destruct Hrun; explicit_run; cbn; repeat split; reflexivity.
Qed.

(** A call of join leaves the references and the buffers of the handle as
    they are. *)
Lemma thread_join_references (u : nat) (rest : list lua_value) (w : world) :
  exists evs,
    trace (snd (invoke thread_join (LUserdata u :: rest) w)) = trace w ++ evs /\
    increfs evs = 0 /\ releases evs = 0 /\ frees evs = [] /\
    header (thread (snd (invoke thread_join (LUserdata u :: rest) w)))
    = header (thread w) /\
    output (thread (snd (invoke thread_join (LUserdata u :: rest) w)))
    = output (thread w).
Proof.
  rewrite thread_join_eq. unfold decode_events.
  destruct (joined (thread w)).
  - eexists. split; [reflexivity|].
    destruct (join_results (thread w));
      [destruct (thread_status_eqb (status (thread w)) TS_DONE)|];
      repeat split; reflexivity.
  - destruct (apr_thread_join (handle (thread w)) (os w)) as [st o].
    destruct (st =? APR_SUCCESS)%Z.
    + eexists. split; [reflexivity|].
      destruct (join_results (thread w));
        [destruct (thread_status_eqb (status (thread w)) TS_DONE)|];
        repeat split; reflexivity.
    + eexists. split; [reflexivity|]. repeat split; reflexivity.
Qed.

(** The finalizer gives back one reference, and frees the output buffer when
    that reference was the last one. *)
Lemma thread_gc_references (u : nat) (rest : list lua_value) (w : world) :
  exists evs,
    trace (snd (invoke thread_gc (LUserdata u :: rest) w)) = trace w ++ evs /\
    increfs evs = 0 /\ releases evs = 1 /\
    frees evs =
    (if object_collectable (header (thread w)) then [output (thread w)] else []).
Proof.
  rewrite thread_gc_eq. unfold destroy_events.
  destruct (joined (thread w)).
  - eexists. split; [reflexivity|].
    destruct (object_collectable (header (thread w))); repeat split; reflexivity.
  - destruct (thread_status_eqb (status (thread w)) TS_DETACH).
    + eexists. split; [reflexivity|].
      destruct (object_collectable (header (thread w))); repeat split; reflexivity.
    + destruct (apr_thread_join (handle (thread w)) (os w)) as [st o].
      eexists. split; [reflexivity|].
      destruct (st =? APR_SUCCESS)%Z;
        [destruct (thread_status_eqb (status (thread w)) TS_ERROR)|];
        destruct (object_collectable (header (thread w))); repeat split; reflexivity.
Qed.

(** A run of the worker that gets to its end, and the handle it leaves. *)
Lemma worker_case_run (h : apr_thread_t) (w : world) (k : run_kind)
  (out : option string) :
  worker_case w k out ->
  exists w1,
    thread_runner h w = (Ok tt, w1) /\
    header (thread w1) = release_object (object_incref (header (thread w))) /\
    output (thread w1) = out.
Proof.
  intros Hk.
  destruct Hk as [Hn|f args message m Hd Hl Hm
                 |f args callee e m Hd Hl Hc Hm
                 |f args callee results s Hd Hl Hc Hs].
  - eexists. split; [apply (runner_create_failure h w Hn)|]. split; reflexivity.
  - eexists. split; [apply (runner_compile_failure h w _ _ _ _ Hd Hl Hm)|].
    split; reflexivity.
  - eexists. split; [apply (runner_runtime_error h w _ _ _ _ _ Hd Hl Hc Hm)|].
    split; reflexivity.
  - eexists. split; [apply (runner_success h w _ _ _ _ _ Hd Hl Hc Hs)|].
    split; reflexivity.
Qed.

(** X7: every run of the worker starts by taking one reference to the
    handle, and takes no other.  A run that gets to its end gives the
    reference back once, and frees the output buffer it has just stored
    exactly when its reference was the last one; a run that stops early
    never gives its reference back and frees nothing. *)
Theorem worker_reference_balance (h : apr_thread_t) (w : world) :
  exists evs,
    trace (snd (thread_runner h w)) = trace w ++ evs /\
    hd_error evs = Some EvIncref /\
    increfs evs = 1 /\
    match fst (thread_runner h w) with
    | Ok _ =>
        releases evs = 1 /\
        frees evs =
        (if object_collectable (object_incref (header (thread w)))
         then [output (thread (snd (thread_runner h w)))] else [])
    | Abort _ => releases evs = 0 /\ frees evs = []
    end.
Proof.
  destruct (thread_runner_run h w) as (r & w' & evs & E & Ht & Hrun & _).
  rewrite E. cbn [fst snd]. exists evs. split; [exact Ht|].
  destruct Hrun; explicit_run; cbn; repeat split; reflexivity.
Qed.

(** X8: on a handle that is busy ([thread_busy]: TS_INIT or TS_RUNNING) when
    the worker starts, the handle has stopped being busy exactly when the
    worker has got to its end; after a run that stopped early the handle
    stays busy, so thread:status() keeps reading init or running. *)
Theorem worker_busy_until_exit (h : apr_thread_t) (w : world) :
  thread_busy (thread w) = true ->
  thread_busy (thread (snd (thread_runner h w))) =
  match fst (thread_runner h w) with
  | Ok _ => false
  | Abort _ => true
  end.
Proof.
  intros Hb.
  destruct (thread_runner_run h w) as (r & w' & evs & E & Ht & Hrun & _).
  rewrite E. cbn [fst snd]. unfold thread_busy in *.
  destruct Hrun; try reflexivity. exact Hb.
Qed.
End References.

(** ** From apr.thread to the worker and back to join *)

Section Pipeline.
Context `{RefObj} `{Apr} `{Interp} `{Serializer}.

(** A call of apr.thread all of whose steps succeed. *)
Lemma lua_apr_thread_success (args : list lua_value) (w : world) (buffer : string)
  (p : option apr_pool_t) (a : option apr_threadattr_t) (hd : option apr_thread_t)
  (o1 o2 o3 : OS) :
  serialize args = Some buffer ->
  new_object_ok = true ->
  apr_pool_create (os w) = (APR_SUCCESS, p, o1) ->
  apr_threadattr_create p o1 = (APR_SUCCESS, a, o2) ->
  apr_thread_create a p o2 = (APR_SUCCESS, hd, o3) ->
  invoke lua_apr_thread args w =
  (Ok [LUserdata 0],
   after_call w (spawned_handle (thread w) buffer (globals w "package"%string) p a hd)
     o3 spawn_events).
Proof.
  intros Hs Hn Hp Ha Hc.
  unfold invoke, lua_apr_thread, after_call, spawned_handle, package_field, spawn_events.
  run_thread. rewrite Hs. run_thread. rewrite Hn. run_thread.
  rewrite Hp. run_thread. rewrite ?Z.eqb_refl. run_thread.
  copy_package w.
  all: rewrite Ha; run_thread; rewrite ?Z.eqb_refl; run_thread.
  all: rewrite Hc; run_thread; rewrite ?Z.eqb_refl; run_thread.
  all: rewrite <- ?app_assoc; reflexivity.
Qed.

(** X9: a call of apr.thread all of whose steps succeed returns the handle
    alone and leaves the stack of the caller as it was.  The handle holds
    TS_INIT, the pool, attribute and native thread that APR gave, and as its
    input the serialized arguments as a C string (cut at a first NUL byte);
    it holds the [config], [path] and [cpath] of the caller's [package]
    table where these are strings or numbers, and keeps what the new object
    held where they are not, or where [package] is no table; the output and
    the [joined] flag are not written. *)
Theorem lua_apr_thread_handle (args : list lua_value) (w : world) (buffer : string)
  (p : option apr_pool_t) (a : option apr_threadattr_t) (hd : option apr_thread_t)
  (o1 o2 o3 : OS) :
  serialize args = Some buffer ->
  new_object_ok = true ->
  apr_pool_create (os w) = (APR_SUCCESS, p, o1) ->
  apr_threadattr_create p o1 = (APR_SUCCESS, a, o2) ->
  apr_thread_create a p o2 = (APR_SUCCESS, hd, o3) ->
  exists w',
    invoke lua_apr_thread args w = (Ok [LUserdata 0], w') /\
    stack w' = stack w /\
    os w' = o3 /\
    status (thread w') = TS_INIT /\
    input (thread w') = Some (c_str buffer) /\
    pool (thread w') = p /\ attr (thread w') = a /\ handle (thread w') = hd /\
    output (thread w') = output (thread w) /\
    joined (thread w') = joined (thread w) /\
    header (thread w') = header (thread w) /\
    (forall fields,
       globals w "package"%string = LTable fields ->
       config (thread w') = copy_field (table_get fields "config") (config (thread w)) /\
       path (thread w') = copy_field (table_get fields "path") (path (thread w)) /\
       cpath (thread w') = copy_field (table_get fields "cpath") (cpath (thread w))) /\
    (value_istable (globals w "package"%string) = false ->
     config (thread w') = config (thread w) /\
     path (thread w') = path (thread w) /\
     cpath (thread w') = cpath (thread w)).
Proof.
  intros Hs Hn Hp Ha Hc.
  eexists. split; [apply (lua_apr_thread_success _ _ _ _ _ _ _ _ _ Hs Hn Hp Ha Hc)|].
  cbn [after_call spawned_handle stack os thread status input pool attr handle output
       joined header config path cpath].
  repeat (split; [reflexivity|]). split.
  - intros fields Hg. rewrite Hg. repeat split; reflexivity.
  - intros Hg. destruct (globals w "package"%string); try discriminate Hg;
      repeat split; reflexivity.
Qed.

(** Every run of a worker that has an interpreter with a [package] table
    starts with the calls of [worker_setup]. *)
Lemma thread_runner_setup (h : apr_thread_t) (w : world) :
  luaL_newstate_ok = true ->
  value_istable (globals w "package"%string) = true ->
  exists r w' evs,
    thread_runner h w = (r, w') /\
    trace w' = trace w ++ worker_setup (thread w) ++ evs.
Proof.
  intros Hn Hp.
  destruct (decode_input w) as [[|f args]|] eqn:Hu.
  3: { destruct (runner_crash_undecoded h w Hn Hp Hu) as (w' & E & Ht & _).
       exists (Abort LuaError), w', []. rewrite app_nil_r. auto. }
  1: { destruct (runner_crash_no_function h w Hn Hp Hu) as (w' & E & Ht & _).
       eexists _, w', _. split; [exact E | exact Ht]. }
  assert (Hd : decoded w f args) by (repeat split; assumption).
  destruct (load_callable f) as [callee|message] eqn:Hl.
  2: { destruct (value_tostring message) as [m|] eqn:Hm.
       - eexists _, _, _.
         split; [apply (runner_compile_failure h w f args message m Hd Hl Hm)|].
         reflexivity.
       - destruct (runner_crash_compile_message h w f args message Hd Hl Hm)
           as (w' & E & Ht & _).
         eexists _, w', _. split; [exact E | exact Ht]. }
  destruct (call_value callee args) as [results|e] eqn:Hc.
  - destruct (serialize results) as [buffer|] eqn:Hs'.
    + eexists _, _, _.
      split; [apply (runner_success h w f args callee results buffer Hd Hl Hc Hs')|].
      reflexivity.
    + destruct (runner_crash_serialize h w f args callee results Hd Hl Hc Hs')
        as (w' & E & Ht & _).
      eexists _, w', _. split; [exact E | exact Ht].
  - destruct (value_tostring (pcall_message (globals w) e)) as [m|] eqn:Hm.
    + eexists _, _, _.
      split; [apply (runner_runtime_error h w f args callee e m Hd Hl Hc Hm)|].
      reflexivity.
    + destruct (runner_crash_error_value h w f args callee e Hd Hl Hc Hm)
        as (w' & E & Ht & _).
      eexists _, w', _. split; [exact E | exact Ht].
Qed.

(** X10: the worker gives its interpreter the [package.config],
    [package.path] and [package.cpath] of the state that called apr.thread:
    when these are strings there, every run of the worker on the new handle
    in which the interpreter is created (with its own [package] table)
    starts by storing them, as C strings, in the [package] table of the new
    state, before the error handler is pushed and the input decoded. *)
Theorem worker_package_from_parent (args : list lua_value) (w : world)
  (buffer : string) (p : option apr_pool_t) (a : option apr_threadattr_t)
  (hd : option apr_thread_t) (o1 o2 o3 : OS)
  (fields : list (string * lua_value)) (c pth cp : string)
  (g : string -> lua_value) (st : list lua_value) (h : apr_thread_t) :
  serialize args = Some buffer ->
  new_object_ok = true ->
  apr_pool_create (os w) = (APR_SUCCESS, p, o1) ->
  apr_threadattr_create p o1 = (APR_SUCCESS, a, o2) ->
  apr_thread_create a p o2 = (APR_SUCCESS, hd, o3) ->
  globals w "package"%string = LTable fields ->
  table_get fields "config" = LString c ->
  table_get fields "path" = LString pth ->
  table_get fields "cpath" = LString cp ->
  luaL_newstate_ok = true ->
  value_istable (g "package"%string) = true ->
  exists w1 r w2 evs,
    invoke lua_apr_thread args w = (Ok [LUserdata 0], w1) /\
    thread_runner h (in_state g st w1) = (r, w2) /\
    trace w2 =
    trace w1 ++
    [EvIncref; EvNewState true; EvOpenLibs;
     EvSetField "config" (LString (c_str c));
     EvSetField "path" (LString (c_str pth));
     EvSetField "cpath" (LString (c_str cp));
     EvPushHandler; EvUnserialize] ++ evs.
Proof.
  intros Hs Hn Hp Ha Hc Hg Hconfig Hpath Hcpath Hstate Hpackage.
  eexists.
  destruct (thread_runner_setup h
              (in_state g st
                 (after_call w
                    (spawned_handle (thread w) buffer (globals w "package"%string) p a hd)
                    o3 spawn_events)) Hstate Hpackage)
    as (r & w2 & evs & E & Ht).
  exists r, w2, evs.
  split; [apply (lua_apr_thread_success _ _ _ _ _ _ _ _ _ Hs Hn Hp Ha Hc)|].
  split; [exact E|].
  rewrite Ht. unfold worker_setup.
  cbn [in_state after_call spawned_handle thread trace config path cpath].
  rewrite Hg. cbn [package_field]. rewrite Hconfig, Hpath, Hcpath.
  cbn [copy_field value_isstring value_tostring apr_pstrdup value_of_cstring].
  rewrite !c_str_idempotent. reflexivity.
Qed.

(** X11: the whole way of a successful thread.  When the serialization
    service returns, through a C string, the function and arguments it was
    given, and likewise the results, and every step of APR succeeds, then
    apr.thread(f, ...) returns the handle, the worker started on it calls
    [f] (compiled first when it is source text) on the arguments and gets to
    its end, and a join on the handle from the calling state returns true
    followed by the results of [f]. *)
Theorem spawn_run_join_round_trip (f : lua_value) (args results : list lua_value)
  (w : world) (buffer s : string)
  (p : option apr_pool_t) (a : option apr_threadattr_t) (hd : option apr_thread_t)
  (o1 o2 o3 : OS) (g : string -> lua_value) (st : list lua_value)
  (h : apr_thread_t) (callee : lua_value) (u : nat) (rest : list lua_value) :
  serialize (f :: args) = Some buffer ->
  unserialize (c_str buffer) = Some (f :: args) ->
  new_object_ok = true ->
  apr_pool_create (os w) = (APR_SUCCESS, p, o1) ->
  apr_threadattr_create p o1 = (APR_SUCCESS, a, o2) ->
  apr_thread_create a p o2 = (APR_SUCCESS, hd, o3) ->
  luaL_newstate_ok = true ->
  value_istable (g "package"%string) = true ->
  load_callable f = inl callee ->
  call_value callee args = inl results ->
  serialize results = Some s ->
  unserialize (c_str s) = Some results ->
  fst (apr_thread_join hd o3) = APR_SUCCESS ->
  exists w1 w2,
    invoke lua_apr_thread (f :: args) w = (Ok [LUserdata 0], w1) /\
    thread_runner h (in_state g st w1) = (Ok tt, w2) /\
    fst (invoke thread_join (LUserdata u :: rest)
           (in_state (globals w) (stack w) w2)) =
    Ok (LBoolean true :: results).
Proof.
  intros Hs Hu Hn Hp Ha Hc Hstate Hpackage Hl Hcall Hs' Hu' Hwait.
  eexists. eexists.
  split; [apply (lua_apr_thread_success _ _ _ _ _ _ _ _ _ Hs Hn Hp Ha Hc)|].
  assert (Hd : decoded
                 (in_state g st
                    (after_call w
                       (spawned_handle (thread w) buffer (globals w "package"%string)
                          p a hd) o3 spawn_events)) f args).
  { unfold decoded, decode_input. cbn. rewrite c_str_idempotent. auto. }
  split; [apply (runner_success h _ f args callee results s Hd Hl Hcall Hs')|].
  match goal with
  | |- fst (invoke thread_join _ ?w2) = _ =>
      destruct (thread_join_waited u rest w2) as [-> _]
  end.
  - right. exact Hwait.
  - unfold join_results. cbn. rewrite c_str_idempotent, Hu'. reflexivity.
Qed.
End Pipeline.

(** ** After the worker: join and the finalizer *)

Section Collector.
Context `{RefObj} `{Apr} `{Interp} `{Serializer}.

(** X12: a worker that ends with a failure (no interpreter, a function that
    does not compile, an error of the function) and a join that waits for
    it: join returns false, not nil, followed by the message the worker
    stored, as a string. *)
Theorem join_after_failure (u : nat) (rest : list lua_value) (h : apr_thread_t)
  (w : world) (k : run_kind) (out : option string) :
  worker_case w k out ->
  k <> Success ->
  fst (apr_thread_join (handle (thread w)) (os w)) = APR_SUCCESS ->
  exists m,
    out = Some m /\
    fst (invoke thread_join (LUserdata u :: rest) (snd (thread_runner h w))) =
    Ok [LBoolean false; LString m].
Proof.
  intros Hk Hne Hwait.
  destruct Hk as [Hn|f args message m Hd Hl Hm
                 |f args callee e m Hd Hl Hc Hm
                 |f args callee results s Hd Hl Hc Hs]; [| | |contradiction].
  - eexists. split; [reflexivity|].
    rewrite (runner_create_failure h w Hn). cbn [snd].
    match goal with
    | |- fst (invoke thread_join _ ?w2) = _ =>
        destruct (thread_join_waited u rest w2) as [-> _]; [right; exact Hwait|]
    end.
    reflexivity.
  - eexists. split; [reflexivity|].
    rewrite (runner_compile_failure h w _ _ _ _ Hd Hl Hm). cbn [snd].
    match goal with
    | |- fst (invoke thread_join _ ?w2) = _ =>
        destruct (thread_join_waited u rest w2) as [-> _]; [right; exact Hwait|]
    end.
    unfold join_results. cbn. rewrite c_str_idempotent. reflexivity.
  - eexists. split; [reflexivity|].
    rewrite (runner_runtime_error h w _ _ _ _ _ Hd Hl Hc Hm). cbn [snd].
    match goal with
    | |- fst (invoke thread_join _ ?w2) = _ =>
        destruct (thread_join_waited u rest w2) as [-> _]; [right; exact Hwait|]
    end.
    unfold join_results. cbn. rewrite c_str_idempotent. reflexivity.
Qed.

(** X13: when the status is TS_DONE and the output buffer does not decode
    (or is NULL), a join whose wait succeeds leaves by the Lua error of
    [lua_apr_unserialize]; the handle is marked as joined all the same, so
    the next join raises the same error and does not wait again. *)
Theorem thread_join_undecodable (u u' : nat) (rest rest' : list lua_value) (w : world) :
  status (thread w) = TS_DONE ->
  (forall buffer, output (thread w) = Some buffer -> unserialize (c_str buffer) = None) ->
  joined (thread w) = false ->
  fst (apr_thread_join (handle (thread w)) (os w)) = APR_SUCCESS ->
  exists w1 evs,
    invoke thread_join (LUserdata u :: rest) w = (Abort LuaError, w1) /\
    joined (thread w1) = true /\
    invoke thread_join (LUserdata u' :: rest') w1 =
    (Abort LuaError, after_call w1 (thread w1) (os w1) evs) /\
    join_calls evs = [].
Proof.
  intros Hs Ho Hj Hwait.
  assert (Hr : join_results (thread w) = Abort LuaError).
  { unfold join_results. rewrite Hs. cbn.
    destruct (output (thread w)) as [buffer|]; [|reflexivity].
    cbn. rewrite (Ho buffer eq_refl). reflexivity. }
  rewrite thread_join_eq, Hj.
  destruct (apr_thread_join (handle (thread w)) (os w)) as [st o].
  cbn in Hwait. subst st. rewrite Z.eqb_refl.
  change (join_results (mark_joined (thread w))) with (join_results (thread w)).
  rewrite Hr.
  eexists _, _. split; [reflexivity|]. split; [reflexivity|].
  rewrite thread_join_eq. cbn [after_call thread mark_joined joined].
  change (join_results (mark_joined (thread w))) with (join_results (thread w)).
  rewrite Hr. split; reflexivity.
Qed.

(** X14: the finalizer of a handle that join has waited for does not wait
    again and writes nothing to stderr: over the join and the finalizer the
    wait primitive is called once, and the finalizer gives back one
    reference. *)
Theorem thread_gc_after_join (u u' : nat) (rest rest' : list lua_value) (w : world) :
  joined (thread w) = false ->
  fst (apr_thread_join (handle (thread w)) (os w)) = APR_SUCCESS ->
  exists w2 evs,
    invoke thread_gc (LUserdata u' :: rest')
      (snd (invoke thread_join (LUserdata u :: rest) w)) = (Ok [], w2) /\
    trace w2 = trace w ++ evs /\
    join_calls evs = [(handle (thread w), APR_SUCCESS)] /\
    stderr_lines evs = [] /\
    releases evs = 1.
Proof.
  intros Hj Hwait. rewrite thread_join_eq, Hj.
  destruct (apr_thread_join (handle (thread w)) (os w)) as [st o].
  cbn in Hwait. subst st. rewrite Z.eqb_refl. cbn [snd].
  rewrite thread_gc_eq. cbn [after_call thread mark_joined joined].
  eexists _, _. split; [reflexivity|].
  cbn [after_call trace]. rewrite <- app_assoc. split; [reflexivity|].
  unfold destroy_events, decode_events.
  cbn [mark_joined header output].
  destruct (join_results (thread w));
    [destruct (thread_status_eqb (status (thread w)) TS_DONE)|];
    destruct (object_collectable (header (thread w)));
    repeat split; reflexivity.
Qed.

(** X15: over the life of a thread whose worker gets to its end while the
    creating state still holds its reference (the handle is not collectable
    while the worker holds its own, and is once the worker has given it
    back), the worker, a join and the finalizer together take one reference,
    give back two, and free the output buffer exactly once: the finalizer
    does, after the join has read it. *)
Theorem output_freed_once (h : apr_thread_t) (w : world) (k : run_kind)
  (out : option string) (u u' : nat) (rest rest' : list lua_value) :
  worker_case w k out ->
  object_collectable (object_incref (header (thread w))) = false ->
  object_collectable (release_object (object_incref (header (thread w)))) = true ->
  exists evs,
    trace (snd (invoke thread_gc (LUserdata u' :: rest')
                  (snd (invoke thread_join (LUserdata u :: rest)
                          (snd (thread_runner h w)))))) = trace w ++ evs /\
    increfs evs = 1 /\
    releases evs = 2 /\
    frees evs = [out].
Proof.
  intros Hk Hheld Hlast.
  destruct (worker_case_run h w k out Hk) as (w1 & E & Hh & Ho).
  destruct (thread_runner_references h w) as (e1 & T1 & _ & I1 & B1).
  rewrite E in T1, B1 |- *. cbn [fst snd] in T1, B1 |- *.
  rewrite Hheld in B1. destruct B1 as [R1 F1].
  destruct (thread_join_references u rest w1) as (e2 & T2 & I2 & R2 & F2 & Hh2 & Ho2).
  destruct (thread_gc_references u' rest'
              (snd (invoke thread_join (LUserdata u :: rest) w1)))
    as (e3 & T3 & I3 & R3 & F3).
  rewrite Hh2, Ho2, Hh, Hlast, Ho in F3.
  exists (e1 ++ e2 ++ e3).
  rewrite T3, T2, T1, <- !app_assoc.
  split; [reflexivity|].
  rewrite !increfs_app, !releases_app, !frees_app, I1, I2, I3, R1, R2, R3, F1, F2, F3.
  repeat split; reflexivity.
Qed.
End Collector.

(** ** Concrete runs of the properties above *)

Section MoreExamples.
#[local] Existing Instance Sample.refobj.
#[local] Existing Instance Sample.apr.
#[local] Existing Instance Sample.serializer.
#[local] Existing Instance Sample.interp_ok.

Lemma error_handler_keeps_message_witness :
  invoke error_handler [LTable []] (Sample.world_of [] (Sample.spawned "") []) =
  (Ok [LTable []], Sample.world_of [] (Sample.spawned "") []).
Proof.
  apply (error_handler_keeps_message (LTable []) (Sample.world_of [] (Sample.spawned "") [])).
  left. reflexivity.
Defined.

Lemma error_handler_traceback_witness :
  invoke error_handler [LString "boom"] (Sample.world_of [] (Sample.spawned "") []) =
  (Ok [LString "boom stack traceback:"], Sample.world_of [] (Sample.spawned "") []).
Proof.
  exact (error_handler_traceback (LString "boom")
           (Sample.world_of [] (Sample.spawned "") [])
           [("traceback"%string, LCFunction "traceback")] eq_refl eq_refl eq_refl).
Defined.

Lemma worker_error_value_not_string_witness :
  exists w',
    thread_runner 7 (Sample.world_of [] (Sample.spawned "error({})") []) =
    (Abort Undefined, w') /\
    status (thread w') = TS_RUNNING.
Proof.
  assert (Hd : decoded (Sample.world_of [] (Sample.spawned "error({})") [])
                 (LString "error({})") [])
    by (repeat split; vm_compute; reflexivity).
  assert (Hl : load_callable (LString "error({})") = inl (LFunction 3))
    by (vm_compute; reflexivity).
  assert (Hc : call_value (LFunction 3) [] = inr (LTable []))
    by (vm_compute; reflexivity).
  assert (He : value_isstring (LTable []) = false) by reflexivity.
  destruct (worker_error_value_not_string 7 _ _ _ _ _ Hd Hl Hc He)
    as (w' & E & _ & Hs & _).
  exists w'. split; [exact E | exact Hs].
Defined.

Lemma worker_undecodable_input_witness :
  exists w',
    thread_runner 7 (Sample.world_of [] Scenario.garbled_input []) = (Abort LuaError, w') /\
    status (thread w') = TS_INIT.
Proof.
  assert (Hn : luaL_newstate_ok = true) by reflexivity.
  assert (Hp : value_istable
                 (globals (Sample.world_of [] Scenario.garbled_input []) "package"%string)
               = true) by reflexivity.
  assert (Hu : decode_input (Sample.world_of [] Scenario.garbled_input []) = None)
    by (vm_compute; reflexivity).
  destruct (worker_undecodable_input 7 _ Hn Hp Hu) as (w' & E & _ & Hs & _).
  exists w'. split; [exact E | exact Hs].
Defined.

Lemma worker_busy_until_exit_witness :
  thread_busy (thread (snd (thread_runner 7
                              (Sample.world_of [] (Sample.spawned Scenario.source) [])))) =
  match fst (thread_runner 7 (Sample.world_of [] (Sample.spawned Scenario.source) [])) with
  | Ok _ => false
  | Abort _ => true
  end.
Proof.
  apply (worker_busy_until_exit 7 (Sample.world_of [] (Sample.spawned Scenario.source) [])).
  reflexivity.
Defined.
Lemma lua_apr_thread_handle_witness :
  exists w',
    invoke lua_apr_thread [LString Scenario.source] Scenario.parent_world =
    (Ok [LUserdata 0], w') /\
    status (thread w') = TS_INIT /\
    input (thread w') = Some (c_str Scenario.source_buffer) /\
    path (thread w') = Some "/opt/?.lua"%string.
Proof.
  assert (Hs : serialize [LString Scenario.source] = Some Scenario.source_buffer)
    by (vm_compute; reflexivity).
  assert (Hn : new_object_ok = true) by reflexivity.
  assert (Hp : apr_pool_create (os Scenario.parent_world)
               = (APR_SUCCESS, Some 1, Sample.idle)) by reflexivity.
  assert (Ha : apr_threadattr_create (Some 1) Sample.idle
               = (APR_SUCCESS, Some 2, Sample.idle)) by reflexivity.
  assert (Hc : apr_thread_create (Some 2) (Some 1) Sample.idle
               = (APR_SUCCESS, Some 3, Sample.idle)) by reflexivity.
  destruct (lua_apr_thread_handle _ _ _ _ _ _ _ _ _ Hs Hn Hp Ha Hc)
    as (w' & E & _ & _ & Hst & Hi & _ & _ & _ & _ & _ & _ & Hfields & _).
  exists w'. split; [exact E|]. split; [exact Hst|]. split; [exact Hi|].
  destruct (Hfields _ eq_refl) as (_ & Hpath & _). exact Hpath.
Defined.

Lemma worker_package_from_parent_witness :
  exists w1 r w2 evs,
    invoke lua_apr_thread [LString Scenario.source] Scenario.parent_world =
    (Ok [LUserdata 0], w1) /\
    thread_runner 7 (in_state Sample.fresh_globals [] w1) = (r, w2) /\
    trace w2 =
    trace w1 ++
    [EvIncref; EvNewState true; EvOpenLibs;
     EvSetField "config" (LString "/");
     EvSetField "path" (LString "/opt/?.lua");
     EvSetField "cpath" (LString "/opt/?.so");
     EvPushHandler; EvUnserialize] ++ evs.
Proof.
  assert (Hs : serialize [LString Scenario.source] = Some Scenario.source_buffer)
    by (vm_compute; reflexivity).
  assert (Hn : new_object_ok = true) by reflexivity.
  assert (Hp : apr_pool_create (os Scenario.parent_world)
               = (APR_SUCCESS, Some 1, Sample.idle)) by reflexivity.
  assert (Ha : apr_threadattr_create (Some 1) Sample.idle
               = (APR_SUCCESS, Some 2, Sample.idle)) by reflexivity.
  assert (Hc : apr_thread_create (Some 2) (Some 1) Sample.idle
               = (APR_SUCCESS, Some 3, Sample.idle)) by reflexivity.
  assert (Hg : globals Scenario.parent_world "package"%string =
               LTable [("config", LString "/"); ("path", LString "/opt/?.lua");
                       ("cpath", LString "/opt/?.so")]%string) by reflexivity.
  exact (worker_package_from_parent _ _ _ _ _ _ _ _ _ _ "/" "/opt/?.lua" "/opt/?.so"
           Sample.fresh_globals [] 7 Hs Hn Hp Ha Hc Hg eq_refl eq_refl eq_refl
           eq_refl eq_refl).
Defined.

Lemma spawn_run_join_round_trip_witness :
  exists w1 w2,
    invoke lua_apr_thread [LString Scenario.source] Scenario.parent_world =
    (Ok [LUserdata 0], w1) /\
    thread_runner 7 (in_state Sample.fresh_globals [] w1) = (Ok tt, w2) /\
    fst (invoke thread_join [LUserdata 0]
           (in_state (globals Scenario.parent_world) (stack Scenario.parent_world) w2)) =
    Ok [LBoolean true; LNumber 1; LString "two"; LBoolean true].
Proof.
  assert (Hs : serialize [LString Scenario.source] = Some Scenario.source_buffer)
    by (vm_compute; reflexivity).
  assert (Hu : unserialize (c_str Scenario.source_buffer) = Some [LString Scenario.source])
    by (vm_compute; reflexivity).
  assert (Hn : new_object_ok = true) by reflexivity.
  assert (Hp : apr_pool_create (os Scenario.parent_world)
               = (APR_SUCCESS, Some 1, Sample.idle)) by reflexivity.
  assert (Ha : apr_threadattr_create (Some 1) Sample.idle
               = (APR_SUCCESS, Some 2, Sample.idle)) by reflexivity.
  assert (Hc : apr_thread_create (Some 2) (Some 1) Sample.idle
               = (APR_SUCCESS, Some 3, Sample.idle)) by reflexivity.
  assert (Hl : load_callable (LString Scenario.source) = inl (LFunction 1))
    by (vm_compute; reflexivity).
  assert (Hcall : call_value (LFunction 1) [] =
                  inl [LNumber 1; LString "two"; LBoolean true]) by reflexivity.
  assert (Hs' : serialize [LNumber 1; LString "two"; LBoolean true]
                = Some Sample.results_buffer) by (vm_compute; reflexivity).
  assert (Hu' : unserialize (c_str Sample.results_buffer)
                = Some [LNumber 1; LString "two"; LBoolean true])
    by (vm_compute; reflexivity).
  assert (Hw : fst (apr_thread_join (Some 3) Sample.idle) = APR_SUCCESS) by reflexivity.
  exact (spawn_run_join_round_trip _ _ _ _ _ _ _ _ _ _ _ _ Sample.fresh_globals [] 7
           _ 0 [] Hs Hu Hn Hp Ha Hc eq_refl eq_refl Hl Hcall Hs' Hu' Hw).
Defined.

Lemma thread_gc_after_join_witness :
  exists w2 evs,
    invoke thread_gc [LUserdata 0]
      (snd (invoke thread_join [LUserdata 0] (Sample.finished Scenario.source)))
    = (Ok [], w2) /\
    trace w2 = trace (Sample.finished Scenario.source) ++ evs /\
    join_calls evs = [(handle (thread (Sample.finished Scenario.source)), APR_SUCCESS)] /\
    stderr_lines evs = [] /\
    releases evs = 1.
Proof.
  assert (Hj : joined (thread (Sample.finished Scenario.source)) = false)
    by (vm_compute; reflexivity).
  assert (Hw : fst (apr_thread_join (handle (thread (Sample.finished Scenario.source)))
                      (os (Sample.finished Scenario.source))) = APR_SUCCESS)
    by (vm_compute; reflexivity).
  exact (thread_gc_after_join 0 0 [] [] _ Hj Hw).
Defined.

Lemma thread_join_undecodable_witness :
  exists w1 evs,
    invoke thread_join [LUserdata 0] (Sample.world_of [] Scenario.garbled_output []) =
    (Abort LuaError, w1) /\
    joined (thread w1) = true /\
    invoke thread_join [LUserdata 0] w1 =
    (Abort LuaError, after_call w1 (thread w1) (os w1) evs) /\
    join_calls evs = [].
Proof.
  assert (Hs : status (thread (Sample.world_of [] Scenario.garbled_output [])) = TS_DONE)
    by reflexivity.
  assert (Ho : forall buffer,
             output (thread (Sample.world_of [] Scenario.garbled_output [])) = Some buffer ->
             unserialize (c_str buffer) = None).
  { intros buffer E. injection E as <-. vm_compute. reflexivity. }
  assert (Hj : joined (thread (Sample.world_of [] Scenario.garbled_output [])) = false)
    by reflexivity.
  assert (Hw : fst (apr_thread_join
                      (handle (thread (Sample.world_of [] Scenario.garbled_output [])))
                      (os (Sample.world_of [] Scenario.garbled_output []))) = APR_SUCCESS)
    by reflexivity.
  exact (thread_join_undecodable 0 0 [] [] _ Hs Ho Hj Hw).
Defined.

Lemma join_after_failure_witness :
  exists m,
    Some (c_str "unexpected symbol") = Some m /\
    fst (invoke thread_join [LUserdata 0]
           (snd (thread_runner 7 (Sample.world_of [] (Sample.spawned "return (") [])))) =
    Ok [LBoolean false; LString m].
Proof.
  assert (Hk : worker_case (Sample.world_of [] (Sample.spawned "return (") [])
                 CompileFailure (Some (c_str "unexpected symbol"))).
  { apply (CaseCompileFailure _ (LString "return (") [] (LString "unexpected symbol")
             "unexpected symbol").
    - repeat split; vm_compute; reflexivity.
    - vm_compute; reflexivity.
    - reflexivity. }
  assert (Hne : CompileFailure <> Success) by discriminate.
  assert (Hw : fst (apr_thread_join
                      (handle (thread (Sample.world_of [] (Sample.spawned "return (") [])))
                      (os (Sample.world_of [] (Sample.spawned "return (") []))) = APR_SUCCESS)
    by reflexivity.
  exact (join_after_failure 0 [] 7 _ _ _ Hk Hne Hw).
Defined.

Lemma output_freed_once_witness :
  exists evs,
    trace (snd (invoke thread_gc [LUserdata 0]
                  (snd (invoke thread_join [LUserdata 0]
                          (snd (thread_runner 7
                                  (Sample.world_of [] (Sample.spawned Scenario.source) [])))))))
    = trace (Sample.world_of [] (Sample.spawned Scenario.source) []) ++ evs /\
    increfs evs = 1 /\
    releases evs = 2 /\
    frees evs = [Some (c_str Sample.results_buffer)].
Proof.
  assert (Hk : worker_case (Sample.world_of [] (Sample.spawned Scenario.source) [])
                 Success (Some (c_str Sample.results_buffer))).
  { apply (CaseSuccess _ (LString Scenario.source) [] (LFunction 1)
             [LNumber 1; LString "two"; LBoolean true] Sample.results_buffer).
    - repeat split; vm_compute; reflexivity.
    - vm_compute; reflexivity.
    - vm_compute; reflexivity.
    - vm_compute; reflexivity. }
  exact (output_freed_once 7 _ _ _ 0 0 [] [] Hk eq_refl eq_refl).
Defined.
End MoreExamples.

(** * The LDAP module: requests, search results and URLs *)

Import Ldap.
Local Open Scope Z_scope.
Local Open Scope ldap_scope.

Section Lists.
Context {A : Type}.

Lemma length_update_nth (i : nat) (x : A) (l : list A) :
  List.length (update_nth i x l) = List.length l.
Proof.
  revert i. induction l as [|y l IH]; intros [|i]; cbn; auto.
Qed.

Lemma update_nth_twice (i : nat) (x y : A) (l : list A) :
  update_nth i y (update_nth i x l) = update_nth i y l.
Proof.
  revert i. induction l as [|z l IH]; intros [|i]; cbn; auto. now rewrite IH.
Qed.

Lemma nth_error_update_nth (i : nat) (x : A) (l : list A) :
  (i < List.length l)%nat -> nth_error (update_nth i x l) i = Some x.
Proof.
  revert i. induction l as [|z l IH]; intros [|i] Hi; cbn in *; try lia; auto.
  apply IH. lia.
Qed.

Lemma nth_error_update_nth_other (i j : nat) (x : A) (l : list A) :
  i <> j -> nth_error (update_nth i x l) j = nth_error l j.
Proof.
  revert i j. induction l as [|z l IH]; intros [|i] [|j] Hij; cbn; auto; try lia.
Qed.

Lemma update_nth_app_last (l : list A) (x y : A) :
  update_nth (List.length l) y (l ++ [x]) = l ++ [y].
Proof. induction l as [|z l IH]; cbn; [reflexivity|]. now rewrite IH. Qed.

Lemma nth_error_app_last (l : list A) (x : A) :
  nth_error (l ++ [x]) (List.length l) = Some x.
Proof. induction l as [|z l IH]; cbn; auto. Qed.

Lemma store_in (arr : list A) (i : Z) (x : A) :
  0 <= i < Z.of_nat (List.length arr) ->
  store arr i x = Some (update_nth (Z.to_nat i) x arr).
Proof.
  intros Hi. unfold store.
  destruct (Z.leb_spec 0 i); [|lia]. destruct (Z.ltb_spec i (Z.of_nat (List.length arr))); [|lia].
  reflexivity.
Qed.

Lemma load_in (arr : list A) (i : Z) :
  0 <= i < Z.of_nat (List.length arr) ->
  exists x, load arr i = Some x.
Proof.
  intros Hi. unfold load.
  destruct (Z.leb_spec 0 i); [|lia]. destruct (Z.ltb_spec i (Z.of_nat (List.length arr))); [|lia].
  cbn. destruct (nth_error arr (Z.to_nat i)) eqn:E; [eauto|].
  apply nth_error_None in E. lia.
Qed.

Lemma load_update (arr : list A) (i : Z) (x : A) :
  0 <= i < Z.of_nat (List.length arr) ->
  load (update_nth (Z.to_nat i) x arr) i = Some x.
Proof.
  intros Hi. unfold load. rewrite length_update_nth.
  destruct (Z.leb_spec 0 i); [|lia]. destruct (Z.ltb_spec i (Z.of_nat (List.length arr))); [|lia].
  cbn. apply nth_error_update_nth. lia.
Qed.

End Lists.

Section Stack.

Lemma slot_top (base : list value) (v : value) :
  slot (base ++ [v]) (-1) = Some (List.length base).
Proof.
  unfold slot. rewrite length_app. cbn [List.length].
  cbn [Z.ltb Z.compare andb Z.opp].
  destruct (Z.leb_spec 1 (Z.of_nat (List.length base + 1))); [|lia].
  cbn. f_equal. lia.
Qed.

Lemma slot_gettop (base : list value) (v : value) :
  slot (base ++ [v]) (Z.of_nat (List.length (base ++ [v]))) = Some (List.length base).
Proof.
  unfold slot. rewrite length_app. cbn [List.length].
  destruct (Z.ltb_spec 0 (Z.of_nat (List.length base + 1))); [|lia].
  destruct (Z.leb_spec (Z.of_nat (List.length base + 1)) (Z.of_nat (List.length base + 1))); [|lia].
  cbn. f_equal. lia.
Qed.

Lemma slot_second (base : list value) (k v : value) :
  slot (base ++ [k; v]) (-2) = Some (List.length base).
Proof.
  unfold slot. rewrite length_app. cbn [List.length].
  cbn [Z.ltb Z.compare andb Z.opp].
  destruct (Z.leb_spec 2 (Z.of_nat (List.length base + 2))); [|lia].
  cbn. f_equal. lia.
Qed.

Lemma slot_below (base rest : list value) (t : value) :
  slot (base ++ t :: rest) (Z.of_nat (List.length base) + 1) = Some (List.length base).
Proof.
  unfold slot. rewrite length_app. cbn [List.length].
  destruct (Z.ltb_spec 0 (Z.of_nat (List.length base) + 1)); [|lia].
  destruct (Z.leb_spec (Z.of_nat (List.length base) + 1)
              (Z.of_nat (List.length base + S (List.length rest)))); [|lia].
  cbn. f_equal. lia.
Qed.

Lemma nth_error_middle (base rest : list value) (t : value) :
  nth_error (base ++ t :: rest) (List.length base) = Some t.
Proof. induction base; cbn; auto. Qed.
End Stack.

Section Frame.
Context `{LuaCore}.

Lemma lua_push_eq (a : attrs_data) (st : list value) (v : value) :
  Z.of_nat (List.length st) < ci_top ->
  lua_push v {| data := a; stack := st |} = Returns tt {| data := a; stack := st ++ [v] |}.
Proof.
  intros Hroom. unfold lua_push, bind, get, put_stack. cbn [stack data].
  destruct (Z.ltb_spec (Z.of_nat (List.length st)) ci_top); [reflexivity|lia].
Qed.

Lemma lua_push_full (a : attrs_data) (st : list value) (v : value) :
  ci_top <= Z.of_nat (List.length st) ->
  lua_push v {| data := a; stack := st |} = Undefined.
Proof.
  intros Hfull. unfold lua_push, bind, get, undefined. cbn [stack data].
  destruct (Z.ltb_spec (Z.of_nat (List.length st)) ci_top); [lia|reflexivity].
Qed.
End Frame.

Ltac run_ldap :=
  cbv beta iota zeta delta
    [bind ret get put_data put_stack undefined lift
     set_ai set_vi set_bi set_attr set_value set_mod set_bval
     value_at peek lua_gettop lua_pushnil
     lua_isboolean lua_toboolean lua_isstring lua_istable lua_isnumber
     tostring_in_place lua_strlen lua_tostring lua_rawgeti luaL_error value_error];
  change (0 =? 1) with false; change (1 =? 1) with true;
  cbn -[slot nth_error update_nth store load firstn skipn Z.add Z.sub Z.geb Z.eqb
        Z.of_nat Z.to_nat String.append c_str lua_number2str String.length
        table_geti List.length app
        A_init A_setbval A_setval A_nullval A_tab2val_loop A_tab2val A_setmod
        A_tab2mod_loop A_tab2mod A_lastattr lua_pop lua_push].

Ltac sizes :=
  change LUA_APR_LDAP_MAX_VALUES with 128 in *;
  change LUA_APR_LDAP_ARRAY_VALUES_SIZE with 256 in *;
  change LUA_APR_LDAP_MAX_ATTRS with 128 in *.

Ltac on_stack :=
  repeat (progress (rewrite ?slot_top, ?slot_second, ?slot_gettop, ?slot_below,
                      ?nth_error_app_last, ?nth_error_middle, ?update_nth_app_last;
                    run_ldap)).

Section Builder.
Context `{LuaCore}.

Lemma sized_push_bval a str : sized a -> sized (push_bval a str).
Proof.
  unfold sized, push_bval. cbn. rewrite length_update_nth. auto.
Qed.

Lemma sized_push_value a p : sized a -> sized (push_value a p).
Proof.
  unfold sized, push_value. cbn. rewrite length_update_nth. auto.
Qed.

Lemma A_setbval_spec (a : attrs_data) (base : list value) (v : value)
  (name : option string) :
  sized a -> 0 <= bi a ->
  ensures (A_setbval name {| data := a; stack := base ++ [v] |})
    (fun p s' =>
       exists str, as_string v = Some str /\ p = Some (bi a) /\
                   bi a < LUA_APR_LDAP_MAX_VALUES /\
                   s' = {| data := push_bval a str; stack := base ++ [converted v] |})
    (fun m => (LUA_APR_LDAP_MAX_VALUES <= bi a /\ m = "too many values"%string) \/
              (as_string v = None /\ m = value_error_message name v)).
Proof.
  intros (_ & _ & _ & Hb) Hbi. unfold A_setbval. run_ldap. sizes.
  destruct (Z.geb_spec (bi a) 128) as [Hfull|Hroom]; run_ldap.
  { left. split; [lia | reflexivity]. }
  assert (Hin : 0 <= bi a < Z.of_nat (List.length (bvals a))) by lia.
  destruct (load_in (bvals a) (bi a) Hin) as [b0 Hb0].
  on_stack.
  destruct v; on_stack; try (right; split; reflexivity).
  - (* number *)
    rewrite Hb0. run_ldap. rewrite (store_in _ _ _ Hin). on_stack.
    rewrite (load_update _ _ _ Hin). run_ldap.
    rewrite store_in by (rewrite length_update_nth; lia). run_ldap.
    rewrite update_nth_twice.
    eexists. split; [reflexivity|]. split; [reflexivity|]. split; [exact Hroom|].
    reflexivity.
  - (* string *)
    rewrite Hb0. run_ldap. rewrite (store_in _ _ _ Hin). on_stack.
    rewrite (load_update _ _ _ Hin). run_ldap.
    rewrite store_in by (rewrite length_update_nth; lia). run_ldap.
    rewrite update_nth_twice.
    eexists. split; [reflexivity|]. split; [reflexivity|]. split; [exact Hroom|].
    reflexivity.
Qed.

Lemma A_setval_spec (a : attrs_data) (base : list value) (v : value)
  (name : option string) :
  sized a -> 0 <= vi a -> 0 <= bi a ->
  ensures (A_setval name {| data := a; stack := base ++ [v] |})
    (fun p s' =>
       exists str, as_string v = Some str /\ p = Some (vi a) /\
                   vi a < LUA_APR_LDAP_ARRAY_VALUES_SIZE /\
                   bi a < LUA_APR_LDAP_MAX_VALUES /\
                   s' = {| data := push_string a str; stack := base ++ [converted v] |})
    (fun m => (m = "too many values"%string /\
               (LUA_APR_LDAP_ARRAY_VALUES_SIZE <= vi a \/ LUA_APR_LDAP_MAX_VALUES <= bi a)) \/
              (as_string v = None /\ m = value_error_message name v)).
Proof.
  intros Hsized Hvi Hbi. unfold A_setval. run_ldap. sizes.
  destruct (Z.geb_spec (vi a) 256) as [Hfull|Hroom]; run_ldap.
  { left. split; [reflexivity | left; lia]. }
  pose proof (A_setbval_spec a base v name Hsized Hbi) as Hspec.
  destruct (A_setbval name {| data := a; stack := base ++ [v] |}) as [p s'|m|];
    cbn [ensures] in Hspec; [|sizes|contradiction].
  - destruct Hspec as (str & Hstr & -> & Hb & ->). run_ldap.
    destruct Hsized as (_ & _ & Hv & _). sizes.
    rewrite store_in by lia. run_ldap.
    exists str. repeat split; auto.
  - destruct Hspec as [[Hb ->]|[Hs ->]]; [left|right]; auto.
Qed.

Lemma A_nullval_spec (a : attrs_data) (st : list value) :
  sized a -> 0 <= vi a ->
  ensures (A_nullval {| data := a; stack := st |})
    (fun p s' => p = Some (vi a) /\ vi a < LUA_APR_LDAP_ARRAY_VALUES_SIZE /\
                 s' = {| data := push_value a None; stack := st |})
    (fun m => m = "too many values"%string /\ LUA_APR_LDAP_ARRAY_VALUES_SIZE <= vi a).
Proof.
  intros (_ & _ & Hv & _) Hvi. unfold A_nullval. run_ldap. sizes.
  destruct (Z.geb_spec (vi a) 256) as [Hfull|Hroom]; run_ldap.
  { split; [reflexivity | lia]. }
  rewrite store_in by lia. run_ldap. repeat split; auto.
Qed.
End Builder.

Section Loop.
Context `{LuaCore}.

Lemma sized_push_string a str : sized a -> sized (push_string a str).
Proof. intros Hs. apply sized_push_value, sized_push_bval, Hs. Qed.

Lemma slot_table (base rest : list value) (t : value) (tab : Z) :
  tab = Z.of_nat (List.length base) + 1 ->
  slot (base ++ t :: rest) tab = Some (List.length base).
Proof. intros ->. apply slot_below. Qed.

Lemma A_tab2val_loop_spec (todo : nat) :
  forall (a : attrs_data) (base pushed : list value) (entries : list (value * value))
         (tab i : Z) (name : option string),
  tab = Z.of_nat (List.length base) + 1 ->
  sized a ->
  0 <= vi a <= LUA_APR_LDAP_ARRAY_VALUES_SIZE ->
  0 <= bi a <= LUA_APR_LDAP_MAX_VALUES ->
  Z.of_nat (List.length (base ++ VTable entries :: pushed)) + Z.of_nat todo <= ci_top ->
  ensures (A_tab2val_loop todo tab i name
             {| data := a; stack := base ++ VTable entries :: pushed |})
    (fun _ s' =>
       exists strs, all_strings (elements entries i todo) = Some strs /\
         vi a + Z.of_nat todo <= LUA_APR_LDAP_ARRAY_VALUES_SIZE /\
         bi a + Z.of_nat todo <= LUA_APR_LDAP_MAX_VALUES /\
         s' = {| data := push_strings a strs;
                 stack := base ++ VTable entries
                          :: pushed ++ map converted (elements entries i todo) |})
    (fun m => (m = "too many values"%string \/ exists v, m = value_error_message name v) /\
              (all_strings (elements entries i todo) = None \/
               LUA_APR_LDAP_ARRAY_VALUES_SIZE < vi a + Z.of_nat todo \/
               LUA_APR_LDAP_MAX_VALUES < bi a + Z.of_nat todo)).
Proof.
  induction todo as [|todo IH];
    intros a base pushed entries tab i name Htab Hs Hvi Hbi Hroom.
  - sizes. cbn. exists []. rewrite app_nil_r, !Z.add_0_r.
    repeat split; auto; lia.
  - sizes. cbn [A_tab2val_loop]. run_ldap.
    rewrite (slot_table _ _ _ _ Htab), nth_error_middle. run_ldap.
    rewrite lua_push_eq by lia. run_ldap.
    pose proof (A_setval_spec a (base ++ VTable entries :: pushed)
                  (table_geti entries i) name Hs (proj1 Hvi) (proj1 Hbi)) as Hspec.
    destruct (A_setval name _) as [p s'|m|]; cbn [ensures] in Hspec; [| |contradiction].
    + destruct Hspec as (str & Hstr & -> & Hv & Hb & ->).
      replace ((base ++ VTable entries :: pushed) ++ [converted (table_geti entries i)])
        with (base ++ VTable entries :: (pushed ++ [converted (table_geti entries i)]))
        by (rewrite <- app_assoc; reflexivity).
      assert (Hs' : sized (push_string a str)) by (apply sized_push_string, Hs).
      specialize (IH (push_string a str) base
                     (pushed ++ [converted (table_geti entries i)]) entries tab (i + 1)
                     name Htab Hs').
      cbn [push_string push_value push_bval vi bi] in IH.
      sizes. specialize (IH ltac:(lia) ltac:(lia)).
      rewrite !length_app in *. cbn [List.length] in *. rewrite length_app in IH.
      cbn [List.length] in IH. specialize (IH ltac:(lia)).
      destruct (A_tab2val_loop todo tab (i + 1) name _) as [[] s'|m|];
        cbn [ensures] in IH |- *; [| |contradiction].
      * destruct IH as (strs & Hall & Hv' & Hb' & ->).
        exists (str :: strs). cbn [elements all_strings]. rewrite Hstr, Hall.
        split; [reflexivity|]. split; [lia|]. split; [lia|].
        cbn [push_strings map]. rewrite <- app_assoc. reflexivity.
      * destruct IH as [Hm Hwhy]. split; [exact Hm|].
        cbn [elements all_strings]. rewrite Hstr.
        destruct Hwhy as [Hnone|[Hv'|Hb']];
          [left; rewrite Hnone; reflexivity | right; left; lia | right; right; lia].
    + destruct Hspec as [[-> Hfull]|[Hnone ->]].
      * split; [left; reflexivity|]. right. sizes.
        destruct Hfull; [left | right]; lia.
      * split; [right; eauto|]. left. cbn [elements all_strings].
        rewrite Hnone. reflexivity.
Qed.
End Loop.

Section Values.
Context `{LuaCore}.

Lemma lua_pop_one (a : attrs_data) (l : list value) (x : value) :
  lua_pop 1 {| data := a; stack := l ++ [x] |} = Returns tt {| data := a; stack := l |}.
Proof.
  unfold lua_pop. run_ldap. rewrite length_app. cbn [List.length].
  change (0 <=? 1) with true.
  destruct (Z.leb_spec 1 (Z.of_nat (List.length l + 1))); [|lia]. run_ldap.
  replace (List.length l + 1 - Z.to_nat 1)%nat with (List.length l + 0)%nat by lia.
  rewrite firstn_app_2. cbn. rewrite app_nil_r. reflexivity.
Qed.

Lemma lua_pop_pushed (a : attrs_data) (l pushed : list value) (n : nat) :
  List.length pushed = n ->
  lua_pop (Z.of_nat n) {| data := a; stack := l ++ pushed |} =
  Returns tt {| data := a; stack := l |}.
Proof.
  intros Hn. unfold lua_pop. run_ldap. rewrite length_app, Hn.
  destruct (Z.leb_spec 0 (Z.of_nat n)); [|lia].
  destruct (Z.leb_spec (Z.of_nat n) (Z.of_nat (List.length l + n))); [|lia]. run_ldap.
  replace (List.length l + n - Z.to_nat (Z.of_nat n))%nat with (List.length l + 0)%nat by lia.
  rewrite firstn_app_2. cbn. rewrite app_nil_r. reflexivity.
Qed.

Lemma vi_push_strings a strs : vi (push_strings a strs) = vi a + Z.of_nat (List.length strs).
Proof.
  revert a. induction strs as [|s strs IH]; intros a; cbn [push_strings List.length].
  - lia.
  - rewrite IH. cbn. lia.
Qed.

Lemma bi_push_strings a strs : bi (push_strings a strs) = bi a + Z.of_nat (List.length strs).
Proof.
  revert a. induction strs as [|s strs IH]; intros a; cbn [push_strings List.length].
  - lia.
  - rewrite IH. cbn. lia.
Qed.

Lemma sized_push_strings a strs : sized a -> sized (push_strings a strs).
Proof.
  revert a. induction strs as [|s strs IH]; intros a Hs; cbn; auto.
  apply IH, sized_push_string, Hs.
Qed.

Lemma length_all_strings vs strs :
  all_strings vs = Some strs -> List.length strs = List.length vs.
Proof.
  revert strs. induction vs as [|v vs IH]; intros strs; cbn.
  - intros [= <-]. reflexivity.
  - destruct (as_string v); [|discriminate].
    destruct (all_strings vs) as [l|]; [|discriminate].
    intros [= <-]. cbn. f_equal. apply IH. reflexivity.
Qed.

Lemma length_elements entries i todo : List.length (elements entries i todo) = todo.
Proof. revert i. induction todo; intros i; cbn; auto. Qed.

Lemma A_tab2val_spec (a : attrs_data) (base : list value) (v : value)
  (name : option string) :
  sized a ->
  0 <= vi a <= LUA_APR_LDAP_ARRAY_VALUES_SIZE ->
  0 <= bi a <= LUA_APR_LDAP_MAX_VALUES ->
  Z.of_nat (List.length (base ++ [v])) + pushed_for v <= ci_top ->
  ensures (A_tab2val name {| data := a; stack := base ++ [v] |})
    (fun p s' =>
       exists vals, wanted_values v = Some vals /\ p = values_pointer a vals /\
         vi (add_values a vals) <= LUA_APR_LDAP_ARRAY_VALUES_SIZE /\
         bi (add_values a vals) <= LUA_APR_LDAP_MAX_VALUES /\
         s' = {| data := add_values a vals; stack := base ++ [converted v] |})
    (fun m => (m = "too many values"%string \/ exists v', m = value_error_message name v') /\
              forall vals, wanted_values v = Some vals ->
                LUA_APR_LDAP_ARRAY_VALUES_SIZE < vi (add_values a vals) \/
                LUA_APR_LDAP_MAX_VALUES < bi (add_values a vals)).
Proof.
  intros Hs Hvi Hbi Hroom. unfold A_tab2val. sizes. run_ldap. on_stack.
  destruct v as [|[|]|n|s|entries|other]; on_stack.
  - (* nil *) split; [right; exists VNil; reflexivity | discriminate].
  - (* true *) exists None. cbn [add_values values_pointer wanted_values converted].
    repeat split; auto; lia.
  - (* false *) split; [right; exists (VBoolean false); reflexivity | discriminate].
  - (* number *)
    pose proof (A_setval_spec a base (VNumber n) name Hs (proj1 Hvi) (proj1 Hbi)) as Hspec.
    destruct (A_setval name _) as [p s'|m|]; cbn [ensures] in Hspec; [| |contradiction].
    + destruct Hspec as (str & [= <-] & -> & Hv & Hb & ->). run_ldap. sizes.
      pose proof (A_nullval_spec (push_string a (lua_number2str n))
                    (base ++ [converted (VNumber n)])
                    (sized_push_string _ _ Hs)) as Hnull.
      cbn [push_string push_value push_bval vi] in Hnull. specialize (Hnull ltac:(lia)).
      destruct (A_nullval _) as [q s'|m|]; cbn [ensures] in Hnull |- *; [| |contradiction].
      * destruct Hnull as (-> & Hv' & ->). sizes.
        exists (Some [lua_number2str n]). cbn. repeat split; auto; lia.
      * destruct Hnull as [-> Hfull]. split; [left; reflexivity|].
        intros vals [= <-]. cbn. sizes. left. lia.
    + destruct Hspec as [[-> Hfull]|[Hnone ->]]; [|discriminate Hnone].
      split; [left; reflexivity|]. intros vals [= <-]. cbn. sizes.
      destruct Hfull; [left | right]; lia.
  - (* string *)
    pose proof (A_setval_spec a base (VString s) name Hs (proj1 Hvi) (proj1 Hbi)) as Hspec.
    destruct (A_setval name _) as [p s'|m|]; cbn [ensures] in Hspec; [| |contradiction].
    + destruct Hspec as (str & [= <-] & -> & Hv & Hb & ->). run_ldap. sizes.
      pose proof (A_nullval_spec (push_string a s) (base ++ [converted (VString s)])
                    (sized_push_string _ _ Hs)) as Hnull.
      cbn [push_string push_value push_bval vi] in Hnull. specialize (Hnull ltac:(lia)).
      destruct (A_nullval _) as [q s'|m|]; cbn [ensures] in Hnull |- *; [| |contradiction].
      * destruct Hnull as (-> & Hv' & ->). sizes.
        exists (Some [s]). cbn. repeat split; auto; lia.
      * destruct Hnull as [-> Hfull]. split; [left; reflexivity|].
        intros vals [= <-]. cbn. sizes. left. lia.
    + destruct Hspec as [[-> Hfull]|[Hnone ->]]; [|discriminate Hnone].
      split; [left; reflexivity|]. intros vals [= <-]. cbn. sizes.
      destruct Hfull; [left | right]; lia.
  - (* table *)
    rewrite Nat2Z.id.
    assert (Htab : Z.of_nat (List.length (base ++ [VTable entries]))
                   = Z.of_nat (List.length base) + 1)
      by (rewrite length_app; cbn; lia).
    pose proof (A_tab2val_loop_spec (luaH_getn entries) a base [] entries _ 1 name
                  Htab Hs Hvi Hbi Hroom) as Hloop.
    destruct (A_tab2val_loop _ _ _ _ _) as [[] s'|m|]; cbn [ensures] in Hloop |- *;
      [| |contradiction].
    + destruct Hloop as (strs & Hall & Hv & Hb & ->). sizes.
      cbn [app].
      match goal with
      | |- context [base ++ VTable entries :: ?l] =>
          change (base ++ VTable entries :: l) with (base ++ [VTable entries] ++ l);
          rewrite (app_assoc base [VTable entries] l)
      end.
      rewrite lua_pop_pushed by (rewrite length_map; apply length_elements).
      pose proof (A_nullval_spec (push_strings a strs) (base ++ [VTable entries])
                    (sized_push_strings _ _ Hs)) as Hnull.
      rewrite vi_push_strings in Hnull. specialize (Hnull ltac:(lia)).
      destruct (A_nullval _) as [q s'|m|]; cbn [ensures] in Hnull |- *; [| |contradiction].
      * destruct Hnull as (-> & Hv' & ->). sizes.
        exists (Some strs). cbn [wanted_values]. rewrite Hall.
        cbn [option_map values_pointer add_values push_value vi bi converted].
        rewrite vi_push_strings in *. rewrite bi_push_strings.
        pose proof (length_all_strings _ _ Hall) as Hlen.
        rewrite length_elements in Hlen.
        repeat split; auto; lia.
      * destruct Hnull as [-> Hfull]. split; [left; reflexivity|].
        intros vals. cbn [wanted_values]. rewrite Hall. intros [= <-].
        cbn [option_map add_values push_value vi]. rewrite vi_push_strings in *.
        sizes. left. lia.
    + destruct Hloop as [Hm Hwhy]. split; [exact Hm|].
      intros vals. cbn [wanted_values].
      destruct (all_strings (elements entries 1 (luaH_getn entries))) as [strs|] eqn:Hall;
        [|discriminate].
      intros [= <-]. cbn [option_map add_values push_value vi bi].
      rewrite vi_push_strings, bi_push_strings.
      pose proof (length_all_strings _ _ Hall) as Hlen.
      rewrite length_elements in Hlen. sizes.
      destruct Hwhy as [Hnone|[Hv|Hb]]; [discriminate Hnone | left; lia | right; lia].
  - (* other *) split; [right; exists (VOther other); reflexivity | discriminate].
Qed.
End Values.

Section Modifications.
Context `{LuaCore}.

Lemma push_strings_with_mods a ms strs :
  push_strings (with_mods a ms) strs = with_mods (push_strings a strs) ms.
Proof.
  revert a. induction strs as [|s strs IH]; intros a; cbn [push_strings]; [reflexivity|].
  rewrite <- IH. reflexivity.
Qed.

Lemma add_values_with_mods a ms vals :
  add_values (with_mods a ms) vals = with_mods (add_values a vals) ms.
Proof.
  destruct vals as [strs|]; cbn [add_values]; [|reflexivity].
  rewrite push_strings_with_mods. reflexivity.
Qed.

Lemma attrs_push_strings a strs : attrs (push_strings a strs) = attrs a.
Proof. revert a. induction strs as [|s strs IH]; intros a; cbn; auto. now rewrite IH. Qed.

Lemma mods_push_strings a strs : mods (push_strings a strs) = mods a.
Proof. revert a. induction strs as [|s strs IH]; intros a; cbn; auto. now rewrite IH. Qed.

Lemma ai_push_strings a strs : ai (push_strings a strs) = ai a.
Proof. revert a. induction strs as [|s strs IH]; intros a; cbn; auto. now rewrite IH. Qed.

Lemma attrs_add_values a vals : attrs (add_values a vals) = attrs a.
Proof. destruct vals; cbn; auto using attrs_push_strings. Qed.

Lemma mods_add_values a vals : mods (add_values a vals) = mods a.
Proof. destruct vals; cbn; auto using mods_push_strings. Qed.

Lemma ai_add_values a vals : ai (add_values a vals) = ai a.
Proof. destruct vals; cbn; auto using ai_push_strings. Qed.

Lemma sized_add_values a vals : sized a -> sized (add_values a vals).
Proof.
  intros Hs. destruct vals; cbn; auto.
  apply sized_push_value, sized_push_strings, Hs.
Qed.

Lemma vi_add_values a vals : vi (add_values a vals) = vi a + cell_count vals.
Proof.
  destruct vals as [strs|]; cbn; [|lia]. rewrite vi_push_strings. lia.
Qed.

Lemma bi_add_values a vals : bi (add_values a vals) = bi a + value_count vals.
Proof.
  destruct vals as [strs|]; cbn; [|lia]. rewrite bi_push_strings. lia.
Qed.

Lemma value_count_nonneg vals : 0 <= value_count vals.
Proof. destruct vals; cbn; lia. Qed.

Lemma cell_count_nonneg vals : 0 <= cell_count vals.
Proof. destruct vals; cbn; lia. Qed.

Lemma sized_push_attr a m : sized a -> sized (push_attr a m).
Proof.
  unfold sized, push_attr. cbn. rewrite !length_update_nth. auto.
Qed.

Lemma A_setmod_spec (a : attrs_data) (base : list value) (v : value) (op : Z)
  (name : option string) :
  bounded a ->
  Z.of_nat (List.length (base ++ [v])) + pushed_for v <= ci_top ->
  ensures (A_setmod op name {| data := a; stack := base ++ [v] |})
    (fun _ s' =>
       exists vals, wanted_values v = Some vals /\
         ai a < LUA_APR_LDAP_MAX_ATTRS /\
         bounded (add_mod a op name vals) /\
         s' = {| data := add_mod a op name vals; stack := base ++ [converted v] |})
    (fun m => builder_error m /\
              forall vals, wanted_values v = Some vals ->
                LUA_APR_LDAP_MAX_ATTRS <= ai a \/
                LUA_APR_LDAP_ARRAY_VALUES_SIZE < vi a + cell_count vals \/
                LUA_APR_LDAP_MAX_VALUES < bi a + value_count vals).
Proof.
  intros (Hs & Hai & Hvi & Hbi) Hframe. unfold A_setmod, builder_error. sizes. run_ldap.
  destruct (Z.geb_spec (ai a) 128) as [Hfull|Hroom]; run_ldap.
  { split; [left; reflexivity|]. intros vals _. left. exact Hfull. }
  pose proof Hs as (Ha & Hm & _ & _). sizes.
  assert (Hin : 0 <= ai a < Z.of_nat (List.length (mods a))) by lia.
  destruct (load_in (mods a) (ai a) Hin) as [m0 Hm0].
  rewrite Hm0. run_ldap. rewrite (store_in _ _ _ Hin). run_ldap.
  rewrite (load_update _ _ _ Hin). run_ldap.
  rewrite store_in by (rewrite length_update_nth; lia). run_ldap.
  rewrite update_nth_twice.
  match goal with
  | |- context [A_tab2val name {| data := ?a2; stack := _ |}] =>
      change a2 with (with_mods a (update_nth (Z.to_nat (ai a))
                                     {| mod_op := op; mod_type := name;
                                        mod_bvalues := mod_bvalues m0 |} (mods a)))
  end.
  set (ms := update_nth (Z.to_nat (ai a)) _ (mods a)).
  assert (Hs2 : sized (with_mods a ms)).
  { unfold sized, with_mods, ms. cbn. rewrite length_update_nth. exact Hs. }
  pose proof (A_tab2val_spec (with_mods a ms) base v name Hs2 Hvi Hbi Hframe) as Hspec.
  destruct (A_tab2val name _) as [p s'|m|]; cbn [ensures] in Hspec; [| |contradiction].
  2: { destruct Hspec as [Hmsg Hwhy]. split.
       - destruct Hmsg as [->|(v' & ->)]; [right; left; reflexivity | right; right; eauto].
       - intros vals Hw. specialize (Hwhy vals Hw).
         rewrite add_values_with_mods in Hwhy. cbn [with_mods vi bi] in Hwhy.
         rewrite vi_add_values, bi_add_values in Hwhy. sizes. right. exact Hwhy. }
  destruct Hspec as (vals & Hw & -> & Hv' & Hb' & ->). sizes. run_ldap.
  rewrite add_values_with_mods in *. cbn [with_mods mods attrs ai vi bi] in *.
  assert (Hin' : 0 <= ai a < Z.of_nat (List.length ms))
    by (unfold ms; rewrite length_update_nth; lia).
  rewrite ai_add_values.
  destruct (load_in ms (ai a) Hin') as [m1 Hm1].
  unfold ms in Hm1 |- *. rewrite (load_update _ _ _ Hin) in *. run_ldap.
  rewrite store_in by (rewrite length_update_nth; lia). run_ldap.
  rewrite update_nth_twice, attrs_add_values.
  rewrite store_in by lia. run_ldap.
  exists vals. split; [exact Hw|]. split; [exact Hroom|].
  assert (Heq : add_mod a op name vals =
                {| attrs := update_nth (Z.to_nat (ai a)) (Some (ai a)) (attrs a);
                   mods := update_nth (Z.to_nat (ai a))
                             {| mod_op := op; mod_type := name;
                                mod_bvalues := values_pointer a vals |} (mods a);
                   ai := ai a + 1;
                   values := values (add_values a vals);
                   vi := vi (add_values a vals);
                   bvals := bvals (add_values a vals);
                   bi := bi (add_values a vals) |}).
  { unfold add_mod, push_attr.
    rewrite ai_add_values, attrs_add_values, mods_add_values. reflexivity. }
  split.
  - rewrite Heq. unfold bounded. cbn [vi bi ai]. sizes. split.
    + unfold sized in *. cbn. rewrite !length_update_nth.
      destruct (sized_add_values a vals Hs) as (_ & _ & Hv2 & Hb2). auto.
    + rewrite vi_add_values, bi_add_values in *.
      pose proof (value_count_nonneg vals). pose proof (cell_count_nonneg vals).
      repeat split; lia.
  - rewrite Heq. reflexivity.
Qed.
End Modifications.

Section Tables.
Context `{LuaCore}.

Lemma lua_pop_value (a : attrs_data) (base : list value) (k v : value) :
  lua_pop 1 {| data := a; stack := base ++ [k; v] |} =
  Returns tt {| data := a; stack := base ++ [k] |}.
Proof.
  change (base ++ [k; v]) with (base ++ [k] ++ [v]).
  rewrite (app_assoc base). apply lua_pop_one.
Qed.

Lemma pushed_for_nonneg (v : value) : 0 <= pushed_for v.
Proof. destruct v; cbn [pushed_for]; lia. Qed.

Lemma slots_for_pos (entries : list (value * value)) : 1 <= slots_for entries.
Proof.
  destruct entries as [|[k v] entries]; cbn [slots_for]; [lia|].
  pose proof (pushed_for_nonneg v). destruct (attribute_name k); lia.
Qed.

Lemma A_setmod_on_entry (a : attrs_data) (base : list value) (k v : value) (op : Z)
  (name : option string) :
  bounded a ->
  Z.of_nat (List.length base) + 2 + pushed_for v <= ci_top ->
  ensures (A_setmod op name {| data := a; stack := base ++ [k; v] |})
    (fun _ s' =>
       exists vals, wanted_values v = Some vals /\
         ai a < LUA_APR_LDAP_MAX_ATTRS /\
         bounded (add_mod a op name vals) /\
         s' = {| data := add_mod a op name vals; stack := base ++ [k; converted v] |})
    (fun m => builder_error m /\
              forall vals, wanted_values v = Some vals ->
                LUA_APR_LDAP_MAX_ATTRS <= ai a \/
                LUA_APR_LDAP_ARRAY_VALUES_SIZE < vi a + cell_count vals \/
                LUA_APR_LDAP_MAX_VALUES < bi a + value_count vals).
Proof.
  intros Hb Hframe. change (base ++ [k; v]) with (base ++ [k] ++ [v]).
  change (base ++ [k; converted v]) with (base ++ [k] ++ [converted v]).
  rewrite !(app_assoc base). apply A_setmod_spec; [exact Hb|].
  rewrite !length_app. cbn [List.length]. lia.
Qed.

Lemma total_values_nonneg {K} (ms : list (K * option (list string))) :
  0 <= total_values ms.
Proof.
  induction ms as [|[name vals] ms IH]; cbn; [lia|].
  pose proof (value_count_nonneg vals). lia.
Qed.

Lemma total_cells_nonneg {K} (ms : list (K * option (list string))) :
  0 <= total_cells ms.
Proof.
  induction ms as [|[name vals] ms IH]; cbn; [lia|].
  pose proof (cell_count_nonneg vals). lia.
Qed.

Lemma counters_add_mod a op name vals :
  ai (add_mod a op name vals) = ai a + 1 /\
  vi (add_mod a op name vals) = vi a + cell_count vals /\
  bi (add_mod a op name vals) = bi a + value_count vals.
Proof.
  unfold add_mod, push_attr. cbn [ai vi bi].
  rewrite ai_add_values, vi_add_values, bi_add_values. auto.
Qed.

Lemma fits_cons a op name vals ms :
  fits a ((name, vals) :: ms) <->
  fits (add_mod a op (Some name) vals) ms.
Proof.
  unfold fits. destruct (counters_add_mod a op (Some name) vals) as (-> & -> & ->).
  cbn [List.length total_cells total_values]. sizes. lia.
Qed.

Lemma A_tab2mod_loop_spec (entries : list (value * value)) :
  forall (a : attrs_data) (base : list value) (k0 : value) (op : Z),
  bounded a ->
  Z.of_nat (List.length base) + slots_for entries <= ci_top ->
  ensures (A_tab2mod_loop entries op {| data := a; stack := base ++ [k0] |})
    (fun _ s' =>
       exists ms, wanted_mods entries = Some ms /\
         fits a ms /\
         bounded (build a op ms) /\
         s' = {| data := build a op ms; stack := base |})
    (fun m => builder_error m /\
              forall ms, wanted_mods entries = Some ms -> ~ fits a ms).
Proof.
  induction entries as [|[k v] entries IH]; intros a base k0 op Hb Hframe.
  - cbn [A_tab2mod_loop]. rewrite lua_pop_one. cbn. exists [].
    split; [reflexivity|]. split; [|auto].
    destruct Hb as (_ & Hai & Hvi & Hbi). unfold fits.
    cbn [List.length total_cells total_values]. sizes. lia.
  - cbn [slots_for] in Hframe.
    assert (Hrest : Z.of_nat (List.length base) + slots_for entries <= ci_top) by lia.
    assert (Htwo : Z.of_nat (List.length base) + 2 <= ci_top).
    { pose proof (pushed_for_nonneg v). destruct (attribute_name k); lia. }
    cbn [A_tab2mod_loop]. unfold bind at 1. rewrite lua_pop_one.
    unfold bind at 1. rewrite lua_push_eq by lia.
    unfold bind at 1. rewrite lua_push_eq by (rewrite length_app; cbn [List.length]; lia).
    run_ldap. rewrite <- !app_assoc. cbn [app]. on_stack.
    destruct k as [|b|n|s|es|other]; on_stack;
      try (rewrite lua_pop_value; cbn [wanted_mods attribute_name];
           apply IH; assumption).
    destruct (luaO_str2d s) eqn:Hnum; on_stack.
    + rewrite lua_pop_value. cbn [wanted_mods attribute_name]. rewrite ?Hnum.
      apply IH; assumption.
    + cbn [attribute_name] in Hframe. rewrite Hnum in Hframe.
      pose proof (A_setmod_on_entry a base (VString s) v op (Some s) Hb
                    ltac:(lia)) as Hspec.
      destruct (A_setmod op (Some s) _) as [[] s'|m|]; cbn [ensures] in Hspec |- *;
        [| | contradiction].
      * destruct Hspec as (vals & Hw & Hroom & Hb' & ->).
        rewrite lua_pop_value.
        specialize (IH (add_mod a op (Some s) vals) base (VString s) op Hb' Hrest).
        destruct (A_tab2mod_loop entries op _) as [[] s'|m|];
          cbn [ensures wanted_mods attribute_name] in IH |- *;
          rewrite ?Hnum, ?Hw; [| | contradiction].
        -- destruct IH as (ms & Hms & Hfits & Hbms & ->). rewrite Hms.
           exists ((s, vals) :: ms). split; [reflexivity|].
           split; [apply (fits_cons a op), Hfits | auto].
        -- destruct IH as [Hm Hwhy]. split; [exact Hm|].
           intros ms. destruct (wanted_mods entries) as [ms'|]; [|discriminate].
           intros [= <-] Hfits. apply (Hwhy ms' eq_refl).
           apply (fits_cons a op), Hfits.
      * destruct Hspec as [Hm Hwhy]. split; [exact Hm|].
        intros ms. cbn [wanted_mods attribute_name]. rewrite ?Hnum.
        destruct (wanted_values v) as [vals|]; [|discriminate].
        destruct (wanted_mods entries) as [ms'|]; [|discriminate].
        intros [= <-] (Ha & Hv & Hb2). cbn [List.length total_cells total_values] in *.
        pose proof (total_cells_nonneg ms'). pose proof (total_values_nonneg ms').
        sizes. destruct (Hwhy vals eq_refl) as [Hf|[Hf|Hf]]; lia.
Qed.

Lemma sized_init a : sized a -> sized (init a).
Proof.
  unfold sized, init. cbn [attrs mods values bvals].
  rewrite !length_update_nth. auto.
Qed.

Lemma A_init_eq (a : attrs_data) (st : list value) :
  sized a ->
  A_init {| data := a; stack := st |} = Returns tt {| data := init a; stack := st |}.
Proof.
  intros (Ha & _ & Hv & _). unfold A_init. sizes. run_ldap.
  rewrite store_in by lia. run_ldap. rewrite store_in by lia. reflexivity.
Qed.

Lemma bounded_init a : sized a -> bounded (init a).
Proof.
  intros Hs. split; [apply sized_init, Hs|]. cbn. sizes. lia.
Qed.

Lemma A_lastattr_spec (a : attrs_data) (st : list value) :
  bounded a ->
  ensures (A_lastattr {| data := a; stack := st |})
    (fun _ s' => ai a < LUA_APR_LDAP_MAX_ATTRS /\
                 s' = {| data := push_last a; stack := st |})
    (fun m => m = "too many attributes"%string /\ LUA_APR_LDAP_MAX_ATTRS <= ai a).
Proof.
  intros ((Ha & _) & Hai & _). unfold A_lastattr. sizes. run_ldap.
  destruct (Z.geb_spec (ai a) 128) as [Hfull|Hroom]; run_ldap.
  { split; [reflexivity | exact Hfull]. }
  rewrite store_in by lia. run_ldap. split; [exact Hroom | reflexivity].
Qed.

Lemma A_tab2mod_spec (a : attrs_data) (st : list value) (tab : Z) (op : Z)
  (entries : list (value * value)) (i : nat) :
  bounded a ->
  slot st tab = Some i -> 0 < tab ->
  nth_error st i = Some (VTable entries) ->
  Z.of_nat (List.length st) + slots_for entries <= ci_top ->
  ensures (A_tab2mod tab op {| data := a; stack := st |})
    (fun _ s' =>
       exists ms, wanted_mods entries = Some ms /\
         fits a ms /\
         bounded (build a op ms) /\
         s' = {| data := build a op ms; stack := st |})
    (fun m => builder_error m /\
              forall ms, wanted_mods entries = Some ms -> ~ fits a ms).
Proof.
  intros Hb Hslot Htab Hnth Hframe.
  pose proof (slots_for_pos entries) as Hone.
  unfold A_tab2mod. unfold lua_pushnil. unfold bind at 1.
  rewrite lua_push_eq by lia. run_ldap.
  assert (Hslot' : slot (st ++ [VNil]) tab = Some i).
  { unfold slot in *. rewrite length_app. cbn [List.length].
    destruct (Z.ltb_spec 0 tab); [|lia]. cbn [andb] in *.
    destruct (Z.ltb_spec tab 0); [lia|]. cbn [andb] in *.
    destruct (Z.leb_spec tab (Z.of_nat (List.length st))); [|discriminate Hslot].
    destruct (Z.leb_spec tab (Z.of_nat (List.length st + 1))); [|lia].
    exact Hslot. }
  rewrite Hslot'. run_ldap.
  rewrite nth_error_app1 by (apply nth_error_Some; rewrite Hnth; discriminate).
  rewrite Hnth. run_ldap.
  apply A_tab2mod_loop_spec; assumption.
Qed.
End Tables.

Section Storage.
Context `{LuaCore}.

Lemma stored_agree a a' p strs :
  0 <= p -> p + Z.of_nat (List.length strs) < vi a ->
  agree a a' ->
  stored (values a) (bvals a) (bi a) p strs ->
  stored (values a') (bvals a') (bi a') p strs.
Proof.
  intros Hp Hlen (Hv & Hb & Hvi & Hbi). revert p Hp Hlen.
  induction strs as [|str strs IH]; intros p Hp Hlen; cbn [stored List.length] in *.
  - intros E. rewrite Hv by lia. exact E.
  - intros [(b & Ecell & Hb0 & Eber) Hrest]. split.
    + exists b. rewrite Hv by lia. rewrite Hb by lia. repeat split; auto; lia.
    + apply IH; auto; lia.
Qed.

Lemma agree_refl a : agree a a.
Proof. unfold agree. repeat split; auto; lia. Qed.

Lemma agree_trans a b c : agree a b -> agree b c -> agree a c.
Proof.
  intros (Hv1 & Hb1 & Hvi1 & Hbi1) (Hv2 & Hb2 & Hvi2 & Hbi2).
  unfold agree. repeat split; try lia.
  - intros i Hi. rewrite Hv2 by lia. apply Hv1, Hi.
  - intros i Hi. rewrite Hb2 by lia. apply Hb1, Hi.
Qed.

Lemma agree_push_string a str :
  0 <= vi a -> 0 <= bi a -> agree a (push_string a str).
Proof.
  intros Hvi Hbi. unfold agree, push_string, push_value, push_bval.
  cbn [values bvals vi bi]. repeat split; try lia.
  - intros i Hi. apply nth_error_update_nth_other. lia.
  - intros i Hi. apply nth_error_update_nth_other. lia.
Qed.

Lemma agree_push_value a p : 0 <= vi a -> agree a (push_value a p).
Proof.
  intros Hvi. unfold agree, push_value. cbn [values bvals vi bi].
  repeat split; try lia.
  intros i Hi. apply nth_error_update_nth_other. lia.
Qed.

Lemma agree_push_strings a strs :
  0 <= vi a -> 0 <= bi a -> agree a (push_strings a strs).
Proof.
  revert a. induction strs as [|str strs IH]; intros a Hvi Hbi; cbn [push_strings].
  - apply agree_refl.
  - eapply agree_trans; [apply agree_push_string; assumption|].
    apply IH; cbn; lia.
Qed.

Lemma agree_add_values a vals :
  0 <= vi a -> 0 <= bi a -> agree a (add_values a vals).
Proof.
  intros Hvi Hbi. destruct vals as [strs|]; cbn [add_values]; [|apply agree_refl].
  eapply agree_trans; [apply agree_push_strings; assumption|].
  apply agree_push_value. rewrite vi_push_strings. lia.
Qed.

(** The strings pushed for one attribute are stored from the cell that was
    free before. *)
Lemma stored_push_strings strs :
  forall a,
  sized a -> 0 <= vi a -> 0 <= bi a ->
  vi a + Z.of_nat (List.length strs) < LUA_APR_LDAP_ARRAY_VALUES_SIZE ->
  bi a + Z.of_nat (List.length strs) <= LUA_APR_LDAP_MAX_VALUES ->
  stored (values (push_value (push_strings a strs) None))
         (bvals (push_value (push_strings a strs) None))
         (bi (push_value (push_strings a strs) None)) (vi a) strs.
Proof.
  induction strs as [|str strs IH]; intros a Hs Hvi Hbi Hv Hb;
    cbn [push_strings stored List.length] in *; sizes.
  - unfold push_value. cbn [values]. apply nth_error_update_nth.
    destruct Hs as (_ & _ & Hlen & _). sizes. lia.
  - assert (Hs1 : sized (push_string a str)) by (apply sized_push_string, Hs).
    specialize (IH (push_string a str) Hs1).
    cbn [push_string push_value push_bval vi bi] in IH.
    specialize (IH ltac:(lia) ltac:(lia) ltac:(lia) ltac:(lia)).
    split; [|exact IH].
    set (a1 := push_string a str) in *.
    assert (Hag : agree a1 (push_value (push_strings a1 strs) None)).
    { eapply agree_trans; [apply agree_push_strings; cbn; lia|].
      apply agree_push_value. rewrite vi_push_strings. cbn. lia. }
    destruct Hag as (Hvals & Hbvals & _ & Hbi').
    exists (bi a). rewrite Hvals by (cbn; lia). rewrite Hbvals by (cbn; lia).
    destruct Hs as (_ & _ & Hlv & Hlb). sizes.
    split; [|split].
    + unfold a1, push_string, push_value, push_bval. cbn [values vi].
      apply nth_error_update_nth. lia.
    + cbn [bi push_value] in *. rewrite bi_push_strings in *. cbn in *. lia.
    + unfold a1, push_string, push_value, push_bval. cbn [bvals bi].
      apply nth_error_update_nth. lia.
Qed.
End Storage.

Section Reading.
Context `{LuaCore}.

Lemma holds_add_mod a op ms name vals :
  sized a -> 0 <= vi a -> 0 <= bi a ->
  ai a < LUA_APR_LDAP_MAX_ATTRS ->
  vi a + cell_count vals <= LUA_APR_LDAP_ARRAY_VALUES_SIZE ->
  bi a + value_count vals <= LUA_APR_LDAP_MAX_VALUES ->
  holds a ms ->
  holds (add_mod a op (Some name) vals) (ms ++ [(op, name, vals)]).
Proof.
  intros Hs Hvi Hbi Hai Hv Hb [Hlen Hcells]. sizes.
  pose proof Hs as (Hla & Hlm & Hlv & Hlb). sizes.
  pose proof (agree_add_values a vals Hvi Hbi) as Hag.
  split.
  - destruct (counters_add_mod a op (Some name) vals) as (-> & _).
    rewrite length_app. cbn [List.length]. lia.
  - intros j op' name' vals' Hj.
    assert (Hcase : (j < List.length ms)%nat \/ j = List.length ms).
    { assert (j < List.length (ms ++ [(op, name, vals)]))%nat
        by (apply nth_error_Some; rewrite Hj; discriminate).
      rewrite length_app in *. cbn [List.length] in *. lia. }
    unfold add_mod, push_attr. cbn [attrs mods values bvals vi bi].
    rewrite ai_add_values, attrs_add_values, mods_add_values.
    destruct Hcase as [Hold| ->].
    + rewrite nth_error_app1 in Hj by exact Hold.
      destruct (Hcells j op' name' vals' Hj) as (Hattr & m & Hm & Hop & Hty & Hvals).
      rewrite !nth_error_update_nth_other by lia.
      split; [exact Hattr|]. exists m. repeat split; auto.
      destruct vals' as [strs|]; [|exact Hvals].
      destruct Hvals as (p & Hp & Hp0 & Hplen & Hst).
      exists p. repeat split; auto.
      * destruct Hag as (_ & _ & Hle & _). lia.
      * apply (stored_agree a); assumption.
    + rewrite nth_error_app2 in Hj by lia.
      replace (List.length ms - List.length ms)%nat with 0%nat in Hj by lia.
      cbn in Hj. injection Hj as <- <- <-.
      replace (Z.to_nat (ai a)) with (List.length ms) by lia.
      rewrite !nth_error_update_nth by lia.
      split; [f_equal; f_equal; lia|].
      eexists. split; [reflexivity|]. cbn [mod_op mod_type mod_bvalues].
      repeat split.
      destruct vals as [strs|]; cbn [values_pointer]; [|reflexivity].
      exists (vi a). cbn [add_values cell_count value_count] in *.
      repeat split; auto.
      * cbn [push_value vi]. rewrite vi_push_strings. lia.
      * apply stored_push_strings; auto; sizes; lia.
Qed.

Lemma bounded_add_mod a op name vals :
  bounded a ->
  ai a < LUA_APR_LDAP_MAX_ATTRS ->
  vi a + cell_count vals <= LUA_APR_LDAP_ARRAY_VALUES_SIZE ->
  bi a + value_count vals <= LUA_APR_LDAP_MAX_VALUES ->
  bounded (add_mod a op name vals).
Proof.
  intros (Hs & Hai & Hvi & Hbi) Ha Hv Hb. split.
  - apply sized_push_attr, sized_add_values, Hs.
  - destruct (counters_add_mod a op name vals) as (-> & -> & ->).
    pose proof (cell_count_nonneg vals). pose proof (value_count_nonneg vals).
    sizes. lia.
Qed.

Lemma holds_build ms :
  forall a op done,
  bounded a -> fits a ms -> holds a done ->
  holds (build a op ms) (done ++ tagged op ms).
Proof.
  induction ms as [|[name vals] ms IH]; intros a op done Hb Hfits Hh;
    cbn [build tagged map fst snd].
  - rewrite app_nil_r. exact Hh.
  - pose proof Hfits as (Ha & Hv & Hbv). cbn [List.length total_cells total_values] in *.
    pose proof (total_cells_nonneg ms). pose proof (total_values_nonneg ms).
    pose proof Hb as (Hs & Hai & Hvi & Hbi). sizes.
    change (map (fun m => (op, fst m, snd m)) ms) with (tagged op ms).
    replace (done ++ (op, name, vals) :: tagged op ms)
      with ((done ++ [(op, name, vals)]) ++ tagged op ms)
      by (rewrite <- app_assoc; reflexivity).
    apply IH.
    + apply bounded_add_mod; auto; sizes; lia.
    + apply (fits_cons a op), Hfits.
    + apply holds_add_mod; auto; sizes; lia.
Qed.

Lemma holds_init a : holds (init a) [].
Proof.
  split; [reflexivity|]. intros [|j] op name vals Hj; discriminate Hj.
Qed.

Lemma read_from_cells (cells : list (option Z)) (f : nat -> Z) (n : nat) :
  forall i fuel,
  (forall k, (k < n)%nat -> nth_error cells (i + k) = Some (Some (f k))) ->
  nth_error cells (i + n) = Some None ->
  (n < fuel)%nat ->
  read_from cells i fuel = map f (seq 0 n).
Proof.
  revert f. induction n as [|n IH]; intros f i fuel Hcells Hend Hfuel.
  - destruct fuel as [|fuel]; [lia|]. cbn. rewrite Nat.add_0_r in Hend.
    rewrite Hend. reflexivity.
  - destruct fuel as [|fuel]; [lia|]. cbn [read_from seq map].
    pose proof (Hcells 0%nat ltac:(lia)) as H0. rewrite Nat.add_0_r in H0. rewrite H0.
    f_equal. rewrite <- seq_shift, map_map.
    apply (IH (fun k => f (S k))).
    + intros k Hk. replace (S i + k)%nat with (i + S k)%nat by lia. apply Hcells. lia.
    + replace (S i + n)%nat with (i + S n)%nat by lia. exact Hend.
    + lia.
Qed.

Lemma read_from_stored vs bs n strs :
  forall p fuel,
  0 <= p ->
  stored vs bs n p strs ->
  (List.length strs < fuel)%nat ->
  map (fun b => nth (Z.to_nat b) bs {| bv_len := 0; bv_val := None |})
    (read_from vs (Z.to_nat p) fuel) = map ber strs.
Proof.
  induction strs as [|str strs IH]; intros p fuel Hp Hst Hfuel;
    cbn [stored List.length] in *.
  - destruct fuel as [|fuel]; [lia|]. cbn. rewrite Hst. reflexivity.
  - destruct fuel as [|fuel]; [lia|]. cbn [read_from].
    destruct Hst as [(b & Ecell & Hb & Eber) Hrest]. rewrite Ecell. cbn [map].
    f_equal.
    + apply nth_error_nth, Eber.
    + replace (S (Z.to_nat p)) with (Z.to_nat (p + 1)) by lia.
      apply IH; auto; lia.
Qed.

Lemma map_seq_nth {A B} (g : nat -> B) (h : A -> B) (l : list A) :
  forall k,
  (forall j x, nth_error l j = Some x -> g (k + j)%nat = h x) ->
  map g (seq k (List.length l)) = map h l.
Proof.
  induction l as [|x l IH]; intros k Hg; cbn [List.length seq map]; [reflexivity|].
  f_equal.
  - rewrite <- (Hg 0%nat x eq_refl). f_equal. lia.
  - apply IH. intros j y Hj. replace (S k + j)%nat with (k + S j)%nat by lia.
    apply Hg. exact Hj.
Qed.

(** What the library reads from a structure that holds [ms], once the array
    of attributes is closed. *)
Lemma read_mods_holds a ms :
  sized a -> 0 <= vi a <= LUA_APR_LDAP_ARRAY_VALUES_SIZE ->
  ai a < LUA_APR_LDAP_MAX_ATTRS ->
  holds a ms ->
  read_mods (push_last a) = asked ms.
Proof.
  intros (Hla & Hlm & Hlv & Hlb) Hvi Hai [Hlen Hcells]. sizes.
  unfold read_mods, read_cells, asked.
  assert (Hread : read_from (attrs (push_last a)) (Z.to_nat 0)
                    (List.length (attrs (push_last a)))
                  = map Z.of_nat (seq 0 (List.length ms))).
  { apply read_from_cells.
    - intros k Hk. cbn [push_last attrs Z.to_nat Nat.add].
      rewrite nth_error_update_nth_other by lia.
      destruct (nth_error ms k) as [[[op name] vals]|] eqn:Ek.
      + apply (Hcells k op name vals Ek).
      + apply nth_error_None in Ek. lia.
    - cbn [push_last attrs Z.to_nat Nat.add].
      replace (List.length ms) with (Z.to_nat (ai a)) by lia.
      apply nth_error_update_nth. lia.
    - cbn [push_last attrs]. rewrite length_update_nth. lia. }
  rewrite Hread, map_map.
  apply map_seq_nth. intros j [[op name] vals] Hj. cbn [Nat.add fst snd].
  destruct (Hcells j op name vals Hj) as (_ & m & Hm & Hop & Hty & Hvals).
  unfold read_mod. cbn [push_last mods]. rewrite Nat2Z.id.
  rewrite (nth_error_nth _ _ _ Hm), Hop, Hty.
  f_equal.
  destruct vals as [strs|].
  - destruct Hvals as (p & -> & Hp & Hplen & Hst). cbn [option_map]. f_equal.
    unfold read_values, read_cells. cbn [push_last values bvals].
    apply (read_from_stored _ _ (bi a)); auto. lia.
  - rewrite Hvals. reflexivity.
Qed.
End Reading.

Section Attributes.
Context `{LuaCore}.

Lemma counters_build ms :
  forall a op,
  ai (build a op ms) = ai a + Z.of_nat (List.length ms) /\
  vi (build a op ms) = vi a + total_cells ms /\
  bi (build a op ms) = bi a + total_values ms.
Proof.
  induction ms as [|[name vals] ms IH]; intros a op;
    cbn [build List.length total_cells total_values].
  - lia.
  - destruct (IH (add_mod a op (Some name) vals) op) as (-> & -> & ->).
    destruct (counters_add_mod a op (Some name) vals) as (-> & -> & ->). lia.
Qed.

Lemma total_cells_le {K} (ms : list (K * option (list string))) :
  total_cells ms <= total_values ms + Z.of_nat (List.length ms).
Proof.
  induction ms as [|[name [strs|]] ms IH]; cbn [total_cells total_values List.length
                                                  cell_count value_count]; lia.
Qed.

Lemma slot_index (st : list value) (tab : Z) :
  0 < tab <= Z.of_nat (List.length st) -> slot st tab = Some (Z.to_nat (tab - 1)).
Proof.
  intros Htab. unfold slot.
  destruct (Z.ltb_spec 0 tab); [|lia].
  destruct (Z.leb_spec tab (Z.of_nat (List.length st))); [|lia]. reflexivity.
Qed.

Lemma length_tagged op ms : List.length (tagged op ms) = List.length ms.
Proof. apply length_map. Qed.

Lemma fits_init a ms :
  fits (init a) ms /\ Z.of_nat (List.length ms) < LUA_APR_LDAP_MAX_ATTRS <-> within_limits ms.
Proof.
  unfold fits, within_limits. cbn [init ai vi bi]. pose proof (total_cells_le ms). sizes.
  lia.
Qed.

Lemma A_tab2mod_holds (a : attrs_data) (st : list value) (tab op : Z)
  (entries : list (value * value)) (done : list (Z * string * option (list string))) :
  bounded a -> holds a done ->
  0 < tab <= Z.of_nat (List.length st) ->
  nth_error st (Z.to_nat (tab - 1)) = Some (VTable entries) ->
  Z.of_nat (List.length st) + slots_for entries <= ci_top ->
  ensures (A_tab2mod tab op {| data := a; stack := st |})
    (fun _ s' =>
       exists ms, wanted_mods entries = Some ms /\ fits a ms /\
         bounded (build a op ms) /\ holds (build a op ms) (done ++ tagged op ms) /\
         s' = {| data := build a op ms; stack := st |})
    (fun m => builder_error m /\
              forall ms, wanted_mods entries = Some ms -> ~ fits a ms).
Proof.
  intros Hb Hh Htab Hnth Hframe.
  pose proof (A_tab2mod_spec a st tab op entries _ Hb
                (slot_index st tab Htab) (proj1 Htab) Hnth Hframe) as Hspec.
  destruct (A_tab2mod tab op _) as [[] s'|m|]; cbn [ensures] in Hspec |- *;
    [| exact Hspec | contradiction].
  destruct Hspec as (ms & Hms & Hfits & Hb' & ->).
  exists ms. split; [exact Hms|]. split; [exact Hfits|]. split; [exact Hb'|].
  split; [|reflexivity]. apply (holds_build ms a op done); auto.
Qed.

Lemma A_lastattr_holds (a : attrs_data) (st : list value)
  (items : list (Z * string * option (list string))) :
  bounded a -> holds a items ->
  ensures (A_lastattr {| data := a; stack := st |})
    (fun _ s' => Z.of_nat (List.length items) < LUA_APR_LDAP_MAX_ATTRS /\
                 stack s' = st /\ bounded (data s') /\
                 read_mods (data s') = asked items)
    (fun m => m = "too many attributes"%string /\
              LUA_APR_LDAP_MAX_ATTRS <= Z.of_nat (List.length items)).
Proof.
  intros Hb Hh. pose proof (A_lastattr_spec a st Hb) as Hlast.
  pose proof Hh as [Hai _]. pose proof Hb as (Hs & Ha & Hv & Hbi).
  destruct (A_lastattr _) as [[] s'|m|]; cbn [ensures] in Hlast |- *;
    [| | contradiction].
  - destruct Hlast as [Hroom ->]. cbn [stack data].
    split; [lia|]. split; [reflexivity|]. split.
    + split; [|cbn [push_last ai vi bi]; sizes; lia].
      destruct Hs as (Hla & Hlm & Hlv & Hlb). unfold sized, push_last.
      cbn [attrs mods values bvals]. rewrite length_update_nth. auto.
    + apply read_mods_holds; auto.
  - destruct Hlast as [-> Hfull]. split; [reflexivity|lia].
Qed.

(** How the part of [lua_apr_ldap_add] that builds the array ends. *)
Lemma lua_apr_ldap_add_outcome (a : attrs_data) (st : list value) :
  sized a ->
  add_room st ->
  ensures (lua_apr_ldap_add {| data := a; stack := st |})
    (fun _ s' =>
       exists ms, add_entries st = Some ms /\ within_limits ms /\
         stack s' = st /\ bounded (data s') /\
         read_mods (data s') = asked (tagged LUA_APR_LDAP_MOD_ADD ms))
    (fun m => builder_error m /\
              forall ms, add_entries st = Some ms -> ~ within_limits ms).
Proof.
  intros Hs Hframe. unfold lua_apr_ldap_add, add_entries. unfold add_room in Hframe.
  unfold bind at 1.
  rewrite (A_init_eq a st Hs). unfold bind at 1, lua_istable, peek.
  run_ldap. unfold slot. cbn [stack].
  change (0 <? 3) with true. cbn [andb].
  destruct (Z.leb_spec 3 (Z.of_nat (List.length st))) as [Hlen|Hlen].
  - change (Z.to_nat (3 - 1)) with 2%nat.
    destruct (nth_error st 2) as [v|] eqn:Hv;
      [|apply nth_error_None in Hv; lia].
    run_ldap.
    assert (Hempty : ensures (A_lastattr {| data := init a; stack := st |})
              (fun _ s' => exists ms, Some [] = Some ms /\ within_limits ms /\
                 stack s' = st /\ bounded (data s') /\
                 read_mods (data s') = asked (tagged LUA_APR_LDAP_MOD_ADD ms))
              (fun m => builder_error m /\
                 forall ms, Some [] = Some ms -> ~ within_limits ms)).
    { pose proof (A_lastattr_holds (init a) st [] (bounded_init a Hs) (holds_init a))
        as Hlast.
      destruct (A_lastattr _) as [[] s'|m|]; cbn [ensures] in Hlast |- *;
        [| | contradiction].
      - destruct Hlast as (_ & Hst & Hb & Hread). exists [].
        split; [reflexivity|]. split; [unfold within_limits; cbn; sizes; lia|].
        split; [exact Hst|]. split; [exact Hb|exact Hread].
      - destruct Hlast as [_ Hfull]. cbn [List.length] in Hfull. sizes. lia. }
    destruct v as [|b|n|s|entries|other]; try exact Hempty. clear Hempty.
    pose proof (A_tab2mod_holds (init a) st 3 LUA_APR_LDAP_MOD_ADD entries []
                  (bounded_init a Hs) (holds_init a) ltac:(lia) Hv Hframe) as Hspec.
    destruct (A_tab2mod 3 _ _) as [[] s'|m|]; cbn [ensures] in Hspec |- *;
      [| | contradiction].
    + destruct Hspec as (ms & Hms & Hfits & Hb & Hh & ->). cbn [app] in Hh.
      pose proof (A_lastattr_holds _ st _ Hb Hh) as Hlast.
      rewrite !length_tagged in Hlast.
      destruct (A_lastattr _) as [[] s'|m|]; cbn [ensures] in Hlast |- *;
        [| | contradiction].
      * destruct Hlast as (Hroom & Hst & Hb' & Hread). exists ms.
        split; [exact Hms|]. split; [apply (proj1 (fits_init a ms)); split; assumption|].
        split; [exact Hst|]. split; [exact Hb'|exact Hread].
      * destruct Hlast as [-> Hfull]. split; [left; reflexivity|].
        intros ms'. rewrite Hms. intros [= <-] [Hlen' _]. sizes. lia.
    + destruct Hspec as [Hm Hwhy]. split; [exact Hm|].
      intros ms Hms Hlim. apply (Hwhy ms Hms). apply (proj2 (fits_init a ms)), Hlim.
  - assert (Hnone : nth_error st 2 = None) by (apply nth_error_None; lia).
    rewrite Hnone. run_ldap.
    pose proof (A_lastattr_holds (init a) st [] (bounded_init a Hs) (holds_init a))
      as Hlast.
    destruct (A_lastattr _) as [[] s'|m|]; cbn [ensures] in Hlast |- *;
      [| | contradiction].
    + destruct Hlast as (_ & Hst & Hb & Hread). exists [].
      split; [reflexivity|]. split; [unfold within_limits; cbn; sizes; lia|].
      split; [exact Hst|]. split; [exact Hb|exact Hread].
    + destruct Hlast as [_ Hfull]. cbn [List.length] in Hfull. sizes. lia.
Qed.
End Attributes.

Section Modify.
Context `{LuaCore}.

Lemma total_values_app {K} (l1 l2 : list (K * option (list string))) :
  total_values (l1 ++ l2) = total_values l1 + total_values l2.
Proof. induction l1 as [|[k v] l1 IH]; cbn [app total_values]; lia. Qed.

Lemma total_cells_app {K} (l1 l2 : list (K * option (list string))) :
  total_cells (l1 ++ l2) = total_cells l1 + total_cells l2.
Proof. induction l1 as [|[k v] l1 IH]; cbn [app total_cells]; lia. Qed.

Lemma total_values_tagged op ms : total_values (tagged op ms) = total_values ms.
Proof.
  unfold tagged. induction ms as [|[k v] ms IH]; cbn [map total_values fst snd]; lia.
Qed.

Lemma total_cells_tagged op ms : total_cells (tagged op ms) = total_cells ms.
Proof.
  unfold tagged. induction ms as [|[k v] ms IH]; cbn [map total_cells fst snd]; lia.
Qed.

Lemma fits_app a op ms (items : list (Z * string * option (list string))) :
  bounded a ->
  fits a (tagged op ms ++ items) <-> fits a ms /\ fits (build a op ms) items.
Proof.
  intros (_ & Hai & Hvi & Hbi).
  unfold fits. destruct (counters_build ms a op) as (-> & -> & ->).
  rewrite length_app, length_tagged, total_cells_app, total_values_app,
    total_cells_tagged, total_values_tagged.
  pose proof (total_cells_nonneg items). pose proof (total_values_nonneg items).
  lia.
Qed.

Lemma skipn_nth_error {A} (l : list A) : forall n,
  skipn n l = match nth_error l n with
              | Some x => x :: skipn (S n) l
              | None => []
              end.
Proof.
  induction l as [|y l IH]; intros [|n]; cbn [skipn nth_error]; auto.
Qed.

Lemma modify_tables_step (cur : list value) (param : Z) :
  0 < param ->
  modify_tables cur param =
  match nth_error cur (Z.to_nat (param - 1)) with
  | Some (VTable entries) => entries :: modify_tables cur (param + 1)
  | _ => []
  end.
Proof.
  intros Hp. unfold modify_tables. rewrite skipn_nth_error.
  replace (Z.to_nat (param + 1 - 1)) with (S (Z.to_nat (param - 1))) by lia.
  destruct (nth_error cur (Z.to_nat (param - 1))) as [[| | | | |]|]; reflexivity.
Qed.

Lemma leading_tables_pushed (l : list value) (s : string) :
  leading_tables (l ++ [VString s]) = leading_tables l.
Proof.
  induction l as [|[| | | |entries|] l IH]; cbn [app leading_tables]; auto.
  now rewrite IH.
Qed.

Lemma modify_tables_pushed (cur : list value) (s : string) (param : Z) :
  0 < param -> param - 1 <= Z.of_nat (List.length cur) ->
  modify_tables (cur ++ [VString s]) param = modify_tables cur param.
Proof.
  intros Hp Hlen. unfold modify_tables. rewrite skipn_app.
  replace (Z.to_nat (param - 1) - List.length cur)%nat with 0%nat by lia.
  cbn [skipn]. apply leading_tables_pushed.
Qed.

Lemma lua_istable_eq (a : attrs_data) (cur : list value) (param : Z) :
  0 < param ->
  lua_istable param {| data := a; stack := cur |} =
  Returns (match nth_error cur (Z.to_nat (param - 1)) with
           | Some (VTable _) => true
           | _ => false
           end) {| data := a; stack := cur |}.
Proof.
  intros Hp. unfold lua_istable, peek. run_ldap. unfold slot.
  destruct (Z.ltb_spec 0 param); [|lia]. cbn [andb].
  destruct (Z.leb_spec param (Z.of_nat (List.length cur))) as [Hle|Hgt].
  - destruct (nth_error cur (Z.to_nat (param - 1))) as [v|] eqn:Hv;
      [|apply nth_error_None in Hv; lia].
    run_ldap. destruct v; reflexivity.
  - destruct (Z.ltb_spec param 0); [lia|]. cbn [andb]. run_ldap.
    replace (nth_error cur (Z.to_nat (param - 1))) with (@None value)
      by (symmetry; apply nth_error_None; lia).
    reflexivity.
Qed.

Lemma lua_rawgeti_eq (a : attrs_data) (cur : list value) (param n : Z)
  (entries : list (value * value)) :
  0 < param ->
  nth_error cur (Z.to_nat (param - 1)) = Some (VTable entries) ->
  Z.of_nat (List.length cur) < ci_top ->
  lua_rawgeti param n {| data := a; stack := cur |} =
  Returns tt {| data := a; stack := cur ++ [table_geti entries n] |}.
Proof.
  intros Hp Hv Hframe. unfold lua_rawgeti. run_ldap.
  assert (Hlen : (Z.to_nat (param - 1) < List.length cur)%nat)
    by (apply nth_error_Some; rewrite Hv; discriminate).
  rewrite (slot_index cur param) by lia. run_ldap. rewrite Hv. run_ldap.
  apply lua_push_eq, Hframe.
Qed.

Lemma modify_slots_nonneg (tables : list (list (value * value))) :
  0 <= modify_slots tables.
Proof.
  destruct tables as [|entries rest]; cbn [modify_slots]; [lia|].
  pose proof (slots_for_pos entries). lia.
Qed.

Lemma lua_tostring_top (a : attrs_data) (base : list value) (x : value) :
  lua_tostring (-1) {| data := a; stack := base ++ [x] |} =
  Returns (as_string x) {| data := a; stack := base ++ [converted x] |}.
Proof.
  unfold lua_tostring. run_ldap. on_stack.
  destruct x; run_ldap; on_stack; reflexivity.
Qed.

Lemma op2code_string (x : value) :
  op2code (as_string x) <> LUA_APR_LDAP_NOOP -> exists s, converted x = VString s.
Proof.
  destruct x; cbn [as_string converted op2code]; try (intros E; now elim E); eauto.
Qed.


(** The loop stops at the first table that names no operation, when the
    tables before it were stored. *)
Lemma lua_apr_ldap_modify_loop_forgotten (pre : list (list (value * value))) :
  forall (fuel : nat) (cur : list value) (param : Z) (a : attrs_data)
         (done items : list (Z * string * option (list string)))
         (entries : list (value * value)) (post : list (list (value * value))),
  bounded a -> holds a done -> 0 < param ->
  modify_tables cur param = pre ++ entries :: post ->
  Forall (fun es => table_op es <> LUA_APR_LDAP_NOOP) pre ->
  table_op entries = LUA_APR_LDAP_NOOP ->
  modify_items pre = Some items -> fits a items ->
  (List.length pre < fuel)%nat ->
  Z.of_nat (List.length cur) + modify_slots pre + 1 <= ci_top ->
  lua_apr_ldap_modify_loop fuel param {| data := a; stack := cur |} =
  Raises (forgotten (param + Z.of_nat (List.length pre))).
Proof.
  induction pre as [|es pre IH];
    intros fuel cur param a done items entries post Hb Hh Hp Htabs Hops Hnoop
      Hitems Hfits Hfuel Hframe;
    (destruct fuel as [|fuel]; [cbn [List.length] in Hfuel; lia|]);
    cbn [modify_slots] in Hframe;
    try (pose proof (modify_slots_nonneg pre) as Hmore;
         pose proof (slots_for_pos es) as Hone);
    cbn [lua_apr_ldap_modify_loop]; unfold bind at 1;
    rewrite (lua_istable_eq a cur param Hp);
    rewrite (modify_tables_step cur param Hp) in Htabs;
    (destruct (nth_error cur (Z.to_nat (param - 1))) as [[| | | |es0|]|] eqn:Hv;
     try discriminate Htabs);
    cbn [app] in Htabs; injection Htabs as -> Htabs;
    unfold bind at 1; rewrite (lua_rawgeti_eq a cur param 1 _ Hp Hv) by lia;
    unfold bind at 1; rewrite lua_tostring_top.
  - fold (table_op entries). rewrite Hnoop. cbn.
    unfold forgotten. rewrite Z.add_0_r. reflexivity.
  - fold (table_op es). fold (op_value es).
    inversion Hops as [|? ? Hop Hops']; subst.
    destruct (Z.eqb_spec (table_op es) LUA_APR_LDAP_NOOP) as [E|_]; [contradiction|].
    destruct (op2code_string _ Hop) as [s Hs]. fold (op_value es) in Hs.
    cbn [modify_items] in Hitems.
    destruct (wanted_mods es) as [ms|] eqn:Hms; [|discriminate Hitems].
    destruct (modify_items pre) as [items'|] eqn:Hitems'; [|discriminate Hitems].
    injection Hitems as <-.
    apply (fits_app a (table_op es) ms items' Hb) in Hfits.
    destruct Hfits as [Hfits1 Hfits2].
    assert (Hlen : (Z.to_nat (param - 1) < List.length cur)%nat)
      by (apply nth_error_Some; rewrite Hv; discriminate).
    assert (Hv' : nth_error (cur ++ [op_value es]) (Z.to_nat (param - 1))
                  = Some (VTable es)) by (rewrite nth_error_app1; assumption).
    pose proof (A_tab2mod_holds a (cur ++ [op_value es]) param (table_op es)
                  es done Hb Hh
                  ltac:(rewrite length_app; cbn [List.length]; lia) Hv'
                  ltac:(rewrite length_app; cbn [List.length]; lia)) as Hspec.
    unfold bind at 1.
    destruct (A_tab2mod param _ _) as [[] s'|m|]; cbn [ensures] in Hspec;
      [| destruct Hspec as [_ Hwhy]; elim (Hwhy ms Hms Hfits1) | contradiction].
    destruct Hspec as (ms' & Hms' & _ & Hb' & Hh' & ->).
    rewrite Hms in Hms'. injection Hms' as <-.
    rewrite (IH fuel (cur ++ [op_value es]) (param + 1) _ _ items' entries post
               Hb' Hh' ltac:(lia)); auto.
    + cbn [List.length]. f_equal. f_equal. lia.
    + rewrite Hs. rewrite modify_tables_pushed by lia. exact Htabs.
    + cbn [List.length] in Hfuel. lia.
    + rewrite length_app. cbn [List.length]. lia.
Qed.

End Modify.

Section Requests.
Context `{LuaCore}.

Lemma wanted_mods_names (entries : list (value * value)) :
  forall ms, wanted_mods entries = Some ms -> map fst ms = named_keys entries.
Proof.
  induction entries as [|[k v] entries IH]; intros ms Hms;
    cbn [wanted_mods named_keys] in *.
  - injection Hms as <-. reflexivity.
  - destruct (attribute_name k) as [name|]; [|auto].
    destruct (wanted_values v) as [vals|]; [|discriminate Hms].
    destruct (wanted_mods entries) as [ms'|]; [|discriminate Hms].
    injection Hms as <-. cbn [map fst]. f_equal. auto.
Qed.

Lemma asked_names op ms :
  map (fun m => snd (fst m)) (asked (tagged op ms)) = map Some (map fst ms).
Proof.
  unfold asked, tagged. rewrite !map_map. apply map_ext. intros [name vals]. reflexivity.
Qed.

(** X16: whatever the structure on the C stack held and whatever the
    arguments are, as long as the frame has the slots the table takes
    ([add_room]: the function never asks for more with lua_checkstack),
    [lua_apr_ldap_add] writes inside the arrays only and leaves the Lua
    stack as it found it: it comes to the call of the library with the
    counters within the arrays, or raises one of the three errors of the
    builder. *)
Theorem lua_apr_ldap_add_in_bounds (a : attrs_data) (st : list value) :
  sized a -> add_room st ->
  ensures (lua_apr_ldap_add {| data := a; stack := st |})
    (fun _ s' => stack s' = st /\ bounded (data s'))
    builder_error.
Proof.
  intros Hs Hroom. pose proof (lua_apr_ldap_add_outcome a st Hs Hroom) as Hrun.
  destruct (lua_apr_ldap_add _) as [[] s'|m|]; cbn [ensures] in *; [| |exact Hrun].
  - destruct Hrun as (ms & _ & _ & Hst & Hb & _). auto.
  - apply Hrun.
Qed.

(** X17: in a frame with the slots the table takes, [lua_apr_ldap_add]
    comes to the call of the library exactly when every attribute of the
    table has true, a string, a number or a list of strings and numbers as
    its value, the attributes are at most 127 and their values at most 128
    in all. *)
Theorem lua_apr_ldap_add_capacity (a : attrs_data) (st : list value) :
  sized a -> add_room st ->
  (exists s', lua_apr_ldap_add {| data := a; stack := st |} = Returns tt s') <->
  (exists ms, add_entries st = Some ms /\
     Z.of_nat (List.length ms) <= 127 /\ total_values ms <= 128).
Proof.
  intros Hs Hroom. pose proof (lua_apr_ldap_add_outcome a st Hs Hroom) as Hrun.
  destruct (lua_apr_ldap_add _) as [[] s'|m|]; cbn [ensures] in *;
    [| |contradiction].
  - destruct Hrun as (ms & Hms & [Hn Hv] & _). sizes.
    split; [intros _; exists ms; repeat split; auto; lia|eauto].
  - destruct Hrun as [_ Hwhy]. split; [intros [s' E]; discriminate E|].
    intros (ms & Hms & Hn & Hv). elim (Hwhy ms Hms). split; sizes; lia.
Qed.

(** X18: in a frame with the slots the table takes, when
    [lua_apr_ldap_add] comes to the call, the library reads from the
    NULL-terminated arrays the attributes of the table in its order, each
    with the operation LDAP_MOD_ADD | LDAP_MOD_BVALUES, its name and its
    values with their lengths (no values for true). *)
Theorem lua_apr_ldap_add_round_trip (a : attrs_data) (st : list value) :
  sized a -> add_room st ->
  ensures (lua_apr_ldap_add {| data := a; stack := st |})
    (fun _ s' =>
       exists ms, add_entries st = Some ms /\
         read_mods (data s') = asked (tagged LUA_APR_LDAP_MOD_ADD ms))
    (fun _ => True).
Proof.
  intros Hs Hroom. pose proof (lua_apr_ldap_add_outcome a st Hs Hroom) as Hrun.
  destruct (lua_apr_ldap_add _) as [[] s'|m|]; cbn [ensures] in *;
    [|exact I|exact Hrun].
  destruct Hrun as (ms & Hms & _ & _ & _ & Hread). eauto.
Qed.

(** X19: when the third argument of [add] is not a table (nil, a string, a
    number, or not given at all) no error is raised: the request goes out
    with no attribute. *)
Theorem lua_apr_ldap_add_without_table (a : attrs_data) (st : list value) :
  sized a ->
  (forall entries, nth_error st 2 <> Some (VTable entries)) ->
  exists s', lua_apr_ldap_add {| data := a; stack := st |} = Returns tt s' /\
             read_mods (data s') = [] /\ stack s' = st.
Proof.
  intros Hs Hnot.
  assert (Hroom : add_room st).
  { unfold add_room. destruct (nth_error st 2) as [[| | | |entries|]|] eqn:E; auto.
    elim (Hnot entries). reflexivity. }
  pose proof (lua_apr_ldap_add_outcome a st Hs Hroom) as Hrun.
  assert (Hnone : add_entries st = Some []).
  { unfold add_entries. destruct (nth_error st 2) as [[| | | |entries|]|] eqn:E; auto.
    elim (Hnot entries). reflexivity. }
  destruct (lua_apr_ldap_add _) as [[] s'|m|]; cbn [ensures] in *;
    [| |contradiction].
  - destruct Hrun as (ms & Hms & _ & Hst & _ & Hread).
    rewrite Hnone in Hms. injection Hms as <-. eauto.
  - destruct Hrun as [_ Hwhy]. elim (Hwhy [] Hnone).
    unfold within_limits. cbn. sizes. lia.
Qed.

(** X20: the attributes [add] sends are named by the keys of the table that
    are strings and do not convert to a number, in the order of the table;
    an entry with a number as its key, or with a string such as "10", is
    left out without an error.  The frame is to have the slots the table
    takes. *)
Theorem lua_apr_ldap_add_names (a : attrs_data) (st : list value)
  (entries : list (value * value)) :
  sized a ->
  nth_error st 2 = Some (VTable entries) ->
  Z.of_nat (List.length st) + slots_for entries <= ci_top ->
  ensures (lua_apr_ldap_add {| data := a; stack := st |})
    (fun _ s' => sent_names (data s') = map Some (named_keys entries))
    (fun _ => True).
Proof.
  intros Hs Htab Hframe.
  assert (Hroom : add_room st) by (unfold add_room; rewrite Htab; exact Hframe).
  pose proof (lua_apr_ldap_add_outcome a st Hs Hroom) as Hrun.
  destruct (lua_apr_ldap_add _) as [[] s'|m|]; cbn [ensures] in *;
    [|exact I|exact Hrun].
  destruct Hrun as (ms & Hms & _ & _ & _ & Hread).
  unfold add_entries in Hms. rewrite Htab in Hms.
  unfold sent_names. rewrite Hread, asked_names.
  f_equal. apply wanted_mods_names, Hms.
Qed.


(** X22: a table of [modify] whose first element is not a string (or a
    number) that starts with +, - or = makes it raise the error that names
    the argument, when the tables before it were stored: nothing of what
    the tables ask for is sent.  The frame is to have the slots the tables
    before it take and one for the first element of this one. *)
Theorem lua_apr_ldap_modify_forgotten (fuel : nat) (a : attrs_data) (st : list value)
  (pre post : list (list (value * value))) (entries : list (value * value))
  (items : list (Z * string * option (list string))) :
  sized a ->
  modify_tables st 3 = pre ++ entries :: post ->
  Forall (fun es => table_op es <> LUA_APR_LDAP_NOOP) pre ->
  table_op entries = LUA_APR_LDAP_NOOP ->
  modify_items pre = Some items ->
  Z.of_nat (List.length items) <= 128 -> total_values items <= 128 ->
  (List.length pre < fuel)%nat ->
  Z.of_nat (List.length st) + modify_slots pre + 1 <= ci_top ->
  lua_apr_ldap_modify fuel {| data := a; stack := st |} =
  Raises (forgotten (3 + Z.of_nat (List.length pre))).
Proof.
  intros Hs Htabs Hops Hnoop Hitems Hn Hv Hfuel Hframe.
  unfold lua_apr_ldap_modify. unfold bind at 1. rewrite (A_init_eq a st Hs).
  unfold bind at 1.
  rewrite (lua_apr_ldap_modify_loop_forgotten pre fuel st 3 (init a) [] items
             entries post (bounded_init a Hs) (holds_init a) ltac:(lia) Htabs Hops
             Hnoop Hitems); auto.
  unfold fits. cbn [init ai vi bi]. pose proof (total_cells_le items). sizes. lia.
Qed.
End Requests.

Section Search.
Context `{LuaCore}.

Lemma slot_from_top (st : list value) (idx : Z) :
  idx < 0 -> - idx <= Z.of_nat (List.length st) ->
  slot st idx = Some (List.length st - Z.to_nat (- idx))%nat.
Proof.
  intros Hneg Hn. unfold slot.
  destruct (Z.ltb_spec 0 idx); [lia|]. cbn [andb].
  destruct (Z.ltb_spec idx 0); [|lia].
  destruct (Z.leb_spec (- idx) (Z.of_nat (List.length st))); [|lia]. cbn [andb].
  f_equal. lia.
Qed.

Lemma table_put_second (a : attrs_data) (base : list value)
  (entries : list (value * value)) (x k v : value) :
  table_put (-2) k v {| data := a; stack := base ++ [VTable entries; x] |} =
  Returns tt {| data := a; stack := base ++ [VTable (table_set entries k v); x] |}.
Proof.
  unfold table_put. run_ldap.
  rewrite (slot_from_top (base ++ [VTable entries; x]) (-2))
    by (rewrite ?length_app; cbn [List.length]; lia).
  run_ldap. rewrite length_app. cbn [List.length].
  replace (List.length base + 2 - Z.to_nat 2)%nat with (List.length base) by lia.
  rewrite nth_error_middle. run_ldap. f_equal. f_equal.
  induction base as [|y base IH]; cbn; [reflexivity|]. now rewrite IH.
Qed.

Lemma value_at_top (a : attrs_data) (base : list value) (v : value) :
  value_at (-1) {| data := a; stack := base ++ [v] |} =
  Returns v {| data := a; stack := base ++ [v] |}.
Proof. unfold value_at. run_ldap. on_stack. reflexivity. Qed.

Lemma value_at_top2 (a : attrs_data) (base : list value) (x v : value) :
  value_at (-1) {| data := a; stack := base ++ [x; v] |} =
  Returns v {| data := a; stack := base ++ [x; v] |}.
Proof.
  change (base ++ [x; v]) with (base ++ [x] ++ [v]). rewrite app_assoc.
  apply value_at_top.
Qed.

Lemma lua_rawseti_second (a : attrs_data) (base : list value)
  (entries : list (value * value)) (n : Z) (v : value) :
  lua_rawseti (-2) n {| data := a; stack := base ++ [VTable entries; v] |} =
  Returns tt {| data := a; stack := base ++ [VTable (table_set entries (VNumber n) v)] |}.
Proof.
  unfold lua_rawseti. unfold bind at 1. rewrite value_at_top2.
  unfold bind at 1. rewrite table_put_second.
  change (base ++ [VTable (table_set entries (VNumber n) v); v])
    with (base ++ [VTable (table_set entries (VNumber n) v)] ++ [v]).
  rewrite app_assoc. apply lua_pop_one.
Qed.

Lemma lua_setfield_second (a : attrs_data) (base : list value)
  (entries : list (value * value)) (k : string) (v : value) :
  lua_setfield (-2) k {| data := a; stack := base ++ [VTable entries; v] |} =
  Returns tt {| data := a; stack := base ++ [VTable (table_set entries (VString k) v)] |}.
Proof.
  unfold lua_setfield. unfold bind at 1. rewrite value_at_top2.
  unfold bind at 1. rewrite table_put_second.
  change (base ++ [VTable (table_set entries (VString k) v); v])
    with (base ++ [VTable (table_set entries (VString k) v)] ++ [v]).
  rewrite app_assoc. apply lua_pop_one.
Qed.

Lemma key_eqb_eq (k1 k2 : value) : key_eqb k1 k2 = true -> k1 = k2.
Proof.
  destruct k1, k2; cbn [key_eqb]; try discriminate; intros E; f_equal.
  - destruct b, b0; auto; discriminate E.
  - apply Z.eqb_eq, E.
  - apply String.eqb_eq, E.
Qed.

Lemma table_get_set_same (entries : list (value * value)) (k v : value) :
  key_eqb k k = true -> v <> VNil ->
  table_get (table_set entries k v) k = v.
Proof.
  intros Hk Hv. induction entries as [|[k0 v0] entries IH]; cbn [table_set].
  - destruct v; try contradiction; cbn [table_get]; rewrite Hk; reflexivity.
  - destruct (key_eqb k0 k) eqn:E.
    + destruct v; try contradiction; cbn [table_get]; rewrite E; reflexivity.
    + cbn [table_get]. rewrite E. exact IH.
Qed.

Lemma table_get_set_other (entries : list (value * value)) (k k' v : value) :
  key_eqb k k' = false -> v <> VNil ->
  table_get (table_set entries k v) k' = table_get entries k'.
Proof.
  intros Hk Hv. induction entries as [|[k0 v0] entries IH]; cbn [table_set].
  - destruct v; try contradiction; cbn [table_get]; rewrite Hk; reflexivity.
  - destruct (key_eqb k0 k) eqn:E.
    + apply key_eqb_eq in E. subst k0.
      destruct v; try contradiction; cbn [table_get]; rewrite Hk; reflexivity.
    + cbn [table_get]. rewrite IH. reflexivity.
Qed.

Lemma substring_all (s : string) : substring 0 (String.length s) s = s.
Proof. induction s as [|c s IH]; cbn; [reflexivity|]. now rewrite IH. Qed.

Lemma lua_pushlstring_ber (a : attrs_data) (st : list value) (s : string) :
  Z.of_nat (List.length st) < ci_top ->
  lua_pushlstring (bv_val (ber s)) (bv_len (ber s)) {| data := a; stack := st |} =
  Returns tt {| data := a; stack := st ++ [VString s] |}.
Proof.
  intros Hframe. unfold lua_pushlstring, ber. cbn [bv_val bv_len].
  destruct (Z.leb_spec 0 (Z.of_nat (String.length s))); [|lia].
  destruct (Z.leb_spec (Z.of_nat (String.length s)) (Z.of_nat (String.length s)));
    [|lia].
  cbn [andb]. rewrite Nat2Z.id, substring_all. apply lua_push_eq, Hframe.
Qed.

Lemma table_geti_numbered (strs : list string) :
  forall i j,
  table_geti (numbered i strs) j =
  if (i <=? j) && (j <? i + Z.of_nat (List.length strs))
  then VString (nth (Z.to_nat (j - i)) strs EmptyString)
  else VNil.
Proof.
  induction strs as [|s strs IH]; intros i j; cbn [numbered table_geti List.length].
  - destruct (Z.leb_spec i j), (Z.ltb_spec j (i + Z.of_nat 0)); cbn; auto; lia.
  - rewrite IH. destruct (Z.eqb_spec i j) as [->|Hne].
    + destruct (Z.leb_spec j j); [|lia].
      destruct (Z.ltb_spec j (j + Z.of_nat (S (List.length strs)))); [|lia].
      cbn [andb]. rewrite Z.sub_diag. reflexivity.
    + destruct (Z.leb_spec (i + 1) j), (Z.leb_spec i j); try lia; cbn [andb]; auto.
      destruct (Z.ltb_spec j (i + 1 + Z.of_nat (List.length strs))),
               (Z.ltb_spec j (i + Z.of_nat (S (List.length strs)))); try lia; auto.
      replace (Z.to_nat (j - i)) with (S (Z.to_nat (j - (i + 1)))) by lia.
      reflexivity.
Qed.

Lemma table_set_numbered (strs : list string) :
  forall i s,
  table_set (numbered i strs) (VNumber (i + Z.of_nat (List.length strs))) (VString s) =
  numbered i (strs ++ [s]).
Proof.
  induction strs as [|s0 strs IH]; intros i s;
    cbn [numbered table_set app List.length key_eqb].
  - rewrite Z.add_0_r. reflexivity.
  - destruct (Z.eqb_spec i (i + Z.of_nat (S (List.length strs)))); [lia|].
    f_equal. rewrite <- IH. f_equal. f_equal. lia.
Qed.

Lemma load_ber (done rest : list string) (s : string) :
  load (map ber (done ++ s :: rest)) (Z.of_nat (List.length done)) = Some (ber s).
Proof.
  unfold load. rewrite length_map, length_app. cbn [List.length].
  destruct (Z.leb_spec 0 (Z.of_nat (List.length done))); [|lia].
  destruct (Z.ltb_spec (Z.of_nat (List.length done))
              (Z.of_nat (List.length done + S (List.length rest)))); [|lia].
  cbn [andb]. rewrite Nat2Z.id, map_app. cbn [map].
  rewrite nth_error_app2 by (rewrite length_map; lia).
  rewrite length_map, Nat.sub_diag. reflexivity.
Qed.

(** The loop of [set_attributes] enters the values left under the next
    keys. *)
Lemma set_attributes_values_spec (rest : list string) :
  forall (a : attrs_data) (base : list value) (done : list string),
  Z.of_nat (List.length base) + 2 <= ci_top ->
  set_attributes_values (List.length rest) (map ber (done ++ rest))
    (Z.of_nat (List.length done))
    {| data := a; stack := base ++ [VTable (numbered 1 done)] |} =
  Returns tt {| data := a; stack := base ++ [VTable (numbered 1 (done ++ rest))] |}.
Proof.
  induction rest as [|s rest IH]; intros a base done Hframe;
    cbn [set_attributes_values List.length].
  - rewrite app_nil_r. reflexivity.
  - unfold bind at 1. rewrite load_ber. cbn [lift ret].
    unfold bind at 1.
    rewrite lua_pushlstring_ber by (rewrite length_app; cbn [List.length]; lia).
    rewrite <- app_assoc. cbn [app].
    unfold bind at 1. rewrite lua_rawseti_second.
    pose proof (table_set_numbered done 1 s) as Eset.
    rewrite Z.add_comm in Eset. rewrite Eset. clear Eset.
    replace (done ++ s :: rest) with ((done ++ [s]) ++ rest)
      by (rewrite <- app_assoc; reflexivity).
    replace (Z.of_nat (List.length done) + 1)
      with (Z.of_nat (List.length (done ++ [s])))
      by (rewrite length_app; cbn [List.length]; lia).
    apply IH, Hframe.
Qed.

Lemma set_attributes_value_eq (a : attrs_data) (st : list value) (strs : list string) :
  Z.of_nat (List.length st) + value_slots strs <= ci_top ->
  set_attributes_value (map ber strs) {| data := a; stack := st |} =
  Returns tt {| data := a; stack := st ++ [search_value strs] |}.
Proof.
  intros Hframe. unfold set_attributes_value. rewrite length_map.
  destruct strs as [|s [|s' strs]]; cbn [value_slots] in Hframe.
  - apply lua_push_eq. lia.
  - cbn [List.length Z.of_nat Z.eqb Pos.of_succ_nat Pos.eqb].
    unfold bind at 1. pose proof (load_ber [] [] s) as Eload.
    cbn [app List.length Z.of_nat] in Eload. rewrite Eload. cbn [lift ret].
    apply lua_pushlstring_ber. lia.
  - set (all := s :: s' :: strs).
    replace (Z.of_nat (List.length all) =? 0) with false
      by (symmetry; apply Z.eqb_neq; cbn [all List.length]; lia).
    replace (Z.of_nat (List.length all) =? 1) with false
      by (symmetry; apply Z.eqb_neq; cbn [all List.length]; lia).
    unfold bind at 1. unfold lua_newtable. rewrite lua_push_eq by lia.
    rewrite Nat2Z.id.
    exact (set_attributes_values_spec all a st [] Hframe).
Qed.

Lemma elements_numbered (strs : list string) :
  forall i, elements (numbered i strs) i (List.length strs) = map VString strs.
Proof.
  assert (Hgen : forall (rest done : list string) i,
            elements (numbered i (done ++ rest)) (i + Z.of_nat (List.length done))
              (List.length rest) = map VString rest).
  { induction rest as [|s rest IH]; intros done i; cbn [elements List.length map];
      [reflexivity|].
    f_equal.
    - rewrite table_geti_numbered, length_app. cbn [List.length].
      destruct (Z.leb_spec i (i + Z.of_nat (List.length done))); [|lia].
      destruct (Z.ltb_spec (i + Z.of_nat (List.length done))
                  (i + Z.of_nat (List.length done + S (List.length rest)))); [|lia].
      cbn [andb]. f_equal.
      replace (Z.to_nat (i + Z.of_nat (List.length done) - i))
        with (List.length done) by lia.
      rewrite app_nth2 by lia. rewrite Nat.sub_diag. reflexivity.
    - replace (done ++ s :: rest) with ((done ++ [s]) ++ rest)
        by (rewrite <- app_assoc; reflexivity).
      replace (i + Z.of_nat (List.length done) + 1)
        with (i + Z.of_nat (List.length (done ++ [s])))
        by (rewrite length_app; cbn [List.length]; lia).
      apply IH. }
  intros i. specialize (Hgen strs [] i). cbn [app List.length Z.of_nat] in Hgen.
  rewrite Z.add_0_r in Hgen. exact Hgen.
Qed.

Lemma all_strings_strings (strs : list string) :
  all_strings (map VString strs) = Some strs.
Proof.
  induction strs as [|s strs IH]; cbn [map all_strings as_string]; [reflexivity|].
  now rewrite IH.
Qed.

Lemma border_numbered (strs : list string) (n : nat) :
  strs <> [] -> border (numbered 1 strs) n -> n = List.length strs.
Proof.
  intros Hne [Hnext Hlast]. rewrite table_geti_numbered in Hnext.
  assert (Hlen : (0 < List.length strs)%nat)
    by (destruct strs; [contradiction|cbn; lia]).
  destruct (Z.leb_spec 1 (Z.of_nat n + 1)); [|lia].
  destruct (Z.ltb_spec (Z.of_nat n + 1) (1 + Z.of_nat (List.length strs)));
    [discriminate Hnext|].
  destruct Hlast as [->|Hlast]; [lia|].
  rewrite table_geti_numbered in Hlast.
  destruct (Z.leb_spec 1 (Z.of_nat n)); [|lia].
  destruct (Z.ltb_spec (Z.of_nat n) (1 + Z.of_nat (List.length strs)));
    [lia|now elim Hlast].
Qed.

Lemma wanted_search_value (strs : list string) :
  border (numbered 1 strs) (luaH_getn (numbered 1 strs)) ->
  wanted_values (search_value strs) = Some (returned_values strs).
Proof.
  intros Hborder. destruct strs as [|s [|s' strs]]; try reflexivity.
  set (all := s :: s' :: strs) in *.
  change (search_value all) with (VTable (numbered 1 all)).
  change (returned_values all) with (Some all).
  cbn [wanted_values].
  rewrite (border_numbered all _ ltac:(discriminate) Hborder).
  rewrite elements_numbered, all_strings_strings. reflexivity.
Qed.

(** X23: the value a search gives an attribute (true for no value, the
    string for one, the list for more) is one [A_tab2val] takes, and what it
    stores are the values the server sent, in their order and with their
    lengths.  The frame is to have a slot for the value and, for a list,
    one more for each of its strings: [A_tab2val] pushes them all before it
    pops any, and never asks for more with lua_checkstack. *)
Theorem search_value_round_trip (a : attrs_data) (st : list value)
  (name : option string) (strs : list string) :
  bounded a ->
  vi a + cell_count (returned_values strs) <= LUA_APR_LDAP_ARRAY_VALUES_SIZE ->
  bi a + value_count (returned_values strs) <= LUA_APR_LDAP_MAX_VALUES ->
  border (numbered 1 strs) (luaH_getn (numbered 1 strs)) ->
  Z.of_nat (List.length st) + 1 + pushed_for (search_value strs) <= ci_top ->
  (set_attributes_value (map ber strs) ;; A_tab2val name)
    {| data := a; stack := st |} =
  Returns (values_pointer a (returned_values strs))
    {| data := add_values a (returned_values strs);
       stack := st ++ [search_value strs] |}.
Proof.
  intros (Hs & _ & Hvi & Hbi) Hv Hb Hborder Hframe.
  assert (Hslots : value_slots strs <= 1 + pushed_for (search_value strs)).
  { destruct strs as [|s [|s' strs]]; cbn [value_slots search_value pushed_for];
      try lia.
    assert (Hne : s :: s' :: strs <> []) by discriminate.
    rewrite (border_numbered _ _ Hne Hborder).
    cbn [List.length]. lia. }
  unfold bind. rewrite set_attributes_value_eq by lia.
  pose proof (A_tab2val_spec a st (search_value strs) name Hs Hvi Hbi
                ltac:(rewrite length_app; cbn [List.length]; lia)) as Hspec.
  pose proof (wanted_search_value strs Hborder) as Hwanted.
  destruct (A_tab2val name _) as [p s'|m|]; cbn [ensures] in Hspec;
    [| | contradiction].
  - destruct Hspec as (vals & Hvals & -> & _ & _ & ->).
    rewrite Hwanted in Hvals. injection Hvals as <-.
    replace (converted (search_value strs)) with (search_value strs)
      by (destruct strs as [|s [|s' strs]]; reflexivity).
    reflexivity.
  - destruct Hspec as [_ Hwhy]. specialize (Hwhy _ Hwanted).
    rewrite vi_add_values, bi_add_values in Hwhy. lia.
Qed.

Lemma lua_setfield_at (a : attrs_data) (base : list value)
  (entries : list (value * value)) (k : string) (v : value) :
  lua_setfield (Z.of_nat (List.length base) + 1) k
    {| data := a; stack := (base ++ [VTable entries]) ++ [v] |} =
  Returns tt {| data := a; stack := base ++ [VTable (table_set entries (VString k) v)] |}.
Proof.
  unfold lua_setfield. unfold bind at 1. rewrite value_at_top.
  unfold bind at 1. unfold table_put. run_ldap.
  rewrite <- app_assoc. cbn [app]. rewrite slot_below. run_ldap.
  rewrite nth_error_middle. run_ldap.
  assert (Eupd : update_nth (List.length base) (VTable (table_set entries (VString k) v))
                   (base ++ [VTable entries; v])
                 = (base ++ [VTable (table_set entries (VString k) v)]) ++ [v]).
  { clear. rewrite <- app_assoc. cbn [app].
    induction base as [|y base IH]; cbn; [reflexivity|]. now rewrite IH. }
  rewrite Eupd. apply lua_pop_one.
Qed.

Lemma search_value_not_nil (strs : list string) : search_value strs <> VNil.
Proof. destruct strs as [|s [|s' strs]]; discriminate. Qed.

Lemma set_attributes_eq (entry : list (string * list string)) :
  forall (a : attrs_data) (base : list value) (t : list (value * value)),
  Z.of_nat (List.length base) + 3 <= ci_top ->
  set_attributes (as_bervalues entry) (Z.of_nat (List.length base) + 1)
    {| data := a; stack := base ++ [VTable t] |} =
  Returns tt {| data := a; stack := base ++ [VTable (fill t entry)] |}.
Proof.
  induction entry as [|[attr strs] entry IH]; intros a base t Hframe;
    cbn [as_bervalues map set_attributes fill fst snd]; [reflexivity|].
  unfold bind at 1.
  rewrite set_attributes_value_eq
    by (rewrite length_app; cbn [List.length];
        destruct strs as [|s [|s' strs]]; cbn [value_slots]; lia).
  unfold bind at 1. rewrite lua_setfield_at. apply IH, Hframe.
Qed.

Lemma field_fill_other (entry : list (string * list string)) :
  forall (t : list (value * value)) (attr : string),
  ~ In attr (map fst entry) -> field (fill t entry) attr = field t attr.
Proof.
  induction entry as [|[attr0 strs0] entry IH]; intros t attr Hnot;
    cbn [fill map fst In] in *; [reflexivity|].
  rewrite IH by tauto. unfold field.
  apply table_get_set_other; [|apply search_value_not_nil].
  cbn [key_eqb]. apply String.eqb_neq. tauto.
Qed.

(** X24: the table a search returns for an entry has, under the name of each
    attribute, true when the attribute has no value, the string when it has
    one, and the list of the strings under 1, 2, ... when it has more.  The
    frame is to have two slots above the table, for a list and the string
    on its way into it. *)
Theorem set_attributes_fields (a : attrs_data) (base : list value)
  (entry : list (string * list string)) (attr : string) (strs : list string) :
  NoDup (map fst entry) ->
  In (attr, strs) entry ->
  Z.of_nat (List.length base) + 3 <= ci_top ->
  exists t,
    set_attributes (as_bervalues entry) (Z.of_nat (List.length base) + 1)
      {| data := a; stack := base ++ [VTable []] |} =
    Returns tt {| data := a; stack := base ++ [VTable t] |} /\
    field t attr = search_value strs.
Proof.
  intros Hnodup Hin Hframe. exists (fill [] entry).
  split; [apply set_attributes_eq, Hframe|].
  generalize (@nil (value * value)) as t.
  induction entry as [|[attr0 strs0] entry IH]; intros t; [contradiction|].
  cbn [map fst] in Hnodup. inversion Hnodup as [|? ? Hnot Hrest]; subst.
  cbn [fill]. destruct Hin as [[= -> ->]|Hin].
  - rewrite field_fill_other by exact Hnot. unfold field.
    apply table_get_set_same; [|apply search_value_not_nil].
    cbn [key_eqb]. apply String.eqb_refl.
  - apply IH; assumption.
Qed.
End Search.

Section Urls.
Context `{LuaCore}.

Ltac on_frame := rewrite ?length_app; cbn [List.length]; lia.

Lemma lua_setfield_pushed (a : attrs_data) (base : list value)
  (entries : list (value * value)) (k : string) (v : value) :
  lua_setfield (-2) k {| data := a; stack := (base ++ [VTable entries]) ++ [v] |} =
  Returns tt {| data := a; stack := base ++ [VTable (table_set entries (VString k) v)] |}.
Proof. rewrite <- app_assoc. apply lua_setfield_second. Qed.

Lemma lua_settable_third (a : attrs_data) (base : list value)
  (entries : list (value * value)) (n : Z) (v : value) :
  lua_settable (-3)
    {| data := a; stack := ((base ++ [VTable entries]) ++ [VNumber n]) ++ [v] |} =
  Returns tt {| data := a; stack := base ++ [VTable (table_set entries (VNumber n) v)] |}.
Proof.
  unfold lua_settable. rewrite <- !app_assoc. cbn [app].
  unfold bind at 1. unfold value_at at 1. run_ldap.
  rewrite (slot_from_top (base ++ [VTable entries; VNumber n; v]) (-2))
    by (rewrite ?length_app; cbn [List.length]; lia).
  run_ldap. rewrite length_app. cbn [List.length].
  replace (List.length base + 3 - Z.to_nat 2)%nat with (S (List.length base)) by lia.
  change (base ++ [VTable entries; VNumber n; v])
    with (base ++ [VTable entries] ++ [VNumber n; v]).
  rewrite app_assoc.
  replace (S (List.length base)) with (List.length (base ++ [VTable entries]))
    by (rewrite length_app; cbn [List.length]; lia).
  rewrite nth_error_middle. run_ldap.
  rewrite (slot_from_top ((base ++ [VTable entries]) ++ [VNumber n; v]) (-1))
    by (rewrite ?length_app; cbn [List.length]; lia).
  run_ldap. rewrite !length_app. cbn [List.length].
  replace (List.length base + 1 + 2 - Z.to_nat 1)%nat
    with (List.length ((base ++ [VTable entries]) ++ [VNumber n])) 
    by (rewrite !length_app; cbn [List.length]; lia).
  change ((base ++ [VTable entries]) ++ [VNumber n; v])
    with ((base ++ [VTable entries]) ++ [VNumber n] ++ [v]).
  rewrite (app_assoc (base ++ [VTable entries])).
  rewrite nth_error_middle. run_ldap.
  unfold table_put. run_ldap.
  rewrite (slot_from_top (((base ++ [VTable entries]) ++ [VNumber n]) ++ [v]) (-3))
    by (rewrite ?length_app; cbn [List.length]; lia).
  run_ldap. rewrite !length_app. cbn [List.length].
  replace (List.length base + 1 + 1 + 1 - Z.to_nat 3)%nat with (List.length base) by lia.
  rewrite <- !app_assoc. cbn [app]. rewrite nth_error_middle. run_ldap.
  assert (Eupd : update_nth (List.length base) (VTable (table_set entries (VNumber n) v))
                   (base ++ [VTable entries; VNumber n; v])
                 = base ++ [VTable (table_set entries (VNumber n) v); VNumber n; v]).
  { clear. induction base as [|y base IH]; cbn; [reflexivity|]. now rewrite IH. }
  rewrite Eupd.
  change (base ++ [VTable (table_set entries (VNumber n) v); VNumber n; v])
    with (base ++ [VTable (table_set entries (VNumber n) v)] ++ [VNumber n; v]).
  rewrite app_assoc.
  exact (lua_pop_pushed a (base ++ [VTable (table_set entries (VNumber n) v)])
           [VNumber n; v] 2 eq_refl).
Qed.

(** The loop enters the strings of the array under the keys that follow the
    last one entered. *)
Lemma url_strings_spec (cells : list (option string)) :
  forall (names done : list string) (a : attrs_data) (base : list value),
  strings_of cells = Some names ->
  Z.of_nat (List.length base) + 3 <= ci_top ->
  url_strings cells (Z.of_nat (List.length done))
    {| data := a; stack := base ++ [VTable (numbered 2 (map c_str done))] |} =
  Returns tt
    {| data := a; stack := base ++ [VTable (numbered 2 (map c_str (done ++ names)))] |}.
Proof.
  induction cells as [|[s|] cells IH]; intros names done a base Hnames Hframe;
    cbn [strings_of] in Hnames; [discriminate Hnames| |].
  - destruct (strings_of cells) as [rest|] eqn:Hrest; [|discriminate Hnames].
    injection Hnames as <-. cbn [url_strings].
    unfold lua_pushinteger, lua_pushstring.
    unfold bind at 1. rewrite lua_push_eq by on_frame.
    unfold bind at 1. rewrite lua_push_eq by on_frame.
    unfold bind at 1. rewrite lua_settable_third.
    pose proof (table_set_numbered (map c_str done) 2 (c_str s)) as Eset.
    rewrite length_map in Eset.
    replace (Z.of_nat (List.length done) + 1 + 1)
      with (2 + Z.of_nat (List.length done)) by lia.
    rewrite Eset. clear Eset.
    replace (map c_str done ++ [c_str s]) with (map c_str (done ++ [s]))
      by (rewrite map_app; reflexivity).
    replace (Z.of_nat (List.length done) + 1)
      with (Z.of_nat (List.length (done ++ [s])))
      by (rewrite length_app; cbn [List.length]; lia).
    rewrite (IH rest (done ++ [s]) a base eq_refl Hframe).
    rewrite <- app_assoc. reflexivity.
  - injection Hnames as <-. cbn [url_strings]. rewrite app_nil_r. reflexivity.
Qed.

Lemma url_strings_fresh (cells : list (option string)) (names : list string)
  (a : attrs_data) (base : list value) :
  strings_of cells = Some names ->
  Z.of_nat (List.length base) + 3 <= ci_top ->
  url_strings cells 0 {| data := a; stack := base ++ [VTable []] |} =
  Returns tt {| data := a; stack := base ++ [VTable (numbered 2 (map c_str names))] |}.
Proof. intros Hn Hframe. exact (url_strings_spec cells names [] a base Hn Hframe). Qed.

Lemma from_two_numbered (names : list string) :
  from_two (VTable (numbered 2 (map c_str names))) names.
Proof.
  exists (numbered 2 (map c_str names)). split; [reflexivity|]. intros j.
  rewrite table_geti_numbered, length_map.
  destruct ((2 <=? j) && (j <? 2 + Z.of_nat (List.length names))) eqn:E; [|reflexivity].
  f_equal. apply andb_prop in E. destruct E as [E1 E2].
  apply Z.leb_le in E1. apply Z.ltb_lt in E2.
  rewrite <- (map_nth c_str). reflexivity.
Qed.

(** X25: in the table [lua_apr_ldap_url_parse] returns, the attributes and
    the extensions of the URL are under the keys 2, 3, ... of the tables
    attrs and exts, in their order: the key 1 holds nothing, so that the
    first one is at index 2 and a loop with ipairs meets none of them.  The
    frame is to have four slots: the table, a list, and a key and a string
    on their way into it. *)
Theorem lua_apr_ldap_url_parse_lists (a : attrs_data) (st : list value)
  (ludpp : apr_ldap_url_desc_t) :
  terminated (lud_attrs ludpp) ->
  terminated (lud_exts ludpp) ->
  Z.of_nat (List.length st) + 4 <= ci_top ->
  exists t,
    lua_apr_ldap_url_parse ludpp {| data := a; stack := st |} =
    Returns 1 {| data := a; stack := st ++ [VTable t] |} /\
    (forall cells names,
       lud_attrs ludpp = Some cells -> strings_of cells = Some names ->
       from_two (field t "attrs") names) /\
    (forall cells names,
       lud_exts ludpp = Some cells -> strings_of cells = Some names ->
       from_two (field t "exts") names).
Proof.
  destruct ludpp as [scheme host port dn attrs scope filter exts crit].
  cbn [lud_attrs lud_exts terminated]. intros Hattrs Hexts Hframe.
  unfold lua_apr_ldap_url_parse.
  cbn [lud_scheme lud_host lud_port lud_dn lud_attrs lud_scope lud_filter lud_exts
       lud_crit_exts].
  unfold lua_newtable, lua_pushstring, lua_pushinteger, lua_pushliteral.
  set (scope_name := if scope =? LDAP_SCOPE_BASE then VString "base"
                     else if scope =? LDAP_SCOPE_ONELEVEL then VString "one"
                     else VString "sub").
  replace (if scope =? LDAP_SCOPE_BASE then lua_push (VString "base")
           else if scope =? LDAP_SCOPE_ONELEVEL then lua_push (VString "one")
           else lua_push (VString "sub"))
    with (lua_push scope_name)
    by (unfold scope_name; destruct (scope =? LDAP_SCOPE_BASE);
        [|destruct (scope =? LDAP_SCOPE_ONELEVEL)]; reflexivity).
  unfold bind at 1. rewrite lua_push_eq by on_frame.
  do 7 (unfold bind at 1; rewrite lua_push_eq by on_frame;
        unfold bind at 1; rewrite lua_setfield_pushed).
  match goal with
  | |- context [st ++ [VTable ?t0]] => set (simple := t0)
  end.
  destruct attrs as [acells|]; destruct exts as [ecells|].
  - destruct (strings_of acells) as [anames|] eqn:Ea; [|now elim Hattrs].
    destruct (strings_of ecells) as [enames|] eqn:Ee; [|now elim Hexts].
    unfold bind at 1. unfold bind at 1. rewrite lua_push_eq by on_frame.
    unfold bind at 1.
    rewrite (url_strings_fresh acells anames a (st ++ [VTable simple]) Ea)
      by on_frame.
    rewrite lua_setfield_pushed.
    unfold bind at 1. unfold bind at 1. rewrite lua_push_eq by on_frame.
    unfold bind at 1.
    rewrite (url_strings_fresh ecells enames a
               (st ++ [VTable (table_set simple (VString "attrs")
                                 (VTable (numbered 2 (map c_str anames))))]) Ee)
      by on_frame.
    rewrite lua_setfield_pushed. cbn [app].
    eexists. split; [reflexivity|]. unfold field. split.
    + intros cells names [= <-] Hn. rewrite Ea in Hn. injection Hn as <-.
      rewrite table_get_set_other by (reflexivity || discriminate).
      rewrite table_get_set_same by (reflexivity || discriminate).
      apply from_two_numbered.
    + intros cells names [= <-] Hn. rewrite Ee in Hn. injection Hn as <-.
      rewrite table_get_set_same by (reflexivity || discriminate).
      apply from_two_numbered.
  - destruct (strings_of acells) as [anames|] eqn:Ea; [|now elim Hattrs].
    unfold bind at 1. unfold bind at 1. rewrite lua_push_eq by on_frame.
    unfold bind at 1.
    rewrite (url_strings_fresh acells anames a (st ++ [VTable simple]) Ea)
      by on_frame.
    rewrite lua_setfield_pushed. cbn [app].
    eexists. split; [reflexivity|]. unfold field. split.
    + intros cells names [= <-] Hn. rewrite Ea in Hn. injection Hn as <-.
      rewrite table_get_set_same by (reflexivity || discriminate).
      apply from_two_numbered.
    + intros cells names E. discriminate E.
  - destruct (strings_of ecells) as [enames|] eqn:Ee; [|now elim Hexts].
    unfold bind at 1. unfold ret at 1.
    unfold bind at 1. unfold bind at 1. rewrite lua_push_eq by on_frame.
    unfold bind at 1.
    rewrite (url_strings_fresh ecells enames a (st ++ [VTable simple]) Ee)
      by on_frame.
    rewrite lua_setfield_pushed. cbn [app].
    eexists. split; [reflexivity|]. unfold field. split.
    + intros cells names E. discriminate E.
    + intros cells names [= <-] Hn. rewrite Ee in Hn. injection Hn as <-.
      rewrite table_get_set_same by (reflexivity || discriminate).
      apply from_two_numbered.
  - eexists. split; [reflexivity|]. split; intros cells names E; discriminate E.
Qed.
End Urls.

Section SearchAttrs.
Context `{LuaCore}.

Lemma lua_istable_top (a : attrs_data) (base : list value) (v : value) :
  lua_istable (-1) {| data := a; stack := base ++ [v] |} =
  Returns (match v with VTable _ => true | _ => false end)
    {| data := a; stack := base ++ [v] |}.
Proof. unfold lua_istable, peek. run_ldap. on_stack. reflexivity. Qed.

Lemma lua_strlen_table (a : attrs_data) (base : list value)
  (entries : list (value * value)) :
  lua_strlen (-1) {| data := a; stack := base ++ [VTable entries] |} =
  Returns (Z.of_nat (luaH_getn entries))
    {| data := a; stack := base ++ [VTable entries] |}.
Proof. unfold lua_strlen. run_ldap. on_stack. reflexivity. Qed.

Lemma lua_getfield_second (a : attrs_data) (st : list value)
  (options : list (value * value)) (k : string) :
  nth_error st 1 = Some (VTable options) ->
  lua_getfield 2 k {| data := a; stack := st |} =
  lua_push (table_get options (VString k)) {| data := a; stack := st |}.
Proof.
  intros Hopt. unfold lua_getfield. unfold bind at 1. unfold value_at. run_ldap.
  assert (Hlen : (1 < List.length st)%nat)
    by (apply nth_error_Some; rewrite Hopt; discriminate).
  rewrite (slot_index st 2) by lia. run_ldap.
  change (Z.to_nat (2 - 1)) with 1%nat. rewrite Hopt. run_ldap. reflexivity.
Qed.

Lemma counted_of (a : attrs_data) (base : list value) (v : value) :
  (if match v with VTable _ => true | _ => false end
   then lua_strlen (-1) else ret 1) {| data := a; stack := base ++ [v] |} =
  Returns (counted v) {| data := a; stack := base ++ [v] |}.
Proof. destruct v; try reflexivity. apply lua_strlen_table. Qed.

(** How the part of [lua_apr_ldap_search] that gathers the names ends. *)
Lemma lua_apr_ldap_search_attrs_outcome (block : Z -> list (option string))
  (a : attrs_data) (st : list value) (options : list (value * value)) :
  nth_error st 1 = Some (VTable options) ->
  (forall k, 0 <= k -> Z.of_nat (List.length (block k)) = k) ->
  Z.of_nat (List.length st) + 2 <= ci_top ->
  lua_apr_ldap_search_attrs block {| data := a; stack := st |} =
  if counted (search_option st "attrs") =? 0 then Undefined
  else Returns
         (update_nth 1 None
            (update_nth 0 None (block (counted (search_option st "attrs") + 1))))
         {| data := a; stack := st ++ [search_option st "attrs"] |}.
Proof.
  intros Hopt Hblock Hframe.
  unfold lua_apr_ldap_search_attrs, search_option. rewrite Hopt.
  unfold bind at 1. rewrite (lua_getfield_second a st options "attrs" Hopt).
  rewrite lua_push_eq by lia.
  generalize (table_get options (VString "attrs")) as v. intros v.
  unfold bind at 1. rewrite lua_istable_top.
  unfold bind at 1. rewrite counted_of.
  assert (Hc : 0 <= counted v) by (destruct v; cbn [counted]; lia).
  unfold bind at 1. unfold lua_newuserdata.
  rewrite lua_push_eq by (rewrite length_app; cbn [List.length]; lia).
  unfold bind at 1. rewrite lua_istable_top. cbn [negb].
  unfold bind at 1. unfold bind at 1. rewrite lua_tostring_top.
  cbn [as_string converted].
  assert (Hlen : Z.of_nat (List.length (block (counted v + 1))) = counted v + 1)
    by (apply Hblock; lia).
  unfold bind at 1.
  rewrite (store_in (block (counted v + 1)) 0 None) by lia. cbn [lift ret].
  destruct (Z.eqb_spec (counted v) 0) as [Hzero|Hpos].
  - unfold store. rewrite length_update_nth.
    destruct (Z.ltb_spec 1 (Z.of_nat (List.length (block (counted v + 1))))); [lia|].
    rewrite andb_false_r. reflexivity.
  - rewrite store_in by (rewrite length_update_nth; lia). cbn [lift ret].
    unfold bind at 1. rewrite lua_pop_one. reflexivity.
Qed.

(** In a frame without the two slots, the part overruns it. *)
Lemma lua_apr_ldap_search_attrs_full (block : Z -> list (option string))
  (a : attrs_data) (st : list value) (options : list (value * value)) :
  nth_error st 1 = Some (VTable options) ->
  ci_top < Z.of_nat (List.length st) + 2 ->
  lua_apr_ldap_search_attrs block {| data := a; stack := st |} = Undefined.
Proof.
  intros Hopt Hframe. unfold lua_apr_ldap_search_attrs.
  unfold bind at 1. rewrite (lua_getfield_second a st options "attrs" Hopt).
  destruct (Z_lt_le_dec (Z.of_nat (List.length st)) ci_top) as [Hone|Hnone].
  - rewrite lua_push_eq by exact Hone.
    generalize (table_get options (VString "attrs")) as v. intros v.
    unfold bind at 1. rewrite lua_istable_top.
    unfold bind at 1. rewrite counted_of.
    unfold bind at 1. unfold lua_newuserdata.
    rewrite lua_push_full by (rewrite length_app; cbn [List.length]; lia).
    reflexivity.
  - rewrite lua_push_full by exact Hnone. reflexivity.
Qed.

(** X26: whatever the option attrs of a search holds (a name, a list of
    names, nothing), the names never reach the library: when the array of
    names is handed to [ldap_search_ext] its first pointer is NULL, because
    the type test that chooses between a name and a list looks at the block
    just pushed and not at the option. The option stays on the stack.  The
    frame is to have two slots, for the option and the block. *)
Theorem lua_apr_ldap_search_attrs_ignored (block : Z -> list (option string))
  (a : attrs_data) (st : list value) (options : list (value * value)) :
  nth_error st 1 = Some (VTable options) ->
  (forall k, 0 <= k -> Z.of_nat (List.length (block k)) = k) ->
  Z.of_nat (List.length st) + 2 <= ci_top ->
  match lua_apr_ldap_search_attrs block {| data := a; stack := st |} with
  | Returns attrs s' =>
      strings_of attrs = Some [] /\
      s' = {| data := a; stack := st ++ [search_option st "attrs"] |}
  | Raises _ => False
  | Undefined => counted (search_option st "attrs") = 0
  end.
Proof.
  intros Hopt Hblock Hframe.
  rewrite (lua_apr_ldap_search_attrs_outcome block a st options Hopt Hblock Hframe).
  destruct (Z.eqb_spec (counted (search_option st "attrs")) 0) as [Hzero|Hpos];
    [exact Hzero|].
  split; [|reflexivity].
  assert (Hc : 0 <= counted (search_option st "attrs"))
    by (destruct (search_option st "attrs"); cbn [counted]; lia).
  assert (Hlen : Z.of_nat (List.length (block (counted (search_option st "attrs") + 1)))
                 = counted (search_option st "attrs") + 1) by (apply Hblock; lia).
  destruct (block (counted (search_option st "attrs") + 1)) as [|c0 [|c1 rest]];
    cbn [List.length] in Hlen; try lia.
  reflexivity.
Qed.

(** X27: a search whose option attrs is a table of length 0 (the empty
    table) writes outside the block it asked for: the block has room for one
    pointer and the second one is written.  (In a frame without the two
    slots for the option and the block, the pushes are what is undefined.) *)
Theorem lua_apr_ldap_search_attrs_empty (block : Z -> list (option string))
  (a : attrs_data) (st : list value) (options names : list (value * value)) :
  nth_error st 1 = Some (VTable options) ->
  (forall k, 0 <= k -> Z.of_nat (List.length (block k)) = k) ->
  table_get options (VString "attrs") = VTable names ->
  luaH_getn names = 0%nat ->
  lua_apr_ldap_search_attrs block {| data := a; stack := st |} = Undefined.
Proof.
  intros Hopt Hblock Hnames Hzero.
  destruct (Z_le_gt_dec (Z.of_nat (List.length st) + 2) ci_top) as [Hframe|Hfull];
    [|apply (lua_apr_ldap_search_attrs_full block a st options Hopt); lia].
  rewrite (lua_apr_ldap_search_attrs_outcome block a st options Hopt Hblock Hframe).
  unfold search_option. rewrite Hopt, Hnames. cbn [counted]. rewrite Hzero.
  reflexivity.
Qed.
End SearchAttrs.

Section Overrun.
Context `{LuaCore}.

(** The loop of [A_tab2val] pushes an element in every round and pops none:
    with more rounds to go than the frame has free slots it overruns it. *)
Lemma A_tab2val_loop_overrun (todo : nat) :
  forall (a : attrs_data) (base pushed : list value) (entries : list (value * value))
         (tab i : Z) (name : option string) (strs : list string),
  tab = Z.of_nat (List.length base) + 1 ->
  sized a -> 0 <= vi a -> 0 <= bi a ->
  all_strings (elements entries i todo) = Some strs ->
  vi a + Z.of_nat todo <= LUA_APR_LDAP_ARRAY_VALUES_SIZE ->
  bi a + Z.of_nat todo <= LUA_APR_LDAP_MAX_VALUES ->
  Z.of_nat (List.length (base ++ VTable entries :: pushed)) <= ci_top ->
  ci_top < Z.of_nat (List.length (base ++ VTable entries :: pushed)) + Z.of_nat todo ->
  A_tab2val_loop todo tab i name
    {| data := a; stack := base ++ VTable entries :: pushed |} = Undefined.
Proof.
  induction todo as [|todo IH];
    intros a base pushed entries tab i name strs Htab Hs Hvi Hbi Hall Hv Hb Hin Hout;
    [lia|].
  cbn [A_tab2val_loop]. run_ldap.
  rewrite (slot_table _ _ _ _ Htab), nth_error_middle. run_ldap.
  destruct (Z_lt_le_dec (Z.of_nat (List.length (base ++ VTable entries :: pushed)))
              ci_top) as [Hfree|Hfull];
    [|rewrite lua_push_full by exact Hfull; reflexivity].
  rewrite lua_push_eq by exact Hfree. run_ldap.
  cbn [elements all_strings] in Hall.
  destruct (as_string (table_geti entries i)) as [str|] eqn:Hstr; [|discriminate Hall].
  destruct (all_strings (elements entries (i + 1) todo)) as [rest|] eqn:Hrest;
    [|discriminate Hall].
  pose proof (A_setval_spec a (base ++ VTable entries :: pushed)
                (table_geti entries i) name Hs Hvi Hbi) as Hspec.
  destruct (A_setval name _) as [p s'|m|]; cbn [ensures] in Hspec; [| |contradiction].
  - destruct Hspec as (str' & _ & -> & _ & _ & ->).
    replace ((base ++ VTable entries :: pushed) ++ [converted (table_geti entries i)])
      with (base ++ VTable entries :: (pushed ++ [converted (table_geti entries i)]))
      by (rewrite <- app_assoc; reflexivity).
    apply (IH (push_string a str') base _ entries tab (i + 1) name rest); auto.
    + apply sized_push_string, Hs.
    + cbn [push_string push_value push_bval vi]. lia.
    + cbn [push_string push_value push_bval bi]. lia.
    + cbn [push_string push_value push_bval vi]. lia.
    + cbn [push_string push_value push_bval bi]. lia.
    + rewrite !length_app in *. cbn [List.length] in *. rewrite length_app.
      cbn [List.length]. lia.
    + rewrite !length_app in *. cbn [List.length] in *. rewrite length_app.
      cbn [List.length]. lia.
  - sizes. destruct Hspec as [[_ Hfull]|[Hnone _]]; [lia|].
    rewrite Hnone in Hstr. discriminate Hstr.
Qed.

(** X28: a list of strings that [A_tab2val] has room for in its arrays but
    that has more elements than the frame has free slots makes it overrun
    the frame: it pushes every element before it pops any and never asks
    for the slots with lua_checkstack. *)
Theorem A_tab2val_overrun (a : attrs_data) (base : list value)
  (entries : list (value * value)) (name : option string) (strs : list string) :
  sized a -> 0 <= vi a -> 0 <= bi a ->
  all_strings (elements entries 1 (luaH_getn entries)) = Some strs ->
  vi a + Z.of_nat (luaH_getn entries) <= LUA_APR_LDAP_ARRAY_VALUES_SIZE ->
  bi a + Z.of_nat (luaH_getn entries) <= LUA_APR_LDAP_MAX_VALUES ->
  Z.of_nat (List.length base) + 1 <= ci_top ->
  ci_top < Z.of_nat (List.length base) + 1 + Z.of_nat (luaH_getn entries) ->
  A_tab2val name {| data := a; stack := base ++ [VTable entries] |} = Undefined.
Proof.
  intros Hs Hvi Hbi Hall Hv Hb Hin Hout. unfold A_tab2val. run_ldap. on_stack.
  rewrite Nat2Z.id.
  assert (Htab : Z.of_nat (List.length (base ++ [VTable entries]))
                 = Z.of_nat (List.length base) + 1)
    by (rewrite length_app; cbn; lia).
  rewrite (A_tab2val_loop_overrun (luaH_getn entries) a base [] entries _ 1 name strs
             Htab Hs Hvi Hbi Hall Hv Hb); [reflexivity| |];
    rewrite length_app; cbn [List.length]; lia.
Qed.


End Overrun.

(** * The LDAP module on sample calls *)

Section LdapExamples.
#[local] Existing Instance LdapSample.core.

Lemma stale_sized : sized LdapSample.stale.
Proof. repeat split; reflexivity. Defined.

Lemma fresh_bounded : bounded LdapSample.fresh.
Proof. repeat split; try reflexivity; cbn; discriminate. Defined.

Lemma lua_apr_ldap_add_in_bounds_witness :
  ensures (lua_apr_ldap_add {| data := LdapSample.stale; stack := LdapSample.add_call |})
    (fun _ s' => stack s' = LdapSample.add_call /\ bounded (data s'))
    builder_error.
Proof.
  apply lua_apr_ldap_add_in_bounds; [exact stale_sized|].
  vm_compute. discriminate.
Defined.

Lemma lua_apr_ldap_add_capacity_witness :
  (exists s', lua_apr_ldap_add {| data := LdapSample.stale; stack := LdapSample.add_call |}
              = Returns tt s') <->
  (exists ms, add_entries LdapSample.add_call = Some ms /\
     Z.of_nat (List.length ms) <= 127 /\ total_values ms <= 128).
Proof.
  apply lua_apr_ldap_add_capacity; [exact stale_sized|].
  vm_compute. discriminate.
Defined.

Lemma lua_apr_ldap_add_round_trip_witness :
  ensures (lua_apr_ldap_add {| data := LdapSample.stale; stack := LdapSample.add_call |})
    (fun _ s' =>
       exists ms, add_entries LdapSample.add_call = Some ms /\
         read_mods (data s') = asked (tagged LUA_APR_LDAP_MOD_ADD ms))
    (fun _ => True).
Proof.
  apply lua_apr_ldap_add_round_trip; [exact stale_sized|].
  vm_compute. discriminate.
Defined.

Lemma lua_apr_ldap_add_without_table_witness :
  exists s', lua_apr_ldap_add {| data := LdapSample.stale; stack := LdapSample.bare_call |}
             = Returns tt s' /\
             read_mods (data s') = [] /\ stack s' = LdapSample.bare_call.
Proof.
  apply lua_apr_ldap_add_without_table; [exact stale_sized|].
  intros entries E. discriminate E.
Defined.

Lemma lua_apr_ldap_add_names_witness :
  ensures (lua_apr_ldap_add {| data := LdapSample.stale; stack := LdapSample.add_call |})
    (fun _ s' => sent_names (data s') = map Some (named_keys LdapSample.person))
    (fun _ => True).
Proof.
  apply lua_apr_ldap_add_names; [exact stale_sized|reflexivity|].
  vm_compute. discriminate.
Defined.


Lemma lua_apr_ldap_modify_forgotten_witness :
  lua_apr_ldap_modify 3
    {| data := LdapSample.stale; stack := LdapSample.forgetful_call |} =
  Raises (forgotten (3 + Z.of_nat (List.length [LdapSample.more_mail]))).
Proof.
  apply (lua_apr_ldap_modify_forgotten 3 LdapSample.stale LdapSample.forgetful_call
           [LdapSample.more_mail] [LdapSample.no_phone] LdapSample.no_operation
           [(LUA_APR_LDAP_MOD_ADD, "mail"%string, Some ["ada@example.net"%string])]).
  - exact stale_sized.
  - reflexivity.
  - constructor; [discriminate|constructor].
  - reflexivity.
  - reflexivity.
  - vm_compute. discriminate.
  - vm_compute. discriminate.
  - cbn. lia.
  - vm_compute. discriminate.
Defined.

Lemma search_value_round_trip_witness :
  (set_attributes_value (map ber ["top"; "person"]%string) ;; A_tab2val (Some "objectClass"%string))
    {| data := LdapSample.fresh; stack := [] |} =
  Returns (values_pointer LdapSample.fresh (returned_values ["top"; "person"]%string))
    {| data := add_values LdapSample.fresh (returned_values ["top"; "person"]%string);
       stack := [] ++ [search_value ["top"; "person"]%string] |}.
Proof.
  apply search_value_round_trip.
  - exact fresh_bounded.
  - vm_compute. discriminate.
  - vm_compute. discriminate.
  - split; [reflexivity|right; discriminate].
  - vm_compute. discriminate.
Defined.

Lemma lua_apr_ldap_url_parse_lists_witness :
  exists t,
    lua_apr_ldap_url_parse LdapSample.url {| data := LdapSample.fresh; stack := [] |} =
    Returns 1 {| data := LdapSample.fresh; stack := [] ++ [VTable t] |} /\
    (forall cells names,
       lud_attrs LdapSample.url = Some cells -> strings_of cells = Some names ->
       from_two (field t "attrs") names) /\
    (forall cells names,
       lud_exts LdapSample.url = Some cells -> strings_of cells = Some names ->
       from_two (field t "exts") names).
Proof.
  apply lua_apr_ldap_url_parse_lists.
  - cbn. discriminate.
  - exact I.
  - vm_compute. discriminate.
Defined.

Lemma set_attributes_fields_witness :
  exists t,
    set_attributes
      (as_bervalues [("cn", ["Ada"]); ("objectClass", ["top"; "person"]); ("seeAlso", [])]%string)
      (Z.of_nat (List.length [VString "cn=Ada,dc=example"%string]) + 1)
      {| data := LdapSample.fresh;
         stack := [VString "cn=Ada,dc=example"%string] ++ [VTable []] |} =
    Returns tt {| data := LdapSample.fresh;
                  stack := [VString "cn=Ada,dc=example"%string] ++ [VTable t] |} /\
    field t "objectClass" = search_value ["top"; "person"]%string.
Proof.
  apply set_attributes_fields.
  - repeat constructor; cbn; intuition discriminate.
  - right; left; reflexivity.
  - vm_compute. discriminate.
Defined.

Lemma dirty_length (k : Z) :
  0 <= k -> Z.of_nat (List.length (LdapSample.dirty k)) = k.
Proof. intros Hk. unfold LdapSample.dirty. rewrite repeat_length. lia. Defined.

Lemma lua_apr_ldap_search_attrs_ignored_witness :
  match lua_apr_ldap_search_attrs LdapSample.dirty
          {| data := LdapSample.fresh; stack := LdapSample.search_call |} with
  | Returns attrs s' =>
      strings_of attrs = Some [] /\
      s' = {| data := LdapSample.fresh;
              stack := LdapSample.search_call
                       ++ [search_option LdapSample.search_call "attrs"] |}
  | Raises _ => False
  | Undefined => counted (search_option LdapSample.search_call "attrs") = 0
  end.
Proof.
  apply (lua_apr_ldap_search_attrs_ignored LdapSample.dirty LdapSample.fresh
           LdapSample.search_call
           [(VString "base", VString "dc=example");
            (VString "attrs", VTable [(VNumber 1, VString "cn");
                                      (VNumber 2, VString "mail")])]%string).
  - reflexivity.
  - exact dirty_length.
  - vm_compute. discriminate.
Defined.

Lemma lua_apr_ldap_search_attrs_empty_witness :
  lua_apr_ldap_search_attrs LdapSample.dirty
    {| data := LdapSample.fresh; stack := LdapSample.search_all_call |} = Undefined.
Proof.
  apply (lua_apr_ldap_search_attrs_empty LdapSample.dirty LdapSample.fresh
           LdapSample.search_all_call
           [(VString "base", VString "dc=example"); (VString "attrs", VTable [])]%string
           []).
  - reflexivity.
  - exact dirty_length.
  - reflexivity.
  - reflexivity.
Defined.

Lemma A_tab2val_overrun_witness :
  A_tab2val (Some "mail"%string)
    {| data := LdapSample.fresh;
       stack := (LdapSample.mailing_call ++ [VString "mail"%string])
                ++ [VTable LdapSample.addresses] |} = Undefined.
Proof.
  apply (A_tab2val_overrun LdapSample.fresh
           (LdapSample.mailing_call ++ [VString "mail"%string]) LdapSample.addresses
           (Some "mail"%string) (repeat "ada@example.org"%string 16)).
  - repeat split; reflexivity.
  - cbn. lia.
  - cbn. lia.
  - reflexivity.
  - vm_compute. discriminate.
  - vm_compute. discriminate.
  - vm_compute. discriminate.
  - vm_compute. reflexivity.
Defined.

End LdapExamples.
